(** * Vocabulary extraction, export and validation: a shallow embedding

    Embeds the English line parser [parse_english_vocabulary], the parser
    for French and German textbooks [parse_vocabulary_lines], the image
    loop [extract_all_images], the flashcard writer [create_anki_file] and
    the command-line guard of [main] from
    [scripts/create_anki_from_images.py], and [load_anki_file],
    [validate_vocabulary], [create_enriched_anki_file] and the path of the
    final file computed by [main] from [scripts/validate_vocabulary.py].

    Python strings are sequences of Unicode code points.  Character
    classification and case mapping are given exactly on ASCII and are taken
    from an abstract character database elsewhere, so every statement below
    holds for whatever Unicode tables the interpreter ships. *)

From Stdlib Require Import List Bool Arith NArith ZArith Lia String Ascii.
From Stdlib Require Import Floats Uint63 Permutation.
Import ListNotations.

Set Implicit Arguments.
Local Open Scope N_scope.

(** ** Python strings *)

Definition str := list N.

(** UTF-8 decoding of a source literal (bytes to code points). *)
Fixpoint utf8_decode (bs : list N) : str :=
  match bs with
  | [] => []
  | b0 :: t0 =>
    if b0 <? 128 then b0 :: utf8_decode t0
    else match t0 with
    | [] => []
    | b1 :: t1 =>
      if b0 <? 224 then ((b0 - 192) * 64 + (b1 - 128)) :: utf8_decode t1
      else match t1 with
      | [] => []
      | b2 :: t2 =>
        if b0 <? 240
        then ((b0 - 224) * 4096 + (b1 - 128) * 64 + (b2 - 128)) :: utf8_decode t2
        else match t2 with
        | [] => []
        | b3 :: t3 =>
          ((b0 - 240) * 262144 + (b1 - 128) * 4096 + (b2 - 128) * 64 + (b3 - 128))
            :: utf8_decode t3
        end
      end
    end
  end.

(** [py "..."] is the Python string written by that literal. *)
Definition py (lit : string) : str :=
  utf8_decode (map N_of_ascii (list_ascii_of_string lit)).

(** A one-character literal as a code point. *)
Definition chr (lit : string) : N := hd 0 (py lit).

Definition QUOTE : N := 34.
Definition TAB : N := 9.
Definition LF : N := 10.
Definition CR : N := 13.

Fixpoint str_eqb (a b : str) : bool :=
  match a, b with
  | [], [] => true
  | x :: a', y :: b' => (x =? y) && str_eqb a' b'
  | _, _ => false
  end.

Definition len (A : Type) (l : list A) : N := N.of_nat (List.length l).

(** [x in l] for a list of strings. *)
Definition mem_str (x : str) (l : list str) : bool := existsb (str_eqb x) l.

(** [c in text] for a character. *)
Definition mem_chr (c : N) (text : str) : bool := existsb (N.eqb c) text.

Fixpoint startswith (text pre : str) {struct pre} : bool :=
  match pre, text with
  | [], _ => true
  | p :: pre', c :: text' => (p =? c) && startswith text' pre'
  | _ :: _, [] => false
  end.

Definition endswith (text suf : str) : bool := startswith (rev text) (rev suf).

(** [sub in text] for a substring. *)
Fixpoint contains (sub text : str) : bool :=
  startswith text sub ||
  match text with
  | [] => false
  | _ :: text' => contains sub text'
  end.

Fixpoint join (sep : str) (parts : list str) : str :=
  match parts with
  | [] => []
  | [p] => p
  | p :: rest => p ++ sep ++ join sep rest
  end.

Fixpoint dropwhile (p : N -> bool) (s : str) : str :=
  match s with
  | [] => []
  | c :: s' => if p c then dropwhile p s' else s
  end.

Definition lstrip_by (p : N -> bool) (s : str) : str := dropwhile p s.
Definition rstrip_by (p : N -> bool) (s : str) : str := rev (dropwhile p (rev s)).
Definition strip_by (p : N -> bool) (s : str) : str := rstrip_by p (lstrip_by p s).

(** [s.strip(chars)], [s.lstrip(chars)], [s.rstrip(chars)]. *)
Definition strip_chars (chars s : str) : str := strip_by (fun c => mem_chr c chars) s.
Definition lstrip_chars (chars s : str) : str := lstrip_by (fun c => mem_chr c chars) s.
Definition rstrip_chars (chars s : str) : str := rstrip_by (fun c => mem_chr c chars) s.

(** [s.count(c)] for a one-character needle. *)
Definition count_chr (c : N) (s : str) : N := len (filter (N.eqb c) s).

(** [s[:-1]]. *)
Definition drop_last (s : str) : str := removelast s.

(** ** Character database *)

Definition is_ascii (c : N) : bool := c <? 128.
Definition all_ascii (s : str) : bool := forallb is_ascii s.

Definition ascii_isupper (c : N) : bool := (65 <=? c) && (c <=? 90).
Definition ascii_islower (c : N) : bool := (97 <=? c) && (c <=? 122).
Definition ascii_isalpha (c : N) : bool := ascii_isupper c || ascii_islower c.
Definition ascii_isdecimal (c : N) : bool := (48 <=? c) && (c <=? 57).
Definition ascii_isalnum (c : N) : bool := ascii_isalpha c || ascii_isdecimal c.
Definition ascii_isspace (c : N) : bool :=
  ((9 <=? c) && (c <=? 13)) || ((28 <=? c) && (c <=? 32)).
Definition ascii_lower (c : N) : N := if ascii_isupper c then c + 32 else c.

(** What the interpreter's Unicode tables say outside ASCII.  [ext_lower]
    works on whole strings because lowering is context sensitive there.
    [ext_lower_visible] records the one property of the case mapping the
    proofs use: lowering a string that has a non-ASCII character leaves a
    non-ASCII character in it, or a [k] (from KELVIN SIGN). *)
Record unicode_db : Type := {
  ext_lower : str -> str;
  ext_isupper : N -> bool;
  ext_islower : N -> bool;
  ext_isalpha : N -> bool;
  ext_isspace : N -> bool;
  ext_isdecimal : N -> bool;
  ext_isalnum : N -> bool;
  ext_caseless_eq : N -> N -> bool;
  ext_lower_visible :
    forall s, all_ascii s = false ->
      existsb (fun c => negb (is_ascii c) || (c =? 107)) (ext_lower s) = true
}.

Section Strings.

Variable U : unicode_db.

Definition lower (s : str) : str :=
  if all_ascii s then map ascii_lower s else ext_lower U s.

Definition isupper (c : N) : bool := if is_ascii c then ascii_isupper c else ext_isupper U c.
Definition islower (c : N) : bool := if is_ascii c then ascii_islower c else ext_islower U c.
Definition isalpha (c : N) : bool := if is_ascii c then ascii_isalpha c else ext_isalpha U c.
Definition isspace (c : N) : bool := if is_ascii c then ascii_isspace c else ext_isspace U c.
Definition isdecimal (c : N) : bool := if is_ascii c then ascii_isdecimal c else ext_isdecimal U c.
Definition isalnum (c : N) : bool := if is_ascii c then ascii_isalnum c else ext_isalnum U c.

(** [s.isalpha()] on a whole string. *)
Definition str_isalpha (s : str) : bool :=
  match s with [] => false | _ => forallb isalpha s end.

(** [s.strip()]. *)
Definition strip (s : str) : str := strip_by isspace s.

(** [s.split()]: maximal runs of non-whitespace characters. *)
Fixpoint split_acc (s : str) (cur : str) : list str :=
  match s with
  | [] => match cur with [] => [] | _ => [rev cur] end
  | c :: s' =>
    if isspace c
    then match cur with [] => split_acc s' [] | _ => rev cur :: split_acc s' [] end
    else split_acc s' (c :: cur)
  end.

Definition split (s : str) : list str := split_acc s [].

End Strings.

(** ** Regular expressions ([re] module)

    The patterns of the source use literals, character classes, anchors,
    [\b], groups, alternation, [?] on groups and characters, and [*], [+]
    and [+?] on single characters or classes only.  The matcher is the
    usual backtracking one: alternatives left to right, greedy repetition
    longest first, lazy repetition shortest first. *)

Inductive cls : Type :=
| CAny                      (* [.]: anything but a newline *)
| CChr (c : N)
| CRange (lo hi : N)
| CDigit                    (* [\d] *)
| CSpace                    (* [\s] *)
| CNotSpace                 (* [\S] *)
| CWord.                    (* [\w] *)

Inductive chr_pat : Type :=
| PLit (c : N)              (* a literal character *)
| PIn (items : list cls)    (* [[...]] or a class escape *)
| PNotIn (items : list cls). (* [[^...]] *)

Inductive regex : Type :=
| Eps
| One (p : chr_pat)
| Cat (a b : regex)
| Alt (a b : regex)
| Rep (greedy : bool) (lo : nat) (p : chr_pat)   (* at least [lo] times *)
| Grp (n : nat) (a : regex)
| Bos                       (* [^] *)
| Eos                       (* [$] *)
| WordB.                    (* [\b] *)

(** A successful match: where it ended and what the groups captured. *)
Record match_obj : Type := {
  m_end : nat;
  m_groups : list (nat * str)
}.

Fixpoint lookup_group (n : nat) (gs : list (nat * str)) : option str :=
  match gs with
  | [] => None
  | (i, s) :: gs' => if Nat.eqb i n then Some s else lookup_group n gs'
  end.

(** [m.group(n)] for a group that took part in the match. *)
Definition group (m : match_obj) (n : nat) : str :=
  match lookup_group n (m_groups m) with Some s => s | None => [] end.

Section Regex.

Variable U : unicode_db.

(** Literal comparison under [re.IGNORECASE]. *)
Definition caseless_eq (x c : N) : bool :=
  if is_ascii x && is_ascii c then ascii_lower x =? ascii_lower c
  else ext_caseless_eq U x c.

Definition is_word (c : N) : bool := isalnum U c || (c =? 95).

Definition cls_match (k : cls) (c : N) : bool :=
  match k with
  | CAny => negb (c =? LF)
  | CChr x => x =? c
  | CRange lo hi => (lo <=? c) && (c <=? hi)
  | CDigit => isdecimal U c
  | CSpace => isspace U c
  | CNotSpace => negb (isspace U c)
  | CWord => is_word c
  end.

Variable icase : bool.

Definition pat_match (p : chr_pat) (c : N) : bool :=
  match p with
  | PLit x => if icase then caseless_eq x c else x =? c
  | PIn items => existsb (fun k => cls_match k c) items
  | PNotIn items => negb (existsb (fun k => cls_match k c) items)
  end.

(** A continuation receives the remaining input, the position, the
    character just before it and the captures so far. *)
Definition cont : Type := str -> nat -> option N -> list (nat * str) -> option match_obj.

Fixpoint rep (greedy : bool) (p : chr_pat) (k : cont) (lo : nat)
    (rest : str) (pos : nat) (prev : option N) (caps : list (nat * str))
    {struct rest} : option match_obj :=
  match lo with
  | S lo' =>
    match rest with
    | c :: rest' =>
      if pat_match p c then rep greedy p k lo' rest' (S pos) (Some c) caps else None
    | [] => None
    end
  | O =>
    if greedy then
      match
        match rest with
        | c :: rest' =>
          if pat_match p c then rep greedy p k O rest' (S pos) (Some c) caps else None
        | [] => None
        end
      with
      | Some m => Some m
      | None => k rest pos prev caps
      end
    else
      match k rest pos prev caps with
      | Some m => Some m
      | None =>
        match rest with
        | c :: rest' =>
          if pat_match p c then rep greedy p k O rest' (S pos) (Some c) caps else None
        | [] => None
        end
      end
  end.

Definition word_before (prev : option N) : bool :=
  match prev with Some c => is_word c | None => false end.

Definition word_after (rest : str) : bool :=
  match rest with c :: _ => is_word c | [] => false end.

Fixpoint rmatch (r : regex) (k : cont)
    (rest : str) (pos : nat) (prev : option N) (caps : list (nat * str))
    : option match_obj :=
  match r with
  | Eps => k rest pos prev caps
  | One p =>
    match rest with
    | c :: rest' => if pat_match p c then k rest' (S pos) (Some c) caps else None
    | [] => None
    end
  | Cat a b => rmatch a (rmatch b k) rest pos prev caps
  | Alt a b =>
    match rmatch a k rest pos prev caps with
    | Some m => Some m
    | None => rmatch b k rest pos prev caps
    end
  | Rep greedy lo p => rep greedy p k lo rest pos prev caps
  | Grp n a =>
    rmatch a (fun rest' pos' prev' caps' =>
                k rest' pos' prev' ((n, firstn (pos' - pos) rest) :: caps'))
           rest pos prev caps
  | Bos => if Nat.eqb pos 0 then k rest pos prev caps else None
  | Eos =>
    match rest with
    | [] => k rest pos prev caps
    | [c] => if c =? LF then k rest pos prev caps else None
    | _ => None
    end
  | WordB =>
    if xorb (word_before prev) (word_after rest) then k rest pos prev caps else None
  end.

Definition accept : cont := fun _ pos _ caps => Some {| m_end := pos; m_groups := caps |}.

(** [re.match(r, text)]: a match starting at the first character. *)
Definition re_match (r : regex) (text : str) : option match_obj :=
  rmatch r accept text 0%nat None [].

(** The leftmost match starting at or after the current position, with the
    position it starts at. *)
Fixpoint search_from (r : regex) (rest : str) (pos : nat) (prev : option N)
    : option (nat * match_obj) :=
  match rmatch r accept rest pos prev [] with
  | Some m => Some (pos, m)
  | None =>
    match rest with
    | [] => None
    | c :: rest' => search_from r rest' (S pos) (Some c)
    end
  end.

(** [re.search(r, text)]. *)
Definition re_search (r : regex) (text : str) : option match_obj :=
  match search_from r text 0%nat None with
  | Some (_, m) => Some m
  | None => None
  end.

Definition last_chr (prev : option N) (s : str) : option N :=
  match rev s with c :: _ => Some c | [] => prev end.

(** [re.findall(r, text)] for a pattern with one group: the text of group 1
    of each successive match.  (Every pattern it is used with matches at
    least one character; after an empty match the scan moves on by one.) *)
Fixpoint findall_from (fuel : nat) (r : regex) (rest : str) (pos : nat) (prev : option N)
    : list str :=
  match fuel with
  | O => []
  | S fuel' =>
    match search_from r rest pos prev with
    | None => []
    | Some (start, m) =>
      let used := if Nat.eqb (m_end m) start then S (m_end m - pos) else (m_end m - pos)%nat in
      group m 1 ::
        findall_from fuel' r (skipn used rest) (pos + used) (last_chr prev (firstn used rest))
    end
  end.

Definition re_findall (r : regex) (text : str) : list str :=
  findall_from (S (List.length text)) r text 0%nat None.

(** [re.sub(r, repl, text)] for a replacement without group references. *)
Fixpoint sub_from (fuel : nat) (r : regex) (repl : str) (rest : str) (pos : nat)
    (prev : option N) : str :=
  match fuel with
  | O => rest
  | S fuel' =>
    match search_from r rest pos prev with
    | None => rest
    | Some (start, m) =>
      let used := if Nat.eqb (m_end m) start then S (m_end m - pos) else (m_end m - pos)%nat in
      firstn (start - pos) rest ++ repl ++
        (if Nat.eqb (m_end m) start then firstn 1 (skipn (start - pos) rest) else []) ++
        sub_from fuel' r repl (skipn used rest) (pos + used) (last_chr prev (firstn used rest))
    end
  end.

Definition re_sub (r : regex) (repl text : str) : str :=
  sub_from (S (List.length text)) r repl text 0%nat None.

End Regex.

(** Pattern-writing helpers. *)
Definition lit (c : string) : regex := One (PLit (chr c)).
Definition lits (s : string) : regex :=
  fold_right (fun c r => Cat (One (PLit c)) r) Eps (py s).
Definition Opt (r : regex) : regex := Alt r Eps.
Definition Star (p : chr_pat) : regex := Rep true 0 p.
Definition Plus (p : chr_pat) : regex := Rep true 1 p.
Definition PlusLazy (p : chr_pat) : regex := Rep false 1 p.
Definition Seq (rs : list regex) : regex := fold_right Cat Eps rs.
Definition Alts (rs : list regex) : regex :=
  match rs with
  | [] => Eps
  | r :: rs' => fold_left Alt rs' r
  end.
Definition cc (c : string) : cls := CChr (chr c).
Definition a_z : cls := CRange (chr "a") (chr "z").
Definition A_Z : cls := CRange (chr "A") (chr "Z").
Definition digit : chr_pat := PIn [CDigit].
Definition space : chr_pat := PIn [CSpace].
Definition word : chr_pat := PIn [CWord].

(** ** Exceptions *)

Inductive exn : Type := IndexError | OSError.

Inductive result (A : Type) : Type :=
| Ok (a : A)
| Raise (e : exn).

Arguments Ok {A} a.
Arguments Raise {A} e.

Definition bind (A B : Type) (m : result A) (f : A -> result B) : result B :=
  match m with
  | Ok a => f a
  | Raise e => Raise e
  end.

Notation "x <- m ;; k" := (bind m (fun x => k))
  (at level 61, m at next level, right associativity).

(** [a and b], [a or b], [not a] on computations that may raise: the right
    operand only counts when the left one lets it run. *)
Definition andm (a b : result bool) : result bool :=
  x <- a ;; if x then b else Ok false.
Definition orm (a b : result bool) : result bool :=
  x <- a ;; if x then Ok true else b.
Definition notm (a : result bool) : result bool :=
  x <- a ;; Ok (negb x).

(** [l[i]] for [i >= 0]. *)
Definition item (A : Type) (l : list A) (i : nat) : result A :=
  match nth_error l i with
  | Some x => Ok x
  | None => Raise IndexError
  end.

(** Truth value of a string or list. *)
Definition truthy (A : Type) (l : list A) : bool :=
  match l with [] => false | _ => true end.

Definition is_some (A : Type) (o : option A) : bool :=
  match o with Some _ => true | None => false end.

(** ** [parse_english_vocabulary]: tables *)

Definition starts (s : string) : regex := Cat Bos (lits s).
Definition exact (s : string) : regex := Seq [Bos; lits s; Eos].

(** Section headers and page numbers; matched with [re.IGNORECASE]. *)
Definition skip_patterns : list regex := [
  Seq [Bos; Plus digit; Eos];                    (* ^[\d]+$ *)
  starts "one hundred";
  starts "two hundred"; starts "three hundred";
  Seq [Bos; lits "Unit "; Plus digit];           (* ^Unit \d+ *)
  exact "Check-in"; exact "Vocabulary"; exact "Media collocations";
  exact "Media"; exact "Verb"; exact "Collocations"; exact "Translation";
  exact "print media"; exact "TV"; exact "radio"; exact "online media";
  exact "social media";
  exact "Describing developments"; exact "Adjective collocations";
  exact "Nouns and adjectives"; exact "Nouns and verbs with the same form";
  starts "Skills:"; starts "Unit task:"; starts "Story:"; starts "Across cultures";
  Seq [Bos; lits "Focus "; Plus digit];          (* ^Focus \d+ *)
  Seq [Bos; lits "Station "; Plus digit]         (* ^Station \d+ *)
].

Definition german_indicators : list N :=
  [chr "盲"; chr "枚"; chr "眉"; chr "脽"; chr "脛"; chr "脰"; chr "脺"].

Definition german_starters : list str := [
  py "der "; py "die "; py "das "; py "ein "; py "eine "; py "etw."; py "jdn.";
  py "jdm."; py "jmd.";
  py "sich "; py "(sich)"; py "(tun)"; py "(zu)"; py "(mit)"; py "(眉ber)";
  py "(auf)"; py "(an)";
  py "anderen"; py "anderer"; py "Meinung"; py "nicht"; py "sein; "; py "haben; "
].

Definition skip_line_patterns : list regex := [
  starts "Fr.";                                              (* ^Fr\. *)
  starts "Lat.";                                             (* ^Lat\. *)
  starts "!";                                                (* ^! *)
  starts "->";                                               (* ^-> *)
  Seq [Bos; Plus word; lits " ->"];                          (* ^\w+ -> *)
  Seq [Bos; Plus (PIn [a_z]); lits " = "; Plus (PIn [a_z])]; (* ^[a-z]+ = [a-z]+ *)
  Seq [Bos; Plus (PIn [a_z]); lits " 芦"];                   (* ^[a-z]+ 芦 *)
  Seq [One digit; One digit; One digit; Eos];                (* \d{3}$ *)
  starts "[";                                                (* ^\[ *)
  starts "one hundred"; starts "two hundred";
  Seq [lit "["; Plus (PNotIn [cc "]"]); lit "]"];            (* \[[^\]]+\] *)
  starts "to me "; starts "to you "; starts "to him "; starts "to her "
].

Definition skip_substrings : list str :=
  [py "->"; py "芦"; py "禄"; py " = "; py "] (pl)"; py "(pl.)"; py "(sing.)"].

Definition apos : string := "'".

Definition english_sentence_starters : list str := map py [
  "I "; "I'm "; "I've "; "I'd "; "I'll ";
  "You "; "You're "; "You've "; "You'd "; "You'll ";
  "He "; "He's "; "He'd "; "He'll "; "She "; "She's "; "She'd "; "She'll ";
  "We "; "We're "; "We've "; "We'd "; "We'll ";
  "They "; "They're "; "They've "; "They'd "; "They'll ";
  "It "; "It's "; "It'd "; "It'll "; "Its ";
  "My "; "Your "; "His "; "Her "; "Our "; "Their ";
  "The "; "A "; "An "; "Some "; "Any "; "This "; "That "; "These "; "Those ";
  "If "; "When "; "Where "; "What "; "Why "; "How "; "Who ";
  "Are "; "Is "; "Was "; "Were "; "Do "; "Does "; "Did ";
  "Have "; "Has "; "Had "; "Can "; "Could "; "Will "; "Would "; "Should ";
  "Never "; "Always "; "Just "; "With "; "As "; "To "; "For "; "From ";
  "Arms "; "Sports "; "There "
]%string.

Definition german_patterns : list str := map py
  ["ss"; "ck"; "sch"; "tzt"; "ngen"; "ung"; "heit"; "keit"; "rden"; "eich"]%string.

Definition common_german_words : list str := map py [
  "werden"; "haben"; "machen"; "gehen"; "kommen"; "nehmen";
  "sehen"; "geben"; "wissen"; "k枚nnen"; "m眉ssen"; "wollen";
  "sollen"; "d眉rfen"; "lassen"; "bleiben"; "finden"; "denken";
  "vergleichbar"; "digital"; "blond"
]%string.

(** [^to [a-z]+] *)
Definition to_verb : regex := Seq [Bos; lits "to "; Plus (PIn [a_z])].

(** ** [parse_english_vocabulary]: line predicates *)

Section LinePredicates.

Variable U : unicode_db.

Definition matches (pattern : regex) (text : str) : bool :=
  is_some (re_match U false pattern text).

Definition should_skip_line (text : str) : result bool :=
  if negb (truthy text) then Ok true
  else if existsb (fun sub => contains sub text) skip_substrings then Ok true
  else if existsb (fun pattern => matches pattern text) skip_line_patterns then Ok true
  else Ok false.

Definition is_likely_german (text : str) : result bool :=
  if negb (truthy text) || (len text <? 2) then Ok false else
  skip <- should_skip_line text ;;
  if skip then Ok false else
  if existsb (fun c => mem_chr c text) german_indicators then Ok true else
  if existsb (fun s => startswith text s) german_starters then Ok true else
  if matches to_verb text then Ok false else
  c0 <- item text 0 ;;
  if isupper U c0 && (len text <? 40) &&
     negb (existsb (fun s => startswith text s) english_sentence_starters)
  then Ok true else
  c0 <- item text 0 ;;
  if islower U c0 && (len text <? 50) &&
     (mem_chr (chr ";") text || mem_chr (chr "/") text)
  then Ok true else
  c0 <- item text 0 ;;
  if islower U c0 && (len text <? 25) && (len (split U text) =? 1) then
    if existsb (fun p => contains p (lower U text)) german_patterns then Ok true
    else if mem_str (lower U text) common_german_words then Ok true
    else Ok false
  else Ok false.

Definition is_english_sentence (text : str) : result bool :=
  if negb (truthy text) then Ok false else
  Ok ((30 <? len text) &&
      existsb (fun s => startswith text s) english_sentence_starters).

Definition is_continuation (text : str) : result bool :=
  if negb (truthy text) || (len text <? 2) then Ok false else
  skip <- should_skip_line text ;;
  if skip then Ok false else
  if matches to_verb text then Ok false else
  andm (orm (c0 <- item text 0 ;; Ok (islower U c0))
            (Ok (existsb (fun c => mem_chr c text) german_indicators)))
       (andm (Ok (len text <? 50)) (notm (is_english_sentence text))).

End LinePredicates.

(** ** [parse_english_vocabulary]: patterns of the scanning loop *)

Definition letter : chr_pat := PIn [a_z; A_Z].
Definition not_rbracket : chr_pat := PNotIn [cc "]"].

(** [[\*\x22\d\s]*] and [[\*\x22\d\s\']*] *)
Definition lead : regex := Star (PIn [cc "*"; CChr QUOTE; CDigit; CSpace]).
Definition lead_apos : regex := Star (PIn [cc "*"; CChr QUOTE; CDigit; CSpace; cc "'"]).

(** [[a-zA-Z\s\'\-\(\)\.\/\+\,\?!]] *)
Definition phrase_chr : chr_pat :=
  PIn [a_z; A_Z; CSpace; cc "'"; cc "-"; cc "("; cc ")"; cc "."; cc "/"; cc "+";
       cc ","; cc "?"; cc "!"].

(** [[a-zA-Z\s\'\-]] *)
Definition words_chr : chr_pat := PIn [a_z; A_Z; CSpace; cc "'"; cc "-"].

(** [\[[^\]]+\]] *)
Definition bracketed : regex := Seq [lit "["; Plus not_rbracket; lit "]"].

(** [^[\*\x22\d\s]*([a-zA-Z][a-zA-Z\s\'\-\(\)\.\/\+\,\?!]+?)\s*\[([^\]]+)\]\]?(?:\s*\((?:pl|sing)\.\?\)?)?$] *)
Definition word_pron_pattern : regex := Seq [
  Bos; lead; Grp 1 (Cat (One letter) (PlusLazy phrase_chr)); Star space;
  lit "["; Grp 2 (Plus not_rbracket); lit "]"; Opt (lit "]");
  Opt (Seq [Star space; lit "("; Alt (lits "pl") (lits "sing"); lit "."; lit "?";
            Opt (lit ")")]);
  Eos].

(** [^[\*\x22\d\s]*([a-zA-Z][a-zA-Z\s\'\-\,]+)\s*\[[^\]]+\]\]?(?:,\s*\w+\s*\[[^\]]+\]\]?)?\s*(?:\((?:pl|sing)\.?\))?$] *)
Definition word_pron_alt_pattern : regex := Seq [
  Bos; lead;
  Grp 1 (Cat (One letter) (Plus (PIn [a_z; A_Z; CSpace; cc "'"; cc "-"; cc ","])));
  Star space; bracketed; Opt (lit "]");
  Opt (Seq [lit ","; Star space; Plus word; Star space; bracketed; Opt (lit "]")]);
  Star space;
  Opt (Seq [lit "("; Alt (lits "pl") (lits "sing"); Opt (lit "."); lit ")"]);
  Eos].

(** [^[\*\x22\d\s]*([a-zA-Z][a-zA-Z\s\'\-]+)\s*\[[^\]]+\]\]$] *)
Definition word_pron_broken_pattern : regex := Seq [
  Bos; lead; Grp 1 (Cat (One letter) (Plus words_chr)); Star space;
  bracketed; lit "]"; Eos].

(** [([a-zA-Z][a-zA-Z\-]+)\s*\[[^\]]+\]] *)
Definition multi_word_pattern : regex := Seq [
  Grp 1 (Cat (One letter) (Plus (PIn [a_z; A_Z; cc "-"]))); Star space; bracketed].

(** [[a-zA-Z盲枚眉脽脛脰脺]] *)
Definition german_letter : list cls :=
  [a_z; A_Z; cc "盲"; cc "枚"; cc "眉"; cc "脽"; cc "脛"; cc "脰"; cc "脺"].

(** [^[\*\x22\d\s]*([a-zA-Z][a-zA-Z\s\'\-]+)\s*\[[^\]]+\]\s+([a-zA-Z盲枚眉脽脛脰脺][a-zA-Z盲枚眉脽脛脰脺\-\/\s]+)$] *)
Definition inline_pattern : regex := Seq [
  Bos; lead; Grp 1 (Cat (One letter) (Plus words_chr)); Star space; bracketed;
  Plus space;
  Grp 2 (Cat (One (PIn german_letter))
             (Plus (PIn (german_letter ++ [cc "-"; cc "/"; CSpace]))));
  Eos].

(** [^[\*\x22\d\s]*([a-zA-Z][a-zA-Z\s\'\-]+)\s*\[[^\]]+\],\s*\w+\s*\(pl\)$] *)
Definition plural_pattern : regex := Seq [
  Bos; lead; Grp 1 (Cat (One letter) (Plus words_chr)); Star space; bracketed;
  lit ","; Star space; Plus word; Star space; lits "(pl)"; Eos].

(** [^\[[^\]]*\]] and [^\[\S+\].*\]$] *)
Definition pron_line_pattern : regex := Seq [Bos; lit "["; Star not_rbracket; lit "]"].
Definition pron_line_broken_pattern : regex := Seq [
  Bos; lit "["; Plus (PIn [CNotSpace]); lit "]"; Star (PIn [CAny]); lit "]"; Eos].

(** [^[\*\x22\d\s\']*[a-zA-Z][a-zA-Z\s\'\-]+\s*\[] *)
Definition next_word_pattern : regex := Seq [
  Bos; lead_apos; One letter; Plus words_chr; Star space; lit "["].

(** [^[\*\x22\d\s\']*([a-zA-Z][a-zA-Z\s\'\-\(\)\.\/\+\,\?!]+?)(?:\s*\((?:AE|BE|no pl|pl)\))?$] *)
Definition bare_word_pattern : regex := Seq [
  Bos; lead_apos; Grp 1 (Cat (One letter) (PlusLazy phrase_chr));
  Opt (Seq [Star space; lit "(";
            Alts [lits "AE"; lits "BE"; lits "no pl"; lits "pl"]; lit ")"]);
  Eos].

(** [\((AE|BE|no pl)\)$] *)
Definition marker_pattern : regex := Seq [
  lit "("; Grp 1 (Alts [lits "AE"; lits "BE"; lits "no pl"]); lit ")"; Eos].

(** [^[\*\x22\d\s]*[a-zA-Z][a-zA-Z\s\'\-\(\)\.\/\+\,\?!]+?\s*\[[^\]]+\]], and the
    same followed by [$]. *)
Definition entry_start_pattern : regex := Seq [
  Bos; lead; One letter; PlusLazy phrase_chr; Star space; bracketed].
Definition entry_line_pattern : regex := Seq [
  Bos; lead; One letter; PlusLazy phrase_chr; Star space; bracketed; Eos].

(** [^\[[^\]]+\]$] *)
Definition pron_only_pattern : regex := Seq [Bos; bracketed; Eos].

(** [;\s*;] and [\s+] *)
Definition double_semicolon : regex := Seq [lit ";"; Star space; lit ";"].
Definition blanks : regex := Plus space.

(** [^(to \w+ (oneself|yourself|himself|herself|themselves|ourselves))$],
    matched with [re.IGNORECASE]. *)
Definition reflexive_pattern : regex := Seq [
  Bos;
  Grp 1 (Seq [lits "to "; Plus word; lit " ";
              Grp 2 (Alts [lits "oneself"; lits "yourself"; lits "himself";
                           lits "herself"; lits "themselves"; lits "ourselves"])]);
  Eos].

(** [^[\*\x22\d\s\']*([a-zA-Z][a-zA-Z\-]+)$] *)
Definition simple_word_pattern : regex := Seq [
  Bos; lead_apos; Grp 1 (Cat (One letter) (Plus (PIn [a_z; A_Z; cc "-"]))); Eos].

Definition incomplete_endings : list str := map py
  ["nicht"; "und"; "oder"; "bei"; "von"; "f眉r"; "das"; "der"; "die"]%string.

(** The characters stripped from the front of a headword: star, double
    quote, digits and blank; the second set has the apostrophe as well. *)
Definition marker_chars : str := py "*" ++ [QUOTE] ++ py "0123456789 ".
Definition marker_chars_apos : str := py "*" ++ [QUOTE] ++ py "'0123456789 ".

(** ** [parse_english_vocabulary]: the scanning loop *)

Definition entry : Type := (str * str)%type.

(** What one turn of the [while] loop does: the next cursor and the entry
    appended to [vocabulary], if any. *)
Definition outcome : Type := (nat * option entry)%type.

(** [range(a, b)]. *)
Definition range (a b : nat) : list nat := seq a (b - a).

(** The update of [german_parts] by a new fragment: glued to the last
    fragment when that one ends in a hyphen, appended otherwise. *)
Definition add_part (german_parts : list str) (cleaned : str) : list str :=
  match rev german_parts with
  | last :: before =>
    if endswith last (py "-")
    then rev before ++ [drop_last last ++ cleaned]
    else german_parts ++ [cleaned]
  | [] => german_parts ++ [cleaned]
  end.

(** [a] if it decided the turn, [b] otherwise. *)
Definition otherwise (a : result (option outcome)) (b : result outcome) : result outcome :=
  r <- a ;; match r with Some o => Ok o | None => b end.

Section Scanner.

Variable U : unicode_db.
Variable lines : list str.

Definition clean_fragment (text : str) : str := strip U (rstrip_chars (py ";") text).

(** [last_word in incomplete_endings and not cleaned.endswith(')')] *)
Definition looks_incomplete (cleaned : str) : bool :=
  let last_word :=
    match rev (split U cleaned) with
    | w :: _ => rstrip_chars (py ")") (lower U w)
    | [] => []
    end in
  mem_str last_word incomplete_endings && negb (endswith cleaned (py ")")).

(** The translation-collecting [while j < max_lines] loop shared by the
    split-line pattern and the fallback; [stop] is the test that ends the
    collection at the next vocabulary entry, [n] is [max_lines - j]. *)
Fixpoint collect (stop : str -> bool) (n j : nat) (german_parts : list str)
    : result (list str) :=
  match n with
  | O => Ok german_parts
  | S n' =>
    l <- item lines j ;;
    let next_line := strip U l in
    if stop next_line then Ok german_parts else
    if negb (truthy next_line) then collect stop n' (S j) german_parts else
    skip <- should_skip_line U next_line ;;
    if skip then collect stop n' (S j) german_parts else
    sentence <- is_english_sentence next_line ;;
    if sentence then collect stop n' (S j) german_parts else
    german <- is_likely_german U next_line ;;
    if german then
      let cleaned := clean_fragment next_line in
      if truthy cleaned && (1 <? len cleaned) then
        let german_parts := add_part german_parts cleaned in
        if negb (endswith cleaned (py "-")) && negb (looks_incomplete cleaned)
        then Ok german_parts
        else collect stop n' (S j) german_parts
      else collect stop n' (S j) german_parts
    else
      continuation <- is_continuation U next_line ;;
      if continuation then
        let cleaned := clean_fragment next_line in
        if truthy cleaned && (1 <? len cleaned) then
          let german_parts := add_part german_parts cleaned in
          if endswith cleaned (py ")") ||
             ((2 <=? len german_parts) && negb (endswith cleaned (py "-")))
          then Ok german_parts
          else collect stop n' (S j) german_parts
        else collect stop n' (S j) german_parts
      else collect stop n' (S j) german_parts
  end.

(** Joining the fragments, as the split-line pattern and the fallback do. *)
Definition combine_parts (german_parts : list str) : str :=
  let german := join (py "; ") german_parts in
  let german := re_sub U false double_semicolon (py ";") german in
  let german := re_sub U false blanks (py " ") german in
  strip_chars (py "; ") german.

Definition combined_entry (english_word : str) (german_parts : list str) : option entry :=
  if truthy german_parts then
    let german := combine_parts german_parts in
    if truthy english_word && truthy german && (1 <? len german)
    then Some (english_word, german)
    else None
  else None.

(** Pattern 1 and its two alternates. *)
Definition headword_match (line : str) : option match_obj :=
  match re_match U false word_pron_pattern line with
  | Some m => Some m
  | None =>
    match re_match U false word_pron_alt_pattern line with
    | Some m => Some m
    | None => re_match U false word_pron_broken_pattern line
    end
  end.

(** Pattern 7: several words with pronunciations on one line. *)
Definition multi_word (i : nat) (line : str) : result (option outcome) :=
  let multi_word_match := re_findall U false multi_word_pattern line in
  if truthy multi_word_match && (1 <=? len multi_word_match) then
    w <- item multi_word_match 0 ;;
    let first_word := strip U w in
    if 3 <=? len first_word then
      if (i + 1 <? List.length lines)%nat then
        l <- item lines (i + 1) ;;
        let next_line := strip U l in
        ok <- andm (is_likely_german U next_line) (notm (should_skip_line U next_line)) ;;
        if ok then Ok (Some ((i + 1)%nat, Some (first_word, next_line))) else Ok None
      else Ok None
    else Ok None
  else Ok None.

(** Pattern 3: pronunciation and translation on the headword's line. *)
Definition inline_translation (i : nat) (line : str) : result (option outcome) :=
  match re_match U false inline_pattern line with
  | Some inline_match =>
    let english_word := lstrip_chars marker_chars (strip U (group inline_match 1)) in
    let inline_german := strip U (group inline_match 2) in
    if truthy english_word && truthy inline_german && (2 <=? len english_word)
    then Ok (Some ((i + 1)%nat, Some (english_word, inline_german)))
    else Ok None
  | None => Ok None
  end.

(** Pattern 2, first half: the pronunciation line within the next three. *)
Fixpoint find_pron (ks : list nat) : result (option nat) :=
  match ks with
  | [] => Ok None
  | k :: ks' =>
    l <- item lines k ;;
    let next_line := strip U l in
    if matches U pron_line_pattern next_line || matches U pron_line_broken_pattern next_line
    then Ok (Some k) else
    skip <- orm (should_skip_line U next_line) (Ok (negb (truthy next_line))) ;;
    if skip then find_pron ks' else
    if matches U next_word_pattern next_line then Ok None else find_pron ks'
  end.

(** Pattern 2: translation fragments between headword and pronunciation. *)
Fixpoint collect_between (ks : list nat) (german_parts : list str) : result (list str) :=
  match ks with
  | [] => Ok german_parts
  | k :: ks' =>
    l <- item lines k ;;
    let between_line := strip U l in
    skip <- orm (Ok (negb (truthy between_line))) (should_skip_line U between_line) ;;
    if skip then collect_between ks' german_parts else
    sentence <- is_english_sentence between_line ;;
    if sentence then collect_between ks' german_parts else
    german <- is_likely_german U between_line ;;
    if german then
      let cleaned := clean_fragment between_line in
      if truthy cleaned && (1 <? len cleaned)
      then collect_between ks' (german_parts ++ [cleaned])
      else collect_between ks' german_parts
    else collect_between ks' german_parts
  end.

(** Pattern 2: headword on one line, pronunciation on a later one. *)
Definition split_lines (i : nat) (line : str) : result (option outcome) :=
  if (i + 1 <? List.length lines)%nat then
    pron <- find_pron (range (i + 1) (Nat.min (i + 4) (List.length lines))) ;;
    match pron with
    | Some pron_line_idx =>
      match re_match U false bare_word_pattern line with
      | Some word_match =>
        let english_word := lstrip_chars marker_chars_apos (strip U (group word_match 1)) in
        let english_word :=
          match re_search U false marker_pattern line with
          | Some marker_match => english_word ++ py " (" ++ group marker_match 1 ++ py ")"
          | None => english_word
          end in
        if (2 <=? len english_word) && (len english_word <? 45) then
          german_parts <- collect_between (range (i + 1) pron_line_idx) [] ;;
          let j := (pron_line_idx + 1)%nat in
          let max_lines := Nat.min (pron_line_idx + 12) (List.length lines) in
          german_parts <-
            collect (fun trans_line =>
                       matches U entry_start_pattern trans_line ||
                       matches U pron_only_pattern trans_line)
                    (max_lines - j) j german_parts ;;
          Ok (Some ((i + 2)%nat, combined_entry english_word german_parts))
        else Ok None
      | None => Ok None
      end
    | None => Ok None
    end
  else Ok None.

(** Pattern 5: the [while j < min(i + 5, len(lines))] loop; [n] is the
    number of turns left. *)
Fixpoint collect_reflexive (n j : nat) (german_parts : list str) : result (list str) :=
  match n with
  | O => Ok german_parts
  | S n' =>
    l <- item lines j ;;
    let next_line := strip U l in
    skip <- orm (Ok (negb (truthy next_line))) (should_skip_line U next_line) ;;
    if skip then collect_reflexive n' (S j) german_parts else
    german <- orm (is_likely_german U next_line) (is_continuation U next_line) ;;
    if german then
      let cleaned := clean_fragment next_line in
      if truthy cleaned && (1 <? len cleaned) then
        let german_parts := german_parts ++ [cleaned] in
        if negb (endswith cleaned (py "-")) then Ok german_parts
        else collect_reflexive n' (S j) german_parts
      else collect_reflexive n' (S j) german_parts
    else collect_reflexive n' (S j) german_parts
  end.

(** Pattern 5: a reflexive verb phrase without pronunciation. *)
Definition reflexive (i : nat) (line : str) : result (option outcome) :=
  match re_match U true reflexive_pattern line with
  | Some reflexive_match =>
    let english_word := strip U (group reflexive_match 1) in
    let j := (i + 1)%nat in
    german_parts <-
      collect_reflexive (Nat.min (i + 5) (List.length lines) - j) j [] ;;
    if truthy german_parts then
      let german := join (py "; ") german_parts in
      let german := strip_chars (py "; ") (re_sub U false blanks (py " ") german) in
      Ok (Some ((i + 1)%nat, Some (english_word, german)))
    else Ok None
  | None => Ok None
  end.

(** Pattern 6: is there a line starting with a bracket among the next four? *)
Fixpoint nearby_pron (ks : list nat) : result bool :=
  match ks with
  | [] => Ok false
  | k :: ks' =>
    l <- item lines k ;;
    if matches U (starts "[") (strip U l) then Ok true else nearby_pron ks'
  end.

(** Pattern 6: a single word followed by a clearly German line. *)
Definition simple_word (i : nat) (line : str) : result (option outcome) :=
  match re_match U false simple_word_pattern line with
  | Some simple_word_match =>
    let english_word := strip U (group simple_word_match 1) in
    if (4 <=? len english_word) && (len english_word <? 25) then
      has_nearby_pron <- nearby_pron (range (i + 1) (Nat.min (i + 5) (List.length lines))) ;;
      if negb has_nearby_pron && (i + 1 <? List.length lines)%nat then
        l <- item lines (i + 1) ;;
        let next_line := strip U l in
        let is_german_like :=
          existsb (fun c => mem_chr c next_line) german_indicators ||
          (match next_line with c :: _ => islower U c | [] => false end &&
           (mem_chr (chr ";") next_line || mem_chr (chr "/") next_line) &&
           (len next_line <? 30)) in
        if is_german_like && (len next_line <? 40) && (2 <? len next_line) then
          ok <- andm (notm (is_english_sentence next_line))
                     (notm (should_skip_line U next_line)) ;;
          if ok then Ok (Some ((i + 1)%nat, Some (english_word, next_line))) else Ok None
        else Ok None
      else Ok None
    else Ok None
  | None => Ok None
  end.

(** The fallback [if match:] block. *)
Definition fallback (i : nat) (match_ : match_obj) : result outcome :=
  let english_word := lstrip_chars marker_chars (strip U (group match_ 1)) in
  if len english_word <? 2 then Ok (S i, None) else
  let j := (i + 1)%nat in
  let max_lines := Nat.min (i + 10) (List.length lines) in
  german_parts <- collect (matches U entry_line_pattern) (max_lines - j) j [] ;;
  Ok (S i, combined_entry english_word german_parts).

(** Run a pattern that is only tried while [match] is unset. *)
Definition unless_matched (match_ : option match_obj) (a : result (option outcome))
    : result (option outcome) :=
  match match_ with Some _ => Ok None | None => a end.

(** One turn of [while i < len(lines)]. *)
Definition step (i : nat) : result outcome :=
  l <- item lines i ;;
  let line := strip U l in
  if negb (truthy line) then Ok (S i, None) else
  if existsb (fun pattern => is_some (re_match U true pattern line)) skip_patterns
  then Ok (S i, None) else
  let match_ := headword_match line in
  otherwise (unless_matched match_ (multi_word i line)) (
  otherwise (unless_matched match_ (inline_translation i line)) (
  let match_ :=
    match match_ with
    | Some m => Some m
    | None => re_match U false plural_pattern line
    end in
  otherwise (unless_matched match_ (split_lines i line)) (
  otherwise (unless_matched match_ (reflexive i line)) (
  otherwise (unless_matched match_ (simple_word i line)) (
  match match_ with
  | Some m => fallback i m
  | None => Ok (S i, None)
  end))))).

(** The loop itself; a turn moves the cursor forward, so [len(lines)] turns
    are always enough. *)
Fixpoint scan (fuel i : nat) (vocabulary : list entry) : result (list entry) :=
  if (i <? List.length lines)%nat then
    match fuel with
    | O => Ok vocabulary
    | S fuel' =>
      o <- step i ;;
      match o with
      | (i', Some e) => scan fuel' i' (vocabulary ++ [e])
      | (i', None) => scan fuel' i' vocabulary
      end
    end
  else Ok vocabulary.

End Scanner.

(** ** [parse_english_vocabulary]: filtering and deduplication *)

(** [\b(Nobody|Jack|I|We|They|He|She)\s+(was|were|am|is|are)\b] *)
Definition english_clause_pattern : regex := Seq [
  WordB;
  Grp 1 (Alts [lits "Nobody"; lits "Jack"; lits "I"; lits "We"; lits "They";
               lits "He"; lits "She"]);
  Plus space;
  Grp 2 (Alts [lits "was"; lits "were"; lits "am"; lits "is"; lits "are"]);
  WordB].

(** [[A-Z][a-z]+\s+[a-z]+\s+[a-z]+\.?$] *)
Definition english_tail_pattern : regex := Seq [
  One (PIn [A_Z]); Plus (PIn [a_z]); Plus space; Plus (PIn [a_z]); Plus space;
  Plus (PIn [a_z]); Opt (lit "."); Eos].

Definition german_words : list str := map py
  ["sein"; "haben"; "nicht"; "und"; "oder"; "mit"; "sich"]%string.

Definition german_compounds : list str := map py
  ["familie"; "schule"; "haus"; "zeit"; "wort"; "tag"; "buch"]%string.

Definition loanwords : list str := map py [
  "digital"; "cover"; "image"; "college"; "trainer"; "content"; "communication";
  "blond"; "argument"; "international"; "normal"; "social"; "personal"; "original";
  "formal"; "central"; "natural"; "total"; "final"; "global"; "local"; "legal";
  "vital"; "mental"; "dental"; "fatal"; "brutal"; "neutral"; "tribal"
]%string.

Section Filter.

Variable U : unicode_db.

Definition looks_like_german (text : str) : bool :=
  let text_lower := lower U text in
  if existsb (fun c => mem_chr c text) german_indicators then true
  else if existsb (fun w => mem_str w (split U text_lower)) german_words then true
  else false.

Definition is_bad_entry (eng ger : str) : result bool :=
  if looks_like_german eng then Ok true else
  long_capital <-
    andm (Ok (8 <? len eng))
         (andm (c0 <- item eng 0 ;; Ok (isupper U c0))
               (Ok (str_isalpha U eng && negb (mem_chr (chr " ") eng)))) ;;
  if long_capital && existsb (fun p => contains p (lower U eng)) german_compounds
  then Ok true else
  if str_eqb (strip U (lower U eng)) (strip U (lower U ger)) &&
     negb (mem_str (lower U eng) loanwords)
  then Ok true else
  sentence <-
    andm (c0 <- item eng 0 ;; Ok (isupper U c0))
         (Ok (mem_chr (chr ".") eng && (30 <? len eng))) ;;
  if sentence then Ok true else
  if is_some (re_search U false english_clause_pattern ger) then Ok true else
  if startswith ger (py "to ") && contains (py " - ") ger && (count_chr (chr "-") ger =? 1)
  then Ok true else
  if is_some (re_search U false english_tail_pattern ger) && (30 <? len ger)
  then Ok true else
  if str_eqb (lower U eng) (py "so") && contains (py "gew枚hnt") ger then Ok true else
  if mem_chr (chr "/") eng &&
     (contains (py "books") (lower U ger) || contains (py "comics") (lower U ger))
  then Ok true else
  Ok false.

(** [[(e, g) for e, g in vocabulary if not is_bad_entry(e, g)]] *)
Fixpoint drop_bad (vocabulary : list entry) : result (list entry) :=
  match vocabulary with
  | [] => Ok []
  | (e, g) :: rest =>
    bad <- is_bad_entry e g ;;
    kept <- drop_bad rest ;;
    Ok (if bad then kept else (e, g) :: kept)
  end.

(** The key under which a headword is remembered in [seen]. *)
Definition seen_key (eng : str) : str := strip U (lower U eng).

(** The deduplication loop: [seen] and [unique_vocab] after the entries. *)
Fixpoint dedup (vocabulary : list entry) (seen : list str) (unique_vocab : list entry)
    : list entry :=
  match vocabulary with
  | [] => unique_vocab
  | (eng, ger) :: rest =>
    let eng_lower := seen_key eng in
    if negb (mem_str eng_lower seen)
    then dedup rest (eng_lower :: seen) (unique_vocab ++ [(eng, ger)])
    else dedup rest seen unique_vocab
  end.

Definition parse_english_vocabulary (lines : list str) : result (list entry) :=
  vocabulary <- scan U lines (List.length lines) 0 [] ;;
  vocabulary <- drop_bad vocabulary ;;
  Ok (dedup vocabulary [] []).

End Filter.

(** ** Text files

    A file holds the text written to it.  Reading in text mode translates
    line ends ([\r\n] and [\r] become [\n]); iterating over the file yields
    its lines, each with its line end. *)

Fixpoint universal_newlines (s : str) : str :=
  match s with
  | [] => []
  | c :: s' =>
    if c =? CR then
      match s' with
      | d :: s'' => if d =? LF then LF :: universal_newlines s'' else LF :: universal_newlines s'
      | [] => [LF]
      end
    else c :: universal_newlines s'
  end.

Fixpoint lines_acc (s : str) (cur : str) : list str :=
  match s with
  | [] => match cur with [] => [] | _ => [rev cur] end
  | c :: s' =>
    if c =? LF then rev (c :: cur) :: lines_acc s' []
    else lines_acc s' (c :: cur)
  end.

(** [for line in f] on a file opened for reading. *)
Definition file_lines (content : str) : list str :=
  lines_acc (universal_newlines content) [].

(** [s.split(sep)] for a one-character separator. *)
Fixpoint split_on_acc (sep : N) (s : str) (cur : str) : list str :=
  match s with
  | [] => [rev cur]
  | c :: s' =>
    if c =? sep then rev cur :: split_on_acc sep s' []
    else split_on_acc sep s' (c :: cur)
  end.

Definition split_on (sep : N) (s : str) : list str := split_on_acc sep s [].

(** ** [create_anki_file] *)

Definition sentence_starters : list str := map py [
  "Ich "; "Wir "; "Du "; "Er "; "Sie "; "Es "; "Da ist"; "Auf geht";
  "Hast "; "Wartest "; "Was "; "Wie "; "Wann "; "Wo "
]%string.

Definition sentence_indicators : list str := map py [
  "haben wir"; "gibt kein"; "gibt es"; "ist dunkel"; "man sieht";
  "soir,"; "Souvent"; "Gestern"; "Internet"; "schreit"; "nicht allein";
  "Vampir"; "Das Gitter"; "gehen wir"; "interessant ist"; "Recht hast";
  "gegen moi"; "contre moi"; "qu'est"; "Qu'est"
]%string.

Definition pair_eqb (a b : str * str) : bool :=
  str_eqb (fst a) (fst b) && str_eqb (snd a) (snd b).

Section Writer.

Variable U : unicode_db.

(** The filtering applied to vocabulary that is not curated English: does
    the entry get skipped? *)
Definition aggressive_skip (front back : str) : bool :=
  if endswith back (py "-") || endswith back (py " eine") || endswith back (py " ein")
     || endswith back (py " im") then true else
  if contains (py "(inv.)") back || contains (py "invariable") back
     || contains (py "bedeutet") back then true else
  if existsb (fun s => startswith front s)
       [py "ein "; py "eine "; py "der "; py "die "; py "das "] then true else
  if 50 <? len back then true else
  if mem_chr (chr "?") back then true else
  if existsb (fun s => startswith back s) sentence_starters then true else
  if existsb (fun ind => contains (lower U ind) (lower U back)) sentence_indicators
  then true else
  if mem_str back [py "ang"; py "der"; py "die"; py "das"; py "ein"; py "eine"]
  then true else
  false.

Definition anki_row (front back : str) : str := front ++ [TAB] ++ back ++ [LF].

(** The [for front, back in vocabulary] loop: the text written so far, the
    count [written] and the set [seen]. *)
Fixpoint write_rows (is_curated_english : bool) (vocabulary : list entry)
    (seen : list (str * str)) (f : str) (written : N) : str * N :=
  match vocabulary with
  | [] => (f, written)
  | (front, back) :: rest =>
    let front := strip U front in
    let back := strip U back in
    let key := (lower U front, lower U back) in
    if existsb (pair_eqb key) seen then write_rows is_curated_english rest seen f written else
    let seen := key :: seen in
    if negb (truthy front) || negb (truthy back) || (len front <? 2) || (len back <? 2)
    then write_rows is_curated_english rest seen f written else
    if is_curated_english
    then write_rows is_curated_english rest seen (f ++ anki_row front back) (written + 1) else
    if aggressive_skip front back
    then write_rows is_curated_english rest seen f written
    else write_rows is_curated_english rest seen (f ++ anki_row front back) (written + 1)
  end.

Definition anki_header (html deck_name notetype : str) : str :=
  py "#separator:Tab" ++ [LF] ++
  py "#html:" ++ html ++ [LF] ++
  py "#deck:" ++ deck_name ++ [LF] ++
  py "#notetype:" ++ notetype ++ [LF].

(** The text left in [output_path] and the returned count. *)
Definition create_anki_file (vocabulary : list entry) (deck_name notetype language : str)
    : str * N :=
  let is_curated_english := str_eqb language (py "english") in
  write_rows is_curated_english vocabulary []
             (anki_header (py "false") deck_name notetype) 0.

(** ** [load_anki_file], on the text of the file *)

Fixpoint load_rows (file : list str) (entries : list entry) : list entry :=
  match file with
  | [] => entries
  | line :: rest =>
    let line := strip U line in
    if negb (truthy line) || startswith line (py "#") then load_rows rest entries else
    match split_on TAB line with
    | p0 :: p1 :: _ => load_rows rest (entries ++ [(p0, p1)])
    | _ => load_rows rest entries
    end
  end.

Definition load_anki_file (content : str) : list entry :=
  load_rows (file_lines content) [].

End Writer.

(** ** [validate_vocabulary]

    The translation service and [difflib.SequenceMatcher] are outside the
    program: [translate_text] is an oracle that answers from, and changes,
    the state of the outside world; [ratio t1 t2] stands for
    [SequenceMatcher(None, t1, t2).ratio()]; [format_2f x] for the text of
    [x] formatted with [.2f].  Scores are binary64 floats. *)

(** The dictionaries collected in [results]; a key the dictionary does not
    have reads as [None]. *)
Record report : Type := {
  foreign : str;
  ocr : str;
  translator : option str;
  similarity : option float;
  seq_similarity : option float;
  word_overlap : option float;
  in_raw_text : option bool;
  reason : option str
}.

Record results : Type := {
  valid : list report;
  suspicious : list report;
  errors : list report
}.

(** An [int] count as a [float]. *)
Definition float_of_len (A : Type) (l : list A) : float :=
  PrimFloat.of_uint63 (Uint63.of_Z (Z.of_nat (List.length l))).

(** The default of [--threshold]. *)
Definition default_threshold : float := 0.3%float.

Definition articles : list str := map py
  ["der "; "die "; "das "; "ein "; "eine "; "etw. "; "jdn. "; "jdm. "]%string.

Definition stop_words : list str := map py
  ["der"; "die"; "das"; "ein"; "eine"; "und"; "oder"; "zu"; "sich"; "etw."; "jdn.";
   "jdm."]%string.

(** [set(words)], as a list without repetition. *)
Fixpoint to_set (words : list str) : list str :=
  match words with
  | [] => []
  | w :: rest => if mem_str w rest then to_set rest else w :: to_set rest
  end.

Definition set_diff (a b : list str) : list str := filter (fun w => negb (mem_str w b)) a.
Definition set_inter (a b : list str) : list str := filter (fun w => mem_str w b) a.
Definition set_union (a b : list str) : list str := a ++ set_diff b a.

Section Validation.

Variable U : unicode_db.
Variable world : Type.
Variable translate_text : str -> str -> str -> str -> world -> option str * world.
Variable ratio : str -> str -> float.
Variable format_2f : float -> str.

Definition drop_article (t art : str) : str :=
  if startswith t art then skipn (List.length art) t else t.

Definition similarity_score (text1 text2 : str) : float :=
  if negb (truthy text1) || negb (truthy text2) then 0%float else
  let t1 := strip U (lower U text1) in
  let t2 := strip U (lower U text2) in
  let ts := fold_left (fun ts art => (drop_article (fst ts) art, drop_article (snd ts) art))
                      articles (t1, t2) in
  ratio (fst ts) (snd ts).

Definition word_overlap_score (text1 text2 : str) : float :=
  if negb (truthy text1) || negb (truthy text2) then 0%float else
  let words1 := to_set (split U (lower U text1)) in
  let words2 := to_set (split U (lower U text2)) in
  let words1 := set_diff words1 stop_words in
  let words2 := set_diff words2 stop_words in
  if negb (truthy words1) || negb (truthy words2) then 0%float else
  let intersection := set_inter words1 words2 in
  let union := set_union words1 words2 in
  if truthy union then (float_of_len intersection / float_of_len union)%float else 0%float.

(** The state of the validation loop: the result lists, the outside world,
    and the texts sent to the translator so far. *)
Record vstate : Type := {
  v_results : results;
  v_world : world;
  v_calls : list str
}.

Definition too_short (foreign ocr : str) : report := {|
  foreign := foreign; ocr := ocr; translator := None;
  similarity := Some 0%float; seq_similarity := None; word_overlap := None;
  in_raw_text := None; reason := Some (py "Entry too short")
|}.

Definition api_error (foreign ocr : str) : report := {|
  foreign := foreign; ocr := ocr; translator := None;
  similarity := None; seq_similarity := None; word_overlap := None;
  in_raw_text := None; reason := Some (py "Translation API error")
|}.

Definition combined (seq_similarity word_sim : float) : float :=
  (0.6 * seq_similarity + 0.4 * word_sim)%float.

Definition scored (foreign ocr translator_result raw_text : str) (reason : option str)
    : report :=
  let seq_similarity := similarity_score ocr translator_result in
  let word_sim := word_overlap_score ocr translator_result in
  {| foreign := foreign; ocr := ocr; translator := Some translator_result;
     similarity := Some (combined seq_similarity word_sim);
     seq_similarity := Some seq_similarity; word_overlap := Some word_sim;
     in_raw_text :=
       Some (if truthy raw_text then contains (lower U ocr) (lower U raw_text) else true);
     reason := reason |}.

Definition add_valid (r : report) (rs : results) : results :=
  {| valid := valid rs ++ [r]; suspicious := suspicious rs; errors := errors rs |}.
Definition add_suspicious (r : report) (rs : results) : results :=
  {| valid := valid rs; suspicious := suspicious rs ++ [r]; errors := errors rs |}.
Definition add_error (r : report) (rs : results) : results :=
  {| valid := valid rs; suspicious := suspicious rs; errors := errors rs ++ [r] |}.

(** One turn of [for i, (foreign, ocr_translation) in enumerate(entries, 1)]. *)
Definition validate_entry (from_lang to_lang access_token : str) (threshold : float)
    (raw_text : str) (e : entry) (st : vstate) : vstate :=
  let (foreign, ocr_translation) := e in
  if (len foreign <? 2) || (len ocr_translation <? 2) then
    {| v_results := add_suspicious (too_short foreign ocr_translation) (v_results st);
       v_world := v_world st; v_calls := v_calls st |}
  else
    let (translator_result, w) :=
      translate_text foreign from_lang to_lang access_token (v_world st) in
    let calls := v_calls st ++ [foreign] in
    match translator_result with
    | None =>
      {| v_results := add_error (api_error foreign ocr_translation) (v_results st);
         v_world := w; v_calls := calls |}
    | Some translator_result =>
      let seq_similarity := similarity_score ocr_translation translator_result in
      let word_sim := word_overlap_score ocr_translation translator_result in
      let combined_score := combined seq_similarity word_sim in
      if (threshold <=? combined_score)%float then
        {| v_results :=
             add_valid (scored foreign ocr_translation translator_result raw_text None)
                       (v_results st);
           v_world := w; v_calls := calls |}
      else
        {| v_results :=
             add_suspicious
               (scored foreign ocr_translation translator_result raw_text
                       (Some (py "Low similarity (" ++ format_2f combined_score ++ py ")")))
               (v_results st);
           v_world := w; v_calls := calls |}
    end.

Definition validate_loop (from_lang to_lang access_token : str) (threshold : float)
    (raw_text : str) (entries : list entry) (st : vstate) : vstate :=
  fold_left (fun st e => validate_entry from_lang to_lang access_token threshold raw_text e st)
            entries st.

Definition validate_vocabulary (entries : list entry) (from_lang to_lang access_token : str)
    (threshold : float) (raw_text : str) (w : world) : vstate :=
  validate_loop from_lang to_lang access_token threshold raw_text entries
    {| v_results := {| valid := []; suspicious := []; errors := [] |};
       v_world := w; v_calls := [] |}.

(** ** [create_enriched_anki_file] *)

Definition report_key (e : report) : str * str := (foreign e, ocr e).

(** [{(e["foreign"], e["ocr"]): e for e in reports}[key]]: the last report
    under the key, if there is one. *)
Definition pairs_get (reports : list report) (key : str * str) : option report :=
  fold_left (fun found e => if pair_eqb (report_key e) key then Some e else found)
            reports None.

(** The translation written for an entry. *)
Definition enriched_translation (rs : results) (foreign translation : str) : str :=
  let key := (foreign, translation) in
  if is_some (pairs_get (valid rs) key) then translation else
  match pairs_get (suspicious rs) key with
  | Some e =>
    match translator e with
    | Some azure_translation =>
      if truthy azure_translation &&
         negb (str_eqb (strip U (lower U azure_translation)) (strip U (lower U translation)))
      then translation ++ py " [Azure: " ++ azure_translation ++ py "]"
      else translation
    | None => translation
    end
  | None => translation
  end.

(** The [for foreign, translation in original_entries] loop: the text
    written, [count] and [enriched_count]. *)
Fixpoint enrich_rows (rs : results) (original_entries : list entry)
    (f : str) (count enriched_count : N) : str * (N * N) :=
  match original_entries with
  | [] => (f, (count, enriched_count))
  | (foreign, translation) :: rest =>
    let key := (foreign, translation) in
    if is_some (pairs_get (valid rs) key) then
      enrich_rows rs rest (f ++ anki_row foreign translation) (count + 1) enriched_count
    else
      match pairs_get (suspicious rs) key with
      | Some e =>
        let azure_translation := translator e in
        match azure_translation with
        | Some azure =>
          if truthy azure &&
             negb (str_eqb (strip U (lower U azure)) (strip U (lower U translation)))
          then
            let enriched := translation ++ py " [Azure: " ++ azure ++ py "]" in
            enrich_rows rs rest (f ++ anki_row foreign enriched) (count + 1)
                        (enriched_count + 1)
          else enrich_rows rs rest (f ++ anki_row foreign translation) (count + 1)
                           enriched_count
        | None =>
          enrich_rows rs rest (f ++ anki_row foreign translation) (count + 1) enriched_count
        end
      | None =>
        enrich_rows rs rest (f ++ anki_row foreign translation) (count + 1) enriched_count
      end
  end.

Definition create_enriched_anki_file (original_entries : list entry) (rs : results)
    (deck_name : str) : str * (N * N) :=
  enrich_rows rs original_entries
    (anki_header (py "true") deck_name (py "Einfach (beide Richtungen)")) 0 0.

End Validation.

(** ** [main] of [create_anki_from_images.py], up to the overwrite guard

    A path is the list of its parts, relative to the working directory; the
    file system maps paths to files and directories.  What follows the guard
    (text extraction, parsing, writing) is the continuation [pipeline]. *)

Definition path : Type := list str.

Inductive node : Type :=
| File (content : str)
| Dir.

Definition file_system : Type := list (path * node).

Fixpoint path_eqb (a b : path) : bool :=
  match a, b with
  | [], [] => true
  | x :: a', y :: b' => str_eqb x y && path_eqb a' b'
  | _, _ => false
  end.

Fixpoint lookup (t : file_system) (p : path) : option node :=
  match t with
  | [] => None
  | (q, n) :: t' => if path_eqb q p then Some n else lookup t' p
  end.

(** The working directory itself is always there. *)
Definition stat (t : file_system) (p : path) : option node :=
  match p with
  | [] => Some Dir
  | _ => lookup t p
  end.

Definition path_exists (t : file_system) (p : path) : bool := is_some (stat t p).
Definition is_file (t : file_system) (p : path) : bool :=
  match stat t p with Some (File _) => true | _ => false end.
Definition is_dir (t : file_system) (p : path) : bool :=
  match stat t p with Some Dir => true | _ => false end.

Definition unlink (t : file_system) (p : path) : file_system :=
  filter (fun e => negb (path_eqb (fst e) p)) t.

(** [p.parent] and [p.name]. *)
Definition parent (p : path) : path := removelast p.
Definition name (p : path) : str := last p [].

(** [p.mkdir(parents=True, exist_ok=True)] for [p = firstn n full]: an
    existing directory is left alone; otherwise the directory is made,
    after its parent if that is missing too; a file in the way is an
    error. *)
Fixpoint mkdir_upto (full : path) (n : nat) (t : file_system) : result file_system :=
  let p := firstn n full in
  match stat t p with
  | Some Dir => Ok t
  | Some (File _) => Raise OSError
  | None =>
    match n with
    | O => Ok t
    | S n' =>
      match stat t (firstn n' full) with
      | Some Dir => Ok ((p, Dir) :: t)
      | Some (File _) => Raise OSError
      | None => t' <- mkdir_upto full n' t ;; Ok ((p, Dir) :: t')
      end
    end
  end.

Definition mkdir_parents (t : file_system) (p : path) : result file_system :=
  mkdir_upto p (List.length p) t.

(** [parts[-2:]]. *)
Definition last_two (A : Type) (l : list A) : list A := skipn (List.length l - 2) l.

(** [p.iterdir()]: the paths directly inside [p]. *)
Definition iterdir (t : file_system) (p : path) : list path :=
  map fst (filter (fun e => truthy (fst e) && path_eqb (parent (fst e)) p) t).

Record arguments : Type := {
  arg_folder : path;
  arg_language : str;
  arg_deck : option str;
  arg_notetype : str;
  arg_output : option str;               (* the text given to [--output], if any *)
  arg_raw : bool;
  arg_force : bool;
  arg_reset : bool
}.

(** How a run ends. *)
Inductive ending : Type :=
| Exit (status : N)            (* [sys.exit(status)] *)
| Uncaught (e : exn).          (* an exception nobody caught *)

Record run : Type := {
  stdout : list str;
  files : file_system;
  ended : ending
}.

Section Main.

Variable path_str : path -> str.          (* [str(p)] *)
Variable capitalize : str -> str.         (* [s.capitalize()] *)
Variable Path : str -> path.              (* [Path(s)] *)

(** The part of [main] after the guard: it gets the arguments, the output
    and raw file paths, the deck name, what was printed so far and the file
    system. *)
Variable pipeline : arguments -> path -> path -> str -> list str -> file_system -> run.

(** [for file in output_folder.iterdir(): if file.is_file(): file.unlink(); print(...)] *)
Fixpoint reset_folder (found : list path) (out : list str) (t : file_system)
    : list str * file_system :=
  match found with
  | [] => (out, t)
  | file :: rest =>
    if is_file t file
    then reset_folder rest (out ++ [py "  Deleted: " ++ name file]) (unlink t file)
    else reset_folder rest out t
  end.

(** [Path(args.output)] if an output folder was given, [Path("./output")]
    otherwise. *)
Definition output_folder_of (args : arguments) : path :=
  match arg_output args with
  | Some o => if truthy o then Path o else [py "output"]
  | None => [py "output"]
  end.

(** ["_".join(folder_parts)] *)
Definition file_suffix_of (args : arguments) : str :=
  let folder_path := arg_folder args in
  let folder_parts :=
    if (2 <=? List.length folder_path)%nat then last_two folder_path
    else [name folder_path] in
  join (py "_") folder_parts.

Definition output_file_of (args : arguments) : path :=
  output_folder_of args ++ [py "anki_" ++ file_suffix_of args ++ py ".txt"].

Definition raw_file_of (args : arguments) : path :=
  output_folder_of args ++ [py "raw_" ++ file_suffix_of args ++ py ".txt"].

Definition deck_name_of (args : arguments) : str :=
  let folder_path := arg_folder args in
  let given :=
    match arg_deck args with
    | Some d => if truthy d then Some d else None
    | None => None
    end in
  match given with
  | Some d => d
  | None =>
    let parts :=
      if (2 <=? List.length folder_path)%nat then last_two folder_path else folder_path in
    join (py " ") (map capitalize parts)
  end.

Definition main (args : arguments) (t : file_system) : run :=
  let folder_path := arg_folder args in
  if negb (path_exists t folder_path) then
    {| stdout := [py "Error: Folder '" ++ path_str folder_path ++ py "' does not exist."];
       files := t; ended := Exit 1 |}
  else
  let deck_name := deck_name_of args in
  let output_folder := output_folder_of args in
  match mkdir_parents t output_folder with
  | Raise e => {| stdout := []; files := t; ended := Uncaught e |}
  | Ok t =>
    let output_file := output_file_of args in
    let raw_file := raw_file_of args in
    let (out, t) :=
      if arg_reset args then
        let (out, t) :=
          reset_folder (iterdir t output_folder)
            [[LF] ++ py "鈿狅笍  RESET MODE: Deleting all files in " ++ path_str output_folder] t in
        (out ++ [[]], t)
      else ([], t) in
    if negb (arg_force args) && negb (arg_reset args) && path_exists t output_file then
      {| stdout := out ++ [
           [LF] ++ py "Output file already exists: " ++ path_str output_file;
           py "Use --force to overwrite existing files.";
           py "Use --reset to delete all files and start fresh.";
           py "Skipping to prevent data loss."];
         files := t; ended := Exit 0 |}
    else pipeline args output_file raw_file deck_name out t
  end.

End Main.

(** ** A character database

    The simplest tables that meet [unicode_db]: outside ASCII nothing has
    case, nothing is a letter, a digit or white space.  It serves to run the
    definitions at concrete inputs; no theorem below depends on it. *)

Definition plain_lower_visible (s : str) :
  all_ascii s = false ->
  existsb (fun c => negb (is_ascii c) || (c =? 107)) s = true.
Proof.
  induction s as [|c s IH]; simpl; [discriminate|].
  destruct (is_ascii c); simpl; [|reflexivity].
  intros H. rewrite (IH H). apply orb_true_r.
Defined.

Definition plain_db : unicode_db := {|
  ext_lower := fun s => s;
  ext_isupper := fun _ => false;
  ext_islower := fun _ => false;
  ext_isalpha := fun _ => false;
  ext_isspace := fun _ => false;
  ext_isdecimal := fun _ => false;
  ext_isalnum := fun _ => false;
  ext_caseless_eq := N.eqb;
  ext_lower_visible := plain_lower_visible
|}.

(** ** Sample inputs

    Concrete arguments, files and collaborators at which the statements
    below are exercised. *)

Definition sample_args : arguments := {|
  arg_folder := [py "input"; py "english"; py "unit-1"];
  arg_language := py "english";
  arg_deck := None;
  arg_notetype := py "Einfach (beide Richtungen)";
  arg_output := None;
  arg_raw := false;
  arg_force := false;
  arg_reset := false
|}.

Definition sample_files : file_system := [
  ([py "input"], Dir);
  ([py "input"; py "english"], Dir);
  ([py "input"; py "english"; py "unit-1"], Dir);
  ([py "output"], Dir);
  ([py "output"; py "anki_english_unit-1.txt"], File (py "#separator:Tab"))
].

Definition sample_path_str (p : path) : str := join (py "/") p.

(** Reading a relative path written with slashes: the parts between the
    slashes, without the empty ones and the dots. *)
Definition sample_Path (s : str) : path :=
  filter (fun part => truthy part && negb (str_eqb part (py ".")))
         (split_on (chr "/") s).

(** A stand-in for the rest of [main] that overwrites the output file. *)
Definition sample_pipeline (args : arguments) (output_file raw_file : path)
    (deck_name : str) (out : list str) (t : file_system) : run :=
  {| stdout := out; files := (output_file, File deck_name) :: unlink t output_file;
     ended := Exit 0 |}.

(** A translator that always answers "Haus" and counts its calls, and an
    exact-match stand-in for the sequence ratio. *)
Definition sample_translate (text from_lang to_lang access_token : str) (w : nat)
    : option str * nat :=
  (Some (py "Haus"), S w).

Definition sample_ratio (t1 t2 : str) : float :=
  if str_eqb t1 t2 then 1%float else 0%float.

Definition sample_format (x : float) : str := py "0.00".

Definition sample_state : vstate nat := {|
  v_results := {| valid := []; suspicious := []; errors := [] |};
  v_world := 0%nat;
  v_calls := []
|}.

(** Does the first character of [text] satisfy [P]?  (False for the empty
    string.) *)
Definition first_is (P : N -> bool) (text : str) : bool :=
  match text with c :: _ => P c | [] => false end.

(** Four lines in which the headword "knife" comes twice, the second time
    capitalised. *)
Definition sample_lines : list str :=
  [py "knife [naif]"; py "Messer"; py "Knife [naif]"; py "Klinge"].

(** ** Well-formed fields of a flashcard row *)

(** No white space at either end. *)
Definition stripped (U : unicode_db) (s : str) : bool :=
  negb (first_is (isspace U) s) && negb (first_is (isspace U) (rev s)).

(** No line break in it. *)
Definition one_line (s : str) : bool := negb (mem_chr LF s) && negb (mem_chr CR s).

(** No tab and no line break in it. *)
Definition plain_field (s : str) : bool := negb (mem_chr TAB s) && one_line s.

(** An entry that a row of the file can hold as it is: both fields trimmed,
    at least two characters long and free of tabs and line breaks, and the
    headword not starting with the header marker. *)
Definition clean_entry (U : unicode_db) (e : entry) : bool :=
  stripped U (fst e) && stripped U (snd e) &&
  (2 <=? len (fst e)) && (2 <=? len (snd e)) &&
  plain_field (fst e) && plain_field (snd e) &&
  negb (startswith (fst e) (py "#")).

(** The key under which [create_anki_file] remembers an entry. *)
Definition row_key (U : unicode_db) (e : entry) : str * str :=
  (lower U (fst e), lower U (snd e)).

Definition sample_vocabulary : list entry :=
  [(py "to go", py "gehen"); (py "house", py "das Haus")].

Definition repeated_vocabulary : list entry :=
  [(py "to go", py "gehen"); (py "to go", py "gehen")].

(** ** Patterns that cannot match without white space

    [needs_space r]: every match of [r] consumes at least one character
    matched by [\s] (a sufficient syntactic test). *)

Definition is_space_pat (p : chr_pat) : bool :=
  match p with
  | PIn [CSpace] => true
  | _ => false
  end.

Fixpoint needs_space (r : regex) : bool :=
  match r with
  | One p => is_space_pat p
  | Rep _ (S _) p => is_space_pat p
  | Cat a b => needs_space a || needs_space b
  | Alt a b => needs_space a && needs_space b
  | Grp _ a => needs_space a
  | _ => false
  end.

(** The continuation [k] fails on every suffix of [rest]. *)
Definition fails_after (k : cont) (rest : str) : Prop :=
  forall pre rest', rest = pre ++ rest' ->
  forall pos prev caps, k rest' pos prev caps = None.

(** A text without white space. *)
Definition spaceless (U : unicode_db) (s : str) : Prop :=
  forall c, In c s -> isspace U c = false.

(** What the proofs use of a word of the allow-list, checked by running the
    definitions on each of them: plain lowercase ASCII letters without [k],
    no German function word, no compound fragment, not "so". *)
Definition plain_loanword (U : unicode_db) (w : str) : bool :=
  all_ascii w && negb (mem_chr 107 w) && forallb ascii_islower w && truthy w &&
  negb (existsb (fun g => mem_str g (split U w)) german_words) &&
  negb (existsb (fun p => contains p w) german_compounds) &&
  negb (str_eqb w (py "so")).

(** ** What [create_anki_file] keeps *)

(** [front.strip()], [back.strip()] of an entry. *)
Definition stripped_entry (U : unicode_db) (e : entry) : entry :=
  (strip U (fst e), strip U (snd e)).

(** The key of an entry in the set [seen] of [create_anki_file]. *)
Definition written_key (U : unicode_db) (e : entry) : str * str :=
  row_key U (stripped_entry U e).

(** [l1] is [l2] with some elements left out. *)
Inductive subsequence (A : Type) : list A -> list A -> Prop :=
| subsequence_nil : subsequence [] []
| subsequence_skip (x : A) (l1 l2 : list A) :
    subsequence l1 l2 -> subsequence l1 (x :: l2)
| subsequence_keep (x : A) (l1 l2 : list A) :
    subsequence l1 l2 -> subsequence (x :: l1) (x :: l2).

(** The text of the rows of a list of entries. *)
Definition rows_text (rows : list entry) : str :=
  List.concat (map (fun e => anki_row (fst e) (snd e)) rows).

Definition sample_french : list entry :=
  [(py "porter qc", py "etw. tragen"); (py "hier", py "Was ist los?");
   (py " Porter QC ", py "etw. tragen")].

(** ** Accounting of the validation pass *)

(** All reports of a result, and the entries long enough to be sent to the
    translator. *)
Definition all_reports (rs : results) : list report :=
  valid rs ++ suspicious rs ++ errors rs.

Definition long_enough (e : entry) : bool :=
  negb ((len (fst e) <? 2) || (len (snd e) <? 2)).

(** A validation result with one suspicious report, for [sample_vocabulary]. *)
Definition sample_results : results := {|
  valid := [];
  suspicious := [
    {| foreign := py "house"; ocr := py "das Haus"; translator := Some (py "Heim");
       similarity := Some 0.25%float; seq_similarity := Some 0.25%float;
       word_overlap := Some 0%float; in_raw_text := Some true;
       reason := Some (py "Low similarity (0.25)") |} ];
  errors := []
|}.

(** The result of the translator, when there is one, holds no tab and no
    line break. *)
Definition plain_answer (r : report) : bool :=
  match translator r with
  | Some azure => plain_field azure
  | None => true
  end.
(** Was the entry written with an alternative appended? *)
Definition alternative_added (U : unicode_db) (rs : results) (e : entry) : bool :=
  negb (str_eqb (enriched_translation U rs (fst e) (snd e)) (snd e)).

(** [sample_args] with [--reset -o .], and [sample_files] with a note kept
    in the working directory. *)
Definition sample_reset_args : arguments := {|
  arg_folder := [py "input"; py "english"; py "unit-1"];
  arg_language := py "english";
  arg_deck := None;
  arg_notetype := py "Einfach (beide Richtungen)";
  arg_output := Some (py ".");
  arg_raw := false;
  arg_force := false;
  arg_reset := true
|}.

Definition sample_cwd_files : file_system :=
  ([py "notes.txt"], File (py "to do")) :: sample_files.

(** Is [p] a path directly inside the folder [d]? *)
Definition directly_in (d p : path) : bool := truthy p && path_eqb (parent p) d.

(** ** [parse_vocabulary_lines]: the parser for French and German textbooks

    The patterns are matched with the matcher above.  That matcher compares
    the members of a character class as they are, which is what [re] does
    without flags; two patterns of this parser combine a letter class with
    [re.IGNORECASE], under which [re] folds the case of class members by the
    interpreter's Unicode tables.  Their matching is left to
    [re_match_ignorecase], which stands for [re.match(p, text, re.IGNORECASE)];
    everything proved below holds whatever it answers. *)

(** [脿芒盲茅猫锚毛茂卯么霉没眉莽艙忙脌脗脛脡脠脢脣脧脦脭脵脹脺脟艗脝], as the source file has it *)
Definition accents : list cls :=
  map CChr (py "脿芒盲茅猫锚毛茂卯么霉没眉莽艙忙脌脗脛脡脠脢脣脧脦脭脵脹脺脟艗脝").

(** [a-zA-Z] and the accented letters *)
Definition french_letter : list cls := a_z :: A_Z :: accents.

(** Page numbers and section headers; matched with [re.IGNORECASE]. *)
Definition line_skip_patterns : list regex := [
  Seq [Bos; Plus digit; Eos];                    (* ^[\d]+$ *)
  starts "cent-";
  exact "Vocabulaire"; starts "AUF EINEN BLICK"; starts "MON DICO PERSONNEL";
  exact "TIPP"; exact "TU TE RAPPELLES?"; exact "Vis-脿-vis"; starts "Atelier";
  Seq [Bos; lits "Unit茅 "; Plus digit];         (* ^Unit茅 \d+ *)
  exact "DE";
  Seq [Bos; lits "A "; Plus digit; Eos];         (* ^A \d+$ *)
  starts "englisch:"; starts "->";
  starts "Lerne "; starts "kannst du"; starts "der rechten ";
  starts "Westen Frankreichs"
].

(** [^[\*\d\s]*([L][L\s\'\-\(\)\.\/\+\,]+?)\s*\[([^\]]+)\]$], [L] standing for
    the letters *)
Definition foreign_pron_pattern : regex := Seq [
  Bos; Star (PIn [cc "*"; CDigit; CSpace]);
  Grp 1 (Cat (One (PIn french_letter))
             (PlusLazy (PIn (french_letter ++
                [CSpace; cc "'"; cc "-"; cc "("; cc ")"; cc "."; cc "/"; cc "+"; cc ","]))));
  Star space; lit "["; Grp 2 (Plus not_rbracket); lit "]"; Eos].

(** [^((?:un|une|le|la|les|l\'|des|au|aux|du)\s+[L\'\-\s]+)$] *)
Definition french_noun_pattern : regex := Seq [
  Bos;
  Grp 1 (Seq [
    Alts [lits "un"; lits "une"; lits "le"; lits "la"; lits "les"; lits "l'";
          lits "des"; lits "au"; lits "aux"; lits "du"];
    Plus space;
    Plus (PIn (french_letter ++ [cc "'"; cc "-"; CSpace]))]);
  Eos].

(** [^([L\'\-\s]+(?:qc|qn))$] *)
Definition verb_object_pattern : regex := Seq [
  Bos;
  Grp 1 (Seq [Plus (PIn (french_letter ++ [cc "'"; cc "-"; CSpace]));
              Alt (lits "qc") (lits "qn")]);
  Eos].

(** [^((?:pendant|avoir|锚tre|il n\'y a|ne pas|se|faire)\s+[L\'\-\s]+)$] *)
Definition phrase_pattern : regex := Seq [
  Bos;
  Grp 1 (Seq [
    Alts [lits "pendant"; lits "avoir"; lits "锚tre"; lits "il n'y a"; lits "ne pas";
          lits "se"; lits "faire"];
    Plus space;
    Plus (PIn (french_letter ++ [cc "'"; cc "-"; CSpace]))]);
  Eos].

(** [^[L\'\-]+$] and [.*(?:er|ir|re|oir)$] *)
Definition plain_word_pattern : regex := Seq [
  Bos; Plus (PIn (french_letter ++ [cc "'"; cc "-"])); Eos].
Definition infinitive_pattern : regex := Seq [
  Star (PIn [CAny]); Alts [lits "er"; lits "ir"; lits "re"; lits "oir"]; Eos].

(** [^([L\'\-]+/[L\'\-]+)$] *)
Definition adjective_pattern : regex := Seq [
  Bos;
  Grp 1 (Seq [Plus (PIn (french_letter ++ [cc "'"; cc "-"])); lit "/";
              Plus (PIn (french_letter ++ [cc "'"; cc "-"]))]);
  Eos].

(** [^[a-z]+$] *)
Definition lowercase_word_pattern : regex := Seq [Bos; Plus (PIn [a_z]); Eos].

(** [any(c in text for c in '盲枚眉脽')] *)
Definition has_umlaut (text : str) : bool :=
  existsb (fun c => mem_chr c text) (py "盲枚眉脽").

(** [text.startswith((p1, p2, ...))] *)
Definition startswith_any (text : str) (prefixes : list str) : bool :=
  existsb (fun p => startswith text p) prefixes.

Section Lines.

Variable U : unicode_db.
Variable re_match_ignorecase : regex -> str -> option match_obj.
Variable lines : list str.
Variable source_language : str.

(** Pattern 1: the [for j in range(i+1, min(i+4, len(lines)))] loop that
    looks for the translation; the entry it appends, if any. *)
Fixpoint find_translation (foreign_word : str) (js : list nat) : result (option entry) :=
  match js with
  | [] => Ok None
  | j :: js' =>
    l <- item lines j ;;
    let next_line := strip U l in
    if negb (truthy next_line) then find_translation foreign_word js' else
    if startswith_any next_line [py "Fr."; py "Lat."; py "!"; py "->"; py "芦>"]
    then find_translation foreign_word js' else
    if startswith_any next_line
         (map py ["Il "; "Elle "; "Je "; "Tu "; "On "; "Nous "; "Vous "; "Les "; "Le ";
                  "La "; "C'"; "Pour "]%string)
    then find_translation foreign_word js' else
    if mem_chr (chr "[") next_line then Ok None else
    german <-
      orm (Ok (startswith_any next_line
                 [py "der "; py "die "; py "das "; py "ein "; py "eine "; py "etw.";
                  py "jdn."; py "jdm."; py "sich "]))
          (orm (Ok (has_umlaut next_line))
               (andm (c0 <- item next_line 0 ;; Ok (isupper U c0))
                     (Ok ((len next_line <? 80) &&
                          negb (existsb (fun c => mem_chr c next_line)
                                        (py "脿芒茅猫锚毛茂卯么霉没莽艙忙")))))) ;;
    if german then
      let translation := strip U (rstrip_chars (py ";") next_line) in
      if truthy foreign_word && truthy translation && (1 <? len translation)
      then Ok (Some (foreign_word, translation))
      else Ok None
    else find_translation foreign_word js'
  end.

(** The shape shared by patterns 2 to 6: if the next line is accepted as the
    translation, append the pair and move on by two lines, otherwise by one. *)
Definition next_line_entry (i : nat) (headword : str) (accept : str -> bool)
    : result outcome :=
  if (i + 1 <? List.length lines)%nat then
    l <- item lines (i + 1) ;;
    let next_line := strip U l in
    if accept next_line then Ok ((i + 2)%nat, Some (headword, next_line))
    else Ok (S i, None)
  else Ok (S i, None).

(** One turn of [while i < len(lines)]. *)
Definition lines_step (i : nat) : result outcome :=
  l <- item lines i ;;
  let line := strip U l in
  if negb (truthy line) then Ok (S i, None) else
  if existsb (fun pattern => is_some (re_match U true pattern line)) line_skip_patterns
  then Ok (S i, None) else
  match re_match U false foreign_pron_pattern line with
  | Some match_ =>
    let foreign_word := lstrip_chars (py "*0123456789 ") (strip U (group match_ 1)) in
    found <- find_translation foreign_word
               (range (i + 1) (Nat.min (i + 4) (List.length lines))) ;;
    Ok (S i, found)
  | None =>
  let french_match := re_match_ignorecase french_noun_pattern line in
  match (if str_eqb source_language (py "french") then french_match else None) with
  | Some french_match =>
    next_line_entry i (strip U (group french_match 1))
      (fun next_line =>
         startswith_any next_line
           [py "ein"; py "eine"; py "der"; py "die"; py "das"; py "am "]
         || has_umlaut next_line)
  | None =>
  match re_match U false verb_object_pattern line with
  | Some verb_match =>
    next_line_entry i (strip U (group verb_match 1))
      (fun next_line =>
         startswith_any next_line [py "etw."; py "jdn."; py "jdm."]
         || has_umlaut next_line)
  | None =>
  match re_match_ignorecase phrase_pattern line with
  | Some phrase_match =>
    next_line_entry i (strip U (group phrase_match 1))
      (fun next_line =>
         has_umlaut next_line
         || startswith_any next_line
              [py "w盲hrend"; py "Lust"; py "schlecht"; py "etw."; py "jdn."; py "jdm."])
  | None =>
  if matches U plain_word_pattern line then
    if matches U infinitive_pattern (lower U line)
       || mem_str (lower U line) [py "hier"; py "souvent"]
    then
      next_line_entry i line
        (fun next_line =>
           has_umlaut next_line
           || existsb (fun x => endswith next_line x)
                      [py "en"; py "ung"; py "heit"; py "keit"])
    else Ok (S i, None)
  else
  match re_match U false adjective_pattern line with
  | Some adj_match =>
    next_line_entry i (strip U (group adj_match 1))
      (fun next_line =>
         has_umlaut next_line || matches U lowercase_word_pattern next_line)
  | None => Ok (S i, None)
  end end end end end.

(** The loop; the bound on the number of turns is [len(lines)]. *)
Fixpoint scan_lines (fuel i : nat) (vocabulary : list entry) : result (list entry) :=
  if (i <? List.length lines)%nat then
    match fuel with
    | O => Ok vocabulary
    | S fuel' =>
      o <- lines_step i ;;
      match o with
      | (i', Some e) => scan_lines fuel' i' (vocabulary ++ [e])
      | (i', None) => scan_lines fuel' i' vocabulary
      end
    end
  else Ok vocabulary.

Definition parse_vocabulary_lines : result (list entry) :=
  if str_eqb source_language (py "english") then parse_english_vocabulary U lines
  else scan_lines (List.length lines) 0 [].

End Lines.

(** A French word list of three lines. *)
Definition sample_french_lines : list str :=
  [py "porter qc"; py "etw. tragen"; py "Vocabulaire"].

(** ** [main] of [validate_vocabulary.py]: where the final file goes *)

(** [s.replace(old, new)] for a non-empty [old]: the occurrences of [old] are
    replaced from left to right without overlap; [skip] counts the
    characters of an occurrence still to be passed over. *)
Fixpoint replace_from (old new s : str) (skip : nat) : str :=
  match s with
  | [] => []
  | c :: s' =>
    match skip with
    | S k => replace_from old new s' k
    | O =>
      if startswith s old then new ++ replace_from old new s' (List.length old - 1)
      else c :: replace_from old new s' 0
    end
  end.

Definition replace (old new s : str) : str := replace_from old new s 0.

(** [output_folder]: [Path(args.output)] if an output folder was given,
    [anki_file.parent] otherwise. *)
Definition report_folder_of (Path : str -> path) (anki_file : path) (output : option str)
    : path :=
  match output with
  | Some o => if truthy o then Path o else parent anki_file
  | None => parent anki_file
  end.

(** [final_file = output_folder / anki_file.name.replace("anki_", "final_")] *)
Definition final_file_of (Path : str -> path) (anki_file : path) (output : option str)
    : path :=
  report_folder_of Path anki_file output
    ++ [replace (py "anki_") (py "final_") (name anki_file)].

(** ** [extract_all_images]

    The folder is given by the names [os.listdir] returns, in whatever order
    the system lists them.  Reading one image ([extract_text_from_image]) is
    the oracle [read_image]: it answers with the lines of text found, or
    fails, and may change the outside world.  What is printed is left out. *)

Definition image_extensions : list str :=
  map py [".jpg"; ".jpeg"; ".png"; ".bmp"; ".gif"]%string.

(** [a <= b] on strings: by code points, left to right. *)
Fixpoint str_leb (a b : str) : bool :=
  match a, b with
  | [], _ => true
  | _ :: _, [] => false
  | x :: a', y :: b' =>
    if x <? y then true else if y <? x then false else str_leb a' b'
  end.

(** [l.sort()] on a list of strings. *)
Fixpoint insert_sorted (x : str) (l : list str) : list str :=
  match l with
  | [] => [x]
  | y :: l' => if str_leb x y then x :: l else y :: insert_sorted x l'
  end.

Fixpoint sort (l : list str) : list str :=
  match l with
  | [] => []
  | x :: l' => insert_sorted x (sort l')
  end.

(** [x] is below every element of [l]. *)
Definition below (x : str) (l : list str) : Prop :=
  forall y, In y l -> str_leb x y = true.

Inductive ascending : list str -> Prop :=
| ascending_nil : ascending []
| ascending_cons (x : str) (l : list str) :
    below x l -> ascending l -> ascending (x :: l).

Section Extraction.

Variable U : unicode_db.
Variable world : Type.
Variable read_image : str -> str -> world -> option (list str) * world.

(** [f.lower().endswith(image_extensions)] *)
Definition is_image (f : str) : bool :=
  existsb (fun ext => endswith (lower U f) ext) image_extensions.

(** The [for i, image_name in enumerate(images, 1)] loop: an image that
    cannot be read adds nothing. *)
Fixpoint read_images (folder_path : str) (images : list str) (all_text : list str)
    (w : world) : list str * world :=
  match images with
  | [] => (all_text, w)
  | image_name :: rest =>
    let (text_lines, w) := read_image folder_path image_name w in
    match text_lines with
    | Some text_lines => read_images folder_path rest (all_text ++ text_lines) w
    | None => read_images folder_path rest all_text w
    end
  end.

(** The text of all images of the folder, or [None] for [sys.exit(1)]. *)
Definition extract_all_images (folder_path : str) (listdir : list str) (w : world)
    : option (list str) * world :=
  let images := sort (filter is_image listdir) in
  if negb (truthy images) then (None, w) else
  let (all_text, w) := read_images folder_path images [] w in
  (Some all_text, w).

End Extraction.

(** An image reader that answers with the name of the image and counts. *)
Definition sample_read_image (folder_path image_name : str) (w : nat)
    : option (list str) * nat :=
  (Some [image_name], S w).

(** ** Inputs at which two statements of the specification fail *)

(** Four lines in which "happy" is first read with itself as translation
    and then, capitalised, with a German one. *)
Definition filtered_lines : list str :=
  [py "happy [hapi]"; py "happy"; py "Happy [hapi]"; py "Freude"].

(** A suspicious report whose translator result is the OCR translation
    followed by a blank. *)
Definition padded_report : report := {|
  foreign := py "house"; ocr := py "Haus"; translator := Some (py "Haus ");
  similarity := Some 0.25%float; seq_similarity := Some 0.25%float;
  word_overlap := Some 0%float; in_raw_text := Some true;
  reason := Some (py "Low similarity (0.25)")
|}.

Definition padded_results : results :=
  {| valid := []; suspicious := [padded_report]; errors := [] |}.

(** Two entries whose translation repeats the headword: a loanword and an
    ordinary word. *)
Definition identical_vocabulary : list entry :=
  [(py "Digital", py "digital"); (py "happy", py "happy")].

(** * Properties *)

(** ** The scenarios of the English parser *)

(** C6: for the three lines "to compromise", "['komprema?z]",
    "Kompromisse eingehen" (headword and bracketed annotation on separate
    lines) the parser returns exactly the one entry
    ("to compromise", "Kompromisse eingehen"). *)
Theorem split_annotation_scenario (U : unicode_db) :
  parse_english_vocabulary U
    [py "to compromise"; py "['komprema?z]"; py "Kompromisse eingehen"]
  = Ok [(py "to compromise", py "Kompromisse eingehen")].
Proof. vm_compute. reflexivity. Qed.

(** C1: for the two lines "misunderstood", "missverstanden" the parser
    returns no entry at all, where the claim expects the one entry
    ("misunderstood", "missverstanden"): the single-word pattern asks the
    next line for an umlaut, or for a semicolon or slash, and
    "missverstanden" has neither. *)
Theorem bare_word_scenario (U : unicode_db) :
  parse_english_vocabulary U [py "misunderstood"; py "missverstanden"] = Ok [].
Proof. vm_compute. reflexivity. Qed.

(** C5: the reflexive-verb pattern appends its entry without the length
    check the other patterns make: for the lines "to push oneself", "x; ;"
    the parser returns the entry ("to push oneself", "x"), whose
    translation has one character. *)
Theorem short_translation_escapes (U : unicode_db) :
  parse_english_vocabulary U [py "to push oneself"; py "x; ;"]
  = Ok [(py "to push oneself", py "x")]
  /\ len (py "x") = 1.
Proof. split; vm_compute; reflexivity. Qed.

(** ** The overwrite guard of [main] *)

Lemma mkdir_existing (t : file_system) (p : path) :
  is_dir t p = true -> mkdir_parents t p = Ok t.
Proof.
  unfold is_dir, mkdir_parents. intros H.
  destruct p as [|x p]; [reflexivity|].
  simpl in *. rewrite firstn_all.
  destruct (lookup t (x :: p)) as [[c|]|]; try discriminate. reflexivity.
Qed.




(** ** The validation pass *)



(** ** Basic facts about strings *)

Lemma str_eqb_eq (a b : str) : str_eqb a b = true <-> a = b.
Proof.
  revert b. induction a as [|x a IH]; intros [|y b]; simpl; split;
    try discriminate; try reflexivity.
  - intros H. apply andb_true_iff in H. destruct H as [H1 H2].
    apply N.eqb_eq in H1. apply IH in H2. congruence.
  - intros H. injection H as -> ->. rewrite N.eqb_refl. simpl. apply IH. reflexivity.
Qed.

Lemma str_eqb_refl (a : str) : str_eqb a a = true.
Proof. apply str_eqb_eq. reflexivity. Qed.

Lemma str_eqb_neq (a b : str) : str_eqb a b = false <-> a <> b.
Proof.
  split.
  - intros H E. apply str_eqb_eq in E. congruence.
  - intros H. destruct (str_eqb a b) eqn:E; [|reflexivity].
    apply str_eqb_eq in E. contradiction.
Qed.

Lemma pair_eqb_eq (a b : str * str) : pair_eqb a b = true <-> a = b.
Proof.
  destruct a as [a1 a2], b as [b1 b2]. unfold pair_eqb. simpl.
  rewrite andb_true_iff, !str_eqb_eq. split.
  - intros [-> ->]. reflexivity.
  - intros H. injection H as -> ->. split; reflexivity.
Qed.

Lemma mem_str_In (x : str) (l : list str) : mem_str x l = true <-> In x l.
Proof.
  unfold mem_str. rewrite existsb_exists. split.
  - intros (y & Hy & E). apply str_eqb_eq in E. subst. exact Hy.
  - intros H. exists x. split; [exact H | apply str_eqb_refl].
Qed.

(** ** The enriched flashcard file *)

Lemma pairs_get_acc (reports : list report) (key : str * str) (acc : option report) :
  forall r,
  fold_left (fun found e => if pair_eqb (report_key e) key then Some e else found)
            reports acc = Some r ->
  (In r reports /\ report_key r = key) \/ acc = Some r.
Proof.
  revert acc. induction reports as [|e reports IH]; simpl; intros acc r H.
  - right. exact H.
  - apply IH in H. destruct H as [[H1 H2]|H].
    + left. split; [right; exact H1 | exact H2].
    + destruct (pair_eqb (report_key e) key) eqn:E.
      * injection H as <-. left. split; [left; reflexivity | apply pair_eqb_eq; exact E].
      * right. exact H.
Qed.

Lemma pairs_get_some (reports : list report) (key : str * str) (r : report) :
  pairs_get reports key = Some r -> In r reports /\ report_key r = key.
Proof.
  intros H. apply pairs_get_acc in H. destruct H as [H|H]; [exact H | discriminate].
Qed.

Lemma pairs_get_found_acc (reports : list report) (key : str * str) (acc : option report) :
  is_some acc = true \/ (exists r, In r reports /\ report_key r = key) ->
  is_some (fold_left (fun found e => if pair_eqb (report_key e) key then Some e else found)
                     reports acc) = true.
Proof.
  revert acc. induction reports as [|e reports IH]; simpl; intros acc H.
  - destruct H as [H|(r & [] & _)]. exact H.
  - apply IH. destruct (pair_eqb (report_key e) key) eqn:E; [left; reflexivity|].
    destruct H as [H|(r & [<-|Hr] & Hk)].
    + left. exact H.
    + apply pair_eqb_eq in Hk. congruence.
    + right. exists r. split; assumption.
Qed.

Lemma pairs_get_found (reports : list report) (key : str * str) :
  (exists r, In r reports /\ report_key r = key) ->
  is_some (pairs_get reports key) = true.
Proof. intros H. apply pairs_get_found_acc. right. exact H. Qed.

Lemma enrich_rows_text (U : unicode_db) (rs : results) (original_entries : list entry) :
  forall f count enriched_count,
  fst (enrich_rows U rs original_entries f count enriched_count)
  = f ++ List.concat (map (fun e => anki_row (fst e)
                                 (enriched_translation U rs (fst e) (snd e)))
                     original_entries).
Proof.
  induction original_entries as [|[foreign translation] rest IH];
    intros f count enriched_count; simpl.
  - rewrite app_nil_r. reflexivity.
  - unfold enriched_translation. simpl.
    destruct (is_some (pairs_get (valid rs) (foreign, translation)));
      [rewrite IH, <- app_assoc; reflexivity|].
    destruct (pairs_get (suspicious rs) (foreign, translation)) as [e|];
      [|rewrite IH, <- app_assoc; reflexivity].
    destruct (translator e) as [azure|]; [|rewrite IH, <- app_assoc; reflexivity].
    destruct (truthy azure && _); rewrite IH, <- app_assoc; reflexivity.
Qed.

Lemma pairs_get_skip (reports : list report) (key : str * str) (acc : option report) :
  (forall r, In r reports -> report_key r <> key) ->
  fold_left (fun found e => if pair_eqb (report_key e) key then Some e else found)
            reports acc = acc.
Proof.
  revert acc. induction reports as [|e reports IH]; intros acc H; [reflexivity|].
  cbn [fold_left]. destruct (pair_eqb (report_key e) key) eqn:E.
  - apply pair_eqb_eq in E. exfalso. exact (H e (or_introl eq_refl) E).
  - apply IH. intros r Hr. apply H. right. exact Hr.
Qed.

(** The dictionary built from the reports answers with the last report
    under the key. *)
Lemma pairs_get_last (l1 l2 : list report) (r : report) (key : str * str) :
  report_key r = key ->
  (forall r', In r' l2 -> report_key r' <> key) ->
  pairs_get (l1 ++ r :: l2) key = Some r.
Proof.
  intros Hk Hl. unfold pairs_get. rewrite fold_left_app. cbn [fold_left].
  rewrite (proj2 (pair_eqb_eq (report_key r) key) Hk).
  apply pairs_get_skip. exact Hl.
Qed.

Lemma pairs_get_absent (reports : list report) (key : str * str) :
  (forall r, In r reports -> report_key r <> key) ->
  pairs_get reports key = None.
Proof. intros H. unfold pairs_get. apply pairs_get_skip. exact H. Qed.

(** C10, as the code has it: the enriched file is the header followed by
    exactly one row headword TAB translation LF per input entry, in input
    order, with the headword as given.  The translation written is the
    original followed by " [Azure: <translator result>]" exactly when the
    entry is not among the valid reports and its report among the suspicious
    ones (the last one, if there are several) has a translator result that
    is not empty and that differs from the original translation after
    [lower()] and [strip()] of both; in every other case (a valid entry, an
    entry without a suspicious report, a missing or empty translator result,
    or one that is equal after [lower()] and [strip()]) the translation is
    written unchanged. *)
Theorem enriched_file_rows
    (U : unicode_db) (original_entries : list entry) (rs : results) (deck_name : str) :
  fst (create_enriched_anki_file U original_entries rs deck_name)
  = anki_header (py "true") deck_name (py "Einfach (beide Richtungen)")
    ++ List.concat (map (fun e => fst e ++ [TAB]
                             ++ enriched_translation U rs (fst e) (snd e) ++ [LF])
                   original_entries)
  /\
  forall headword translation,
    let written := enriched_translation U rs headword translation in
    (written = translation \/
     exists r azure,
       In r (suspicious rs) /\ report_key r = (headword, translation) /\
       translator r = Some azure /\ azure <> [] /\
       strip U (lower U azure) <> strip U (lower U translation) /\
       written = translation ++ py " [Azure: " ++ azure ++ py "]") /\
    ((exists r, In r (valid rs) /\ report_key r = (headword, translation)) ->
       written = translation) /\
    ((forall r, In r (suspicious rs) -> report_key r <> (headword, translation)) ->
       written = translation) /\
    (forall l1 r l2 azure,
       (forall v, In v (valid rs) -> report_key v <> (headword, translation)) ->
       suspicious rs = l1 ++ r :: l2 ->
       report_key r = (headword, translation) ->
       (forall r', In r' l2 -> report_key r' <> (headword, translation)) ->
       translator r = Some azure ->
       azure <> [] ->
       strip U (lower U azure) <> strip U (lower U translation) ->
       written = translation ++ py " [Azure: " ++ azure ++ py "]") /\
    (forall l1 r l2,
       suspicious rs = l1 ++ r :: l2 ->
       report_key r = (headword, translation) ->
       (forall r', In r' l2 -> report_key r' <> (headword, translation)) ->
       (translator r = None \/ translator r = Some [] \/
        exists azure, translator r = Some azure /\
                      strip U (lower U azure) = strip U (lower U translation)) ->
       written = translation).
Proof.
  split.
  - unfold create_enriched_anki_file. rewrite enrich_rows_text. reflexivity.
  - intros headword translation written. subst written. unfold enriched_translation.
    split; [|split; [|split; [|split]]].
    + destruct (is_some (pairs_get (valid rs) (headword, translation)));
        [left; reflexivity|].
      destruct (pairs_get (suspicious rs) (headword, translation)) as [e|] eqn:Hs;
        [|left; reflexivity].
      destruct (translator e) as [azure|] eqn:Ht; [|left; reflexivity].
      destruct (truthy azure) eqn:Hn; simpl; [|left; reflexivity].
      destruct (str_eqb _ _) eqn:Hd; simpl; [left; reflexivity|].
      right. exists e, azure. apply pairs_get_some in Hs. destruct Hs as [Hin Hk].
      repeat split; try assumption.
      * intros ->. discriminate.
      * apply str_eqb_neq. exact Hd.
    + intros H. rewrite (pairs_get_found _ H). reflexivity.
    + intros H.
      destruct (is_some (pairs_get (valid rs) (headword, translation))); [reflexivity|].
      destruct (pairs_get (suspicious rs) (headword, translation)) as [e|] eqn:Hs;
        [|reflexivity].
      apply pairs_get_some in Hs. destruct Hs as [Hin Hk].
      exfalso. exact (H e Hin Hk).
    + intros l1 r l2 azure Hv Hs Hk Hl Ht Hn Hd.
      rewrite (pairs_get_absent _ Hv). cbn [is_some].
      rewrite Hs, (pairs_get_last l1 l2 Hk Hl), Ht.
      destruct azure as [|c azure]; [congruence|]. cbn [truthy andb].
      apply str_eqb_neq in Hd. rewrite Hd. reflexivity.
    + intros l1 r l2 Hs Hk Hl Ht.
      destruct (is_some (pairs_get (valid rs) (headword, translation))); [reflexivity|].
      rewrite Hs, (pairs_get_last l1 l2 Hk Hl).
      destruct Ht as [Ht|[Ht|(azure & Ht & He)]]; rewrite Ht; try reflexivity.
      rewrite He, str_eqb_refl, andb_false_r. reflexivity.
Qed.

(** The claim as stated fails: a suspicious entry whose translator result
    is not null and differs from the original translation when case is
    ignored (it has a blank at its end) is written unchanged, because the
    comparison strips both texts. *)
Lemma padded_alternative_ignored :
  In padded_report (suspicious padded_results) /\
  report_key padded_report = (py "house", py "Haus") /\
  translator padded_report = Some (py "Haus ") /\
  lower plain_db (py "Haus ") <> lower plain_db (py "Haus") /\
  enriched_translation plain_db padded_results (py "house") (py "Haus") = py "Haus" /\
  fst (create_enriched_anki_file plain_db [(py "house", py "Haus")] padded_results
         (py "English Unit 1"))
  = anki_header (py "true") (py "English Unit 1") (py "Einfach (beide Richtungen)")
    ++ anki_row (py "house") (py "Haus").
Proof.
  split; [left; reflexivity|]. split; [reflexivity|]. split; [reflexivity|].
  split; [vm_compute; discriminate|]. split; vm_compute; reflexivity.
Qed.

(** ** The line predicates *)

Lemma should_skip_line_total (U : unicode_db) (text : str) :
  exists b, should_skip_line U text = Ok b.
Proof.
  unfold should_skip_line.
  destruct (negb (truthy text)); [eauto|].
  destruct (existsb _ skip_substrings); [eauto|].
  destruct (existsb _ skip_line_patterns); eauto.
Qed.

Lemma is_english_sentence_total (text : str) :
  exists b, is_english_sentence text = Ok b.
Proof. unfold is_english_sentence. destruct (negb (truthy text)); eauto. Qed.

Lemma is_likely_german_total (U : unicode_db) (text : str) :
  exists b, is_likely_german U text = Ok b.
Proof.
  unfold is_likely_german.
  destruct text as [|c text]; [simpl; eauto|].
  destruct (negb (truthy (c :: text)) || (len (c :: text) <? 2)); [eauto|].
  destruct (should_skip_line_total U (c :: text)) as [skip ->]. unfold bind at 1.
  destruct skip; [eauto|].
  destruct (existsb _ german_indicators); [eauto|].
  destruct (existsb _ german_starters); [eauto|].
  destruct (matches U to_verb (c :: text)); [eauto|].
  change (item (c :: text) 0) with (Ok c). unfold bind.
  destruct (isupper U c && _ && _); [eauto|].
  destruct (islower U c && (len (c :: text) <? 50) && _); [eauto|].
  destruct (islower U c && (len (c :: text) <? 25) && _); [|eauto].
  destruct (existsb _ german_patterns); [eauto|].
  destruct (mem_str _ common_german_words); eauto.
Qed.

Lemma is_continuation_total (U : unicode_db) (text : str) :
  exists b, is_continuation U text = Ok b.
Proof.
  unfold is_continuation.
  destruct text as [|c text]; [simpl; eauto|].
  destruct (negb (truthy (c :: text)) || (len (c :: text) <? 2)); [eauto|].
  destruct (should_skip_line_total U (c :: text)) as [skip ->]. unfold bind at 1.
  destruct skip; [eauto|].
  destruct (matches U to_verb (c :: text)); [eauto|].
  change (item (c :: text) 0) with (Ok c).
  destruct (is_english_sentence_total (c :: text)) as [s ->].
  unfold andm, orm, notm, bind.
  destruct (islower U c); [|destruct (existsb _ german_indicators)];
    try destruct (len (c :: text) <? 50); eauto.
Qed.

(** C9, as the code has it: each of the four line predicates returns a
    boolean for every string, the empty one and one-character ones
    included, and raises nothing; and a line in which none of the
    predicate's patterns is found gets [False] -- except that
    [should_skip_line] answers [True] for the empty string, which it skips
    before looking at any pattern. *)
Theorem line_predicates_total (U : unicode_db) (text : str) :
  ((exists b, should_skip_line U text = Ok b) /\
   (exists b, is_likely_german U text = Ok b) /\
   (exists b, is_english_sentence text = Ok b) /\
   (exists b, is_continuation U text = Ok b)) /\
  (text <> [] ->
   existsb (fun sub => contains sub text) skip_substrings = false ->
   existsb (fun pattern => matches U pattern text) skip_line_patterns = false ->
   should_skip_line U text = Ok false) /\
  (existsb (fun c => mem_chr c text) german_indicators = false ->
   existsb (fun s => startswith text s) german_starters = false ->
   first_is (isupper U) text && (len text <? 40) &&
     negb (existsb (fun s => startswith text s) english_sentence_starters) = false ->
   first_is (islower U) text && (len text <? 50) &&
     (mem_chr (chr ";") text || mem_chr (chr "/") text) = false ->
   first_is (islower U) text && (len text <? 25) && (len (split U text) =? 1) &&
     (existsb (fun p => contains p (lower U text)) german_patterns ||
      mem_str (lower U text) common_german_words) = false ->
   is_likely_german U text = Ok false) /\
  ((30 <? len text) &&
     existsb (fun s => startswith text s) english_sentence_starters = false ->
   is_english_sentence text = Ok false) /\
  ((first_is (islower U) text ||
      existsb (fun c => mem_chr c text) german_indicators) && (len text <? 50) = false ->
   is_continuation U text = Ok false).
Proof.
  split; [|split; [|split; [|split]]].
  - split; [apply should_skip_line_total|].
    split; [apply is_likely_german_total|].
    split; [apply is_english_sentence_total | apply is_continuation_total].
  - intros Hne Hsub Hpat. unfold should_skip_line.
    destruct text; [contradiction|]. simpl truthy. simpl negb. cbv iota.
    rewrite Hsub, Hpat. reflexivity.
  - intros Hind Hst Hup Hlow Hword. unfold is_likely_german.
    destruct text as [|c text]; [reflexivity|].
    destruct (negb (truthy (c :: text)) || (len (c :: text) <? 2)); [reflexivity|].
    destruct (should_skip_line_total U (c :: text)) as [skip ->]. unfold bind at 1.
    destruct skip; [reflexivity|].
    rewrite Hind, Hst.
    destruct (matches U to_verb (c :: text)); [reflexivity|].
    change (item (c :: text) 0) with (Ok c). unfold bind.
    unfold first_is in Hup, Hlow, Hword. rewrite Hup, Hlow.
    destruct (islower U c && (len (c :: text) <? 25) && _) eqn:E; [|reflexivity].
    cbn [andb] in Hword. apply orb_false_iff in Hword.
    destruct Hword as [-> ->]. reflexivity.
  - intros H. unfold is_english_sentence.
    destruct (negb (truthy text)); [reflexivity|]. rewrite H. reflexivity.
  - intros H. unfold is_continuation.
    destruct text as [|c text]; [reflexivity|].
    destruct (negb (truthy (c :: text)) || (len (c :: text) <? 2)); [reflexivity|].
    destruct (should_skip_line_total U (c :: text)) as [skip ->]. unfold bind at 1.
    destruct skip; [reflexivity|].
    destruct (matches U to_verb (c :: text)); [reflexivity|].
    change (item (c :: text) 0) with (Ok c).
    destruct (is_english_sentence_total (c :: text)) as [s ->].
    unfold first_is in H. unfold andm, orm, notm, bind.
    destruct (islower U c); cbn [orb andb] in H.
    + rewrite H. reflexivity.
    + destruct (existsb _ german_indicators); cbn [orb andb] in H;
        [rewrite H|]; reflexivity.
Qed.

(** The claim's last clause fails for the empty string: it holds none of
    the skip substrings and matches none of the skip patterns, and
    [should_skip_line] still answers [True]. *)
Lemma empty_line_is_skipped :
  existsb (fun sub => contains sub []) skip_substrings = false /\
  existsb (fun pattern => matches plain_db pattern []) skip_line_patterns = false /\
  should_skip_line plain_db [] = Ok true.
Proof. repeat split; vm_compute; reflexivity. Qed.

(** ** Deduplication *)

Section Dedup.

Variable U : unicode_db.

Let key (e : entry) : str := seen_key U (fst e).

Lemma dedup_acc (vocabulary : list entry) :
  forall seen unique_vocab,
  dedup U vocabulary seen unique_vocab = unique_vocab ++ dedup U vocabulary seen [].
Proof.
  induction vocabulary as [|[eng ger] rest IH]; intros seen acc; simpl.
  - rewrite app_nil_r. reflexivity.
  - destruct (negb (mem_str (seen_key U eng) seen)).
    + rewrite IH. rewrite (IH _ [(eng, ger)]). rewrite <- app_assoc. reflexivity.
    + apply IH.
Qed.

Lemma dedup_keeps_acc (vocabulary : list entry) seen unique_vocab x :
  In x unique_vocab -> In x (dedup U vocabulary seen unique_vocab).
Proof. intros H. rewrite dedup_acc. apply in_or_app. left. exact H. Qed.

Lemma dedup_NoDup (vocabulary : list entry) :
  forall seen unique_vocab,
  NoDup (map key unique_vocab) ->
  (forall e, In e unique_vocab -> In (key e) seen) ->
  NoDup (map key (dedup U vocabulary seen unique_vocab)).
Proof.
  induction vocabulary as [|[eng ger] rest IH]; intros seen acc Hnd Hsub; simpl.
  - exact Hnd.
  - destruct (mem_str (seen_key U eng) seen) eqn:Hm; simpl.
    + apply IH; assumption.
    + apply IH.
      * rewrite map_app. simpl. apply NoDup_app.
        -- exact Hnd.
        -- constructor; [intros []|constructor].
        -- intros k Hk [<-|[]].
           apply in_map_iff in Hk. destruct Hk as (e & He & Hin).
           apply Hsub in Hin. rewrite He in Hin.
           apply mem_str_In in Hin. unfold key in Hin. simpl in Hin. congruence.
      * intros e He. apply in_app_or in He. destruct He as [He|[<-|[]]].
        -- right. apply Hsub. exact He.
        -- left. reflexivity.
Qed.

Lemma first_occurrence_kept (l1 l2 : list entry) (eng ger : str) :
  forall seen unique_vocab,
  ~ In (seen_key U eng) (map key l1) ->
  mem_str (seen_key U eng) seen = false ->
  In (eng, ger) (dedup U (l1 ++ (eng, ger) :: l2) seen unique_vocab).
Proof.
  induction l1 as [|[e g] l1 IH]; intros seen acc Hn Hs; simpl.
  - rewrite Hs. simpl. apply dedup_keeps_acc. apply in_or_app. right. left. reflexivity.
  - simpl in Hn.
    assert (Hne : seen_key U e <> seen_key U eng) by (intros E; apply Hn; left; exact E).
    assert (Hn' : ~ In (seen_key U eng) (map key l1)) by (intros H; apply Hn; right; exact H).
    destruct (negb (mem_str (seen_key U e) seen)).
    + apply IH; [exact Hn'|]. simpl.
      destruct (str_eqb (seen_key U eng) (seen_key U e)) eqn:E; [|exact Hs].
      apply str_eqb_eq in E. congruence.
    + apply IH; assumption.
Qed.

Lemma later_occurrence_dropped (l1 l2 : list entry) (eng ger : str) :
  forall seen unique_vocab,
  In (seen_key U eng) (map key l1) \/ mem_str (seen_key U eng) seen = true ->
  dedup U (l1 ++ (eng, ger) :: l2) seen unique_vocab
  = dedup U (l1 ++ l2) seen unique_vocab.
Proof.
  induction l1 as [|[e g] l1 IH]; intros seen acc H; simpl.
  - destruct H as [[]|H]. rewrite H. reflexivity.
  - destruct (mem_str (seen_key U e) seen) eqn:Hm; simpl.
    + apply IH. destruct H as [[E|H]|H].
      * right. unfold key in E. simpl in E. rewrite <- E. exact Hm.
      * left. exact H.
      * right. exact H.
    + apply IH. destruct H as [[E|H]|H].
      * right. simpl. unfold key in E. simpl in E. rewrite E, str_eqb_refl. reflexivity.
      * left. exact H.
      * right. simpl. rewrite H. apply orb_true_r.
Qed.

End Dedup.

Lemma bind_ok (A B : Type) (m : result A) (f : A -> result B) (b : B) :
  bind m f = Ok b -> exists a, m = Ok a /\ f a = Ok b.
Proof. destruct m as [a|e]; simpl; [eauto | discriminate]. Qed.

(** C4, as the code has it: whenever the parser returns a list, no two of
    its entries have the same case-folded headword (whether compared by the
    key [eng.lower().strip()] the loop remembers or by [eng.lower()] alone).
    The list is the deduplication of the entries that survive the filter:
    an entry that is the first with its key among them is in the result,
    and an entry that comes after another with the same key is dropped --
    the result is the same as if it had not been there.  A raw entry that
    the filter removes takes no part in this. *)
Theorem first_headword_wins (U : unicode_db) (lines : list str) (v : list entry) :
  parse_english_vocabulary U lines = Ok v ->
  exists raw kept,
    scan U lines (List.length lines) 0 [] = Ok raw /\
    drop_bad U raw = Ok kept /\
    v = dedup U kept [] [] /\
    NoDup (map (fun e => seen_key U (fst e)) v) /\
    NoDup (map (fun e => lower U (fst e)) v) /\
    (forall l1 eng ger l2,
       kept = l1 ++ (eng, ger) :: l2 ->
       ~ In (seen_key U eng) (map (fun e => seen_key U (fst e)) l1) ->
       In (eng, ger) v) /\
    (forall l1 eng ger l2,
       kept = l1 ++ (eng, ger) :: l2 ->
       In (seen_key U eng) (map (fun e => seen_key U (fst e)) l1) ->
       v = dedup U (l1 ++ l2) [] []).
Proof.
  unfold parse_english_vocabulary. intros H.
  apply bind_ok in H. destruct H as (raw & Hraw & H).
  apply bind_ok in H. destruct H as (kept & Hkept & H).
  injection H as <-. exists raw, kept.
  assert (Hnd : NoDup (map (fun e => seen_key U (fst e)) (dedup U kept [] []))).
  { apply dedup_NoDup; [constructor | intros e []]. }
  repeat split; try assumption.
  - unfold seen_key in Hnd.
    rewrite <- (map_map (fun e => lower U (fst e)) (strip U)) in Hnd.
    apply NoDup_map_inv in Hnd. exact Hnd.
  - intros l1 eng ger l2 -> Hn. apply first_occurrence_kept; [exact Hn | reflexivity].
  - intros l1 eng ger l2 -> Hin. apply later_occurrence_dropped. left. exact Hin.
Qed.

Lemma first_headword_wins_witness :
  parse_english_vocabulary plain_db sample_lines = Ok [(py "knife", py "Messer")] /\
  exists raw kept,
    scan plain_db sample_lines (List.length sample_lines) 0 [] = Ok raw /\
    drop_bad plain_db raw = Ok kept /\
    [(py "knife", py "Messer")] = dedup plain_db kept [] [] /\
    NoDup (map (fun e => seen_key plain_db (fst e)) [(py "knife", py "Messer")]) /\
    NoDup (map (fun e => lower plain_db (fst e)) [(py "knife", py "Messer")]) /\
    (forall l1 eng ger l2,
       kept = l1 ++ (eng, ger) :: l2 ->
       ~ In (seen_key plain_db eng) (map (fun e => seen_key plain_db (fst e)) l1) ->
       In (eng, ger) [(py "knife", py "Messer")]) /\
    (forall l1 eng ger l2,
       kept = l1 ++ (eng, ger) :: l2 ->
       In (seen_key plain_db eng) (map (fun e => seen_key plain_db (fst e)) l1) ->
       [(py "knife", py "Messer")] = dedup plain_db (l1 ++ l2) [] []).
Proof.
  split; [vm_compute; reflexivity|].
  apply (first_headword_wins plain_db sample_lines). vm_compute. reflexivity.
Defined.

(** The claim as stated fails: of two raw entries with the same case-folded
    headword the first is removed by the filter (its translation is the
    headword itself) and the later one is returned. *)
Lemma filtered_first_entry_loses :
  scan plain_db filtered_lines (List.length filtered_lines) 0 []
    = Ok [(py "happy", py "happy"); (py "Happy", py "Freude")] /\
  lower plain_db (py "happy") = lower plain_db (py "Happy") /\
  parse_english_vocabulary plain_db filtered_lines = Ok [(py "Happy", py "Freude")].
Proof. repeat split; vm_compute; reflexivity. Qed.

(** ** Round trip through the flashcard file *)

Lemma dropwhile_id (p : N -> bool) (s : str) :
  first_is p s = false -> dropwhile p s = s.
Proof. destruct s as [|c s]; simpl; [reflexivity|]. intros ->. reflexivity. Qed.

Lemma dropwhile_app_stop (p : N -> bool) (l : str) (c : N) (r : str) :
  p c = false -> dropwhile p (l ++ c :: r) = dropwhile p l ++ c :: r.
Proof.
  intros Hc. induction l as [|x l IH]; simpl.
  - rewrite Hc. reflexivity.
  - destruct (p x); [exact IH | reflexivity].
Qed.

Lemma strip_by_stripped (p : N -> bool) (s : str) :
  first_is p s = false -> first_is p (rev s) = false -> strip_by p s = s.
Proof.
  intros H1 H2. unfold strip_by, rstrip_by, lstrip_by.
  rewrite (dropwhile_id _ _ H1), (dropwhile_id _ _ H2). apply rev_involutive.
Qed.

Lemma strip_stripped (U : unicode_db) (s : str) : stripped U s = true -> strip U s = s.
Proof.
  unfold stripped, strip. intros H. apply andb_true_iff in H. destruct H as [H1 H2].
  apply negb_true_iff in H1, H2. apply strip_by_stripped; assumption.
Qed.

(** Stripping a line that starts with a character that is not white space
    keeps that character in front. *)
Lemma strip_by_head (p : N -> bool) (c : N) (s : str) :
  p c = false -> exists s', strip_by p (c :: s) = c :: s'.
Proof.
  intros Hc. unfold strip_by, rstrip_by, lstrip_by. simpl. rewrite Hc. simpl.
  rewrite dropwhile_app_stop by exact Hc. rewrite rev_app_distr. simpl. eauto.
Qed.

Lemma isspace_LF (U : unicode_db) : isspace U LF = true.
Proof. reflexivity. Qed.

(** Stripping a row gives the two fields around the tab. *)
Lemma strip_row (U : unicode_db) (front back : str) :
  stripped U front = true -> stripped U back = true ->
  front <> [] -> back <> [] ->
  strip U (anki_row front back) = front ++ [TAB] ++ back.
Proof.
  unfold stripped, strip, anki_row. intros Hf Hb Nf Nb.
  apply andb_true_iff in Hf, Hb. destruct Hf as [Hf1 _], Hb as [_ Hb2].
  apply negb_true_iff in Hf1, Hb2.
  unfold strip_by, rstrip_by, lstrip_by.
  assert (E1 : dropwhile (isspace U) (front ++ [TAB] ++ back ++ [LF])
               = front ++ [TAB] ++ back ++ [LF]).
  { apply dropwhile_id. destruct front; [contradiction | exact Hf1]. }
  rewrite E1.
  assert (E2 : rev (front ++ [TAB] ++ back ++ [LF])
               = LF :: rev back ++ rev (front ++ [TAB])).
  { rewrite !app_assoc. rewrite rev_app_distr. simpl. f_equal.
    rewrite rev_app_distr. reflexivity. }
  rewrite E2. cbn [dropwhile]. rewrite isspace_LF.
  rewrite dropwhile_id.
  - rewrite rev_app_distr, !rev_involutive. rewrite <- app_assoc. reflexivity.
  - destruct (rev back) as [|b rb] eqn:Eb; [|exact Hb2].
    exfalso. apply Nb. rewrite <- (rev_involutive back), Eb. reflexivity.
Qed.

Lemma mem_chr_app (c : N) (a b : str) : mem_chr c (a ++ b) = mem_chr c a || mem_chr c b.
Proof. apply existsb_app. Qed.

Lemma mem_chr_cons (c x : N) (s : str) : mem_chr c (x :: s) = (c =? x) || mem_chr c s.
Proof. reflexivity. Qed.

Lemma universal_newlines_id (s : str) :
  mem_chr CR s = false -> universal_newlines s = s.
Proof.
  induction s as [|c s IH]; [reflexivity|]. intros H.
  rewrite mem_chr_cons in H. apply orb_false_iff in H. destruct H as [H1 H2].
  cbn [universal_newlines]. rewrite N.eqb_sym, H1. f_equal. apply IH. exact H2.
Qed.

Lemma lines_acc_line (line rest cur : str) :
  mem_chr LF line = false ->
  lines_acc (line ++ LF :: rest) cur = (rev cur ++ line ++ [LF]) :: lines_acc rest [].
Proof.
  revert cur. induction line as [|c line IH]; intros cur H.
  - cbn [app lines_acc]. rewrite N.eqb_refl. reflexivity.
  - rewrite mem_chr_cons in H. apply orb_false_iff in H. destruct H as [H1 H2].
    cbn [app lines_acc]. rewrite N.eqb_sym, H1. rewrite (IH _ H2).
    cbn [rev]. rewrite <- app_assoc. reflexivity.
Qed.

Lemma split_on_plain (sep : N) (a cur : str) :
  mem_chr sep a = false -> split_on_acc sep a cur = [rev cur ++ a].
Proof.
  revert cur. induction a as [|c a IH]; intros cur H.
  - cbn [split_on_acc]. rewrite app_nil_r. reflexivity.
  - rewrite mem_chr_cons in H. apply orb_false_iff in H. destruct H as [H1 H2].
    cbn [split_on_acc]. rewrite N.eqb_sym, H1. rewrite (IH _ H2).
    cbn [rev]. rewrite <- app_assoc. reflexivity.
Qed.

Lemma split_on_field (sep : N) (a rest cur : str) :
  mem_chr sep a = false ->
  split_on_acc sep (a ++ sep :: rest) cur = (rev cur ++ a) :: split_on_acc sep rest [].
Proof.
  revert cur. induction a as [|c a IH]; intros cur H.
  - cbn [app split_on_acc]. rewrite N.eqb_refl, app_nil_r. reflexivity.
  - rewrite mem_chr_cons in H. apply orb_false_iff in H. destruct H as [H1 H2].
    cbn [app split_on_acc]. rewrite N.eqb_sym, H1. rewrite (IH _ H2).
    cbn [rev]. rewrite <- app_assoc. reflexivity.
Qed.

Lemma split_row (front back : str) :
  mem_chr TAB front = false -> mem_chr TAB back = false ->
  split_on TAB (front ++ [TAB] ++ back) = [front; back].
Proof.
  intros Hf Hb. unfold split_on. simpl app.
  rewrite split_on_field by exact Hf. rewrite split_on_plain by exact Hb. reflexivity.
Qed.

Lemma clean_entry_parts (U : unicode_db) (front back : str) :
  clean_entry U (front, back) = true ->
  stripped U front = true /\ stripped U back = true /\
  (2 <=? len front) = true /\ (2 <=? len back) = true /\
  plain_field front = true /\ plain_field back = true /\
  startswith front (py "#") = false.
Proof.
  unfold clean_entry. simpl. rewrite !andb_true_iff, negb_true_iff. tauto.
Qed.

Lemma long_nonempty (s : str) : (2 <=? len s) = true -> s <> [].
Proof. intros H ->. discriminate. Qed.

Lemma plain_field_parts (s : str) :
  plain_field s = true ->
  mem_chr TAB s = false /\ mem_chr LF s = false /\ mem_chr CR s = false.
Proof.
  unfold plain_field, one_line. rewrite !andb_true_iff, !negb_true_iff. tauto.
Qed.

(** A line that starts with the header marker is skipped by the loader. *)
Lemma load_rows_header (U : unicode_db) (line : str) (file : list str) (entries : list entry) :
  load_rows U (((chr "#") :: line) :: file) entries = load_rows U file entries.
Proof.
  simpl. destruct (strip_by_head (isspace U) (chr "#") line eq_refl) as [s' E].
  unfold strip. rewrite E.
  replace (startswith (chr "#" :: s') (py "#")) with true by reflexivity.
  rewrite orb_true_r. reflexivity.
Qed.

(** The loader reads back the rows of clean entries. *)
Lemma load_rows_rows (U : unicode_db) (vocabulary : list entry) :
  forallb (clean_entry U) vocabulary = true ->
  forall entries,
  load_rows U (map (fun e => anki_row (fst e) (snd e)) vocabulary) entries
  = entries ++ vocabulary.
Proof.
  induction vocabulary as [|[front back] rest IH]; intros H entries.
  - simpl. rewrite app_nil_r. reflexivity.
  - simpl in H. apply andb_true_iff in H. destruct H as [Hc Hrest].
    apply clean_entry_parts in Hc.
    destruct Hc as (Sf & Sb & Lf & Lb & Pf & Pb & Hh).
    apply plain_field_parts in Pf, Pb.
    destruct Pf as (Tf & _ & _), Pb as (Tb & _ & _).
    cbn [map load_rows fst snd].
    rewrite strip_row by (assumption || (apply long_nonempty; assumption)).
    destruct front as [|c front]; [discriminate|].
    replace (startswith ((c :: front) ++ [TAB] ++ back) (py "#"))
      with (startswith (c :: front) (py "#"))
      by (simpl; destruct (35 =? c); reflexivity).
    rewrite Hh.
    replace (truthy ((c :: front) ++ [TAB] ++ back)) with true by reflexivity.
    cbn [negb orb].
    rewrite split_row by assumption.
    rewrite (IH Hrest). rewrite <- app_assoc. reflexivity.
Qed.

(** The lines of a text made of rows. *)
Lemma lines_of_rows (vocabulary : list entry) :
  forallb (fun e => plain_field (fst e) && plain_field (snd e)) vocabulary = true ->
  lines_acc (List.concat (map (fun e => anki_row (fst e) (snd e)) vocabulary)) []
  = map (fun e => anki_row (fst e) (snd e)) vocabulary.
Proof.
  induction vocabulary as [|[front back] rest IH]; intros H; [reflexivity|].
  simpl in H. apply andb_true_iff in H. destruct H as [Hc Hrest].
  apply andb_true_iff in Hc. destruct Hc as [Pf Pb].
  apply plain_field_parts in Pf, Pb.
  destruct Pf as (_ & Lf & _), Pb as (_ & Lb & _).
  cbn [map List.concat fst snd]. unfold anki_row at 1.
  replace ((front ++ [TAB] ++ back ++ [LF]) ++
           List.concat (map (fun e => anki_row (fst e) (snd e)) rest))
    with ((front ++ [TAB] ++ back) ++
          LF :: List.concat (map (fun e => anki_row (fst e) (snd e)) rest))
    by (rewrite <- !app_assoc; reflexivity).
  rewrite lines_acc_line.
  - rewrite (IH Hrest). unfold anki_row. simpl. rewrite <- !app_assoc. reflexivity.
  - rewrite !mem_chr_app, Lf, Lb. reflexivity.
Qed.

Lemma load_rows_marked (U : unicode_db) (line : str) (file : list str) (entries : list entry) :
  first_is (N.eqb (chr "#")) line = true ->
  load_rows U (line :: file) entries = load_rows U file entries.
Proof.
  destruct line as [|c line]; [discriminate|]. cbn [first_is]. intros H.
  apply N.eqb_eq in H. subst c. apply load_rows_header.
Qed.

(** The lines of a text that starts with the header. *)
Lemma lines_of_header (html deck_name notetype rest : str) :
  mem_chr LF html = false -> mem_chr LF deck_name = false ->
  mem_chr LF notetype = false ->
  lines_acc (anki_header html deck_name notetype ++ rest) []
  = [py "#separator:Tab" ++ [LF];
     (py "#html:" ++ html) ++ [LF];
     (py "#deck:" ++ deck_name) ++ [LF];
     (py "#notetype:" ++ notetype) ++ [LF]] ++ lines_acc rest [].
Proof.
  intros Hh Hd Hn. unfold anki_header.
  replace ((py "#separator:Tab" ++ [LF] ++ py "#html:" ++ html ++ [LF] ++
            py "#deck:" ++ deck_name ++ [LF] ++ py "#notetype:" ++ notetype ++ [LF])
           ++ rest)
    with (py "#separator:Tab" ++ LF ::
          ((py "#html:" ++ html) ++ LF ::
           ((py "#deck:" ++ deck_name) ++ LF ::
            ((py "#notetype:" ++ notetype) ++ LF :: rest))))
    by (rewrite <- !app_assoc; reflexivity).
  rewrite lines_acc_line by reflexivity.
  rewrite lines_acc_line by (rewrite mem_chr_app, Hh; reflexivity).
  rewrite lines_acc_line by (rewrite mem_chr_app, Hd; reflexivity).
  rewrite lines_acc_line by (rewrite mem_chr_app, Hn; reflexivity).
  reflexivity.
Qed.

Lemma rows_one_line (c : N) (vocabulary : list entry) :
  c <> TAB -> c <> LF ->
  forallb (fun e => negb (mem_chr c (fst e)) && negb (mem_chr c (snd e))) vocabulary = true ->
  mem_chr c (List.concat (map (fun e => anki_row (fst e) (snd e)) vocabulary)) = false.
Proof.
  intros Ht Hl. induction vocabulary as [|[front back] rest IH]; intros H; [reflexivity|].
  cbn [forallb fst snd] in H. apply andb_true_iff in H. destruct H as [Hc Hrest].
  apply andb_true_iff in Hc. destruct Hc as [Hf Hb]. apply negb_true_iff in Hf, Hb.
  cbn [map List.concat fst snd]. rewrite mem_chr_app, (IH Hrest).
  unfold anki_row. rewrite !mem_chr_app, Hf, Hb.
  rewrite !mem_chr_cons. apply N.eqb_neq in Ht, Hl. rewrite Ht, Hl. reflexivity.
Qed.

Lemma leb_ltb_false (n : N) : (2 <=? n) = true -> (n <? 2) = false.
Proof. intros H. apply N.leb_le in H. apply N.ltb_ge. exact H. Qed.

(** What the writer leaves in the file for clean, pairwise different
    entries: the header and one row per entry. *)
Lemma write_rows_clean (U : unicode_db) (english : bool) (vocabulary : list entry) :
  forallb (clean_entry U) vocabulary = true ->
  english || forallb (fun e => negb (aggressive_skip U (fst e) (snd e))) vocabulary = true ->
  NoDup (map (row_key U) vocabulary) ->
  forall seen f written,
  (forall e, In e vocabulary -> existsb (pair_eqb (row_key U e)) seen = false) ->
  fst (write_rows U english vocabulary seen f written)
  = f ++ List.concat (map (fun e => anki_row (fst e) (snd e)) vocabulary).
Proof.
  induction vocabulary as [|[front back] rest IH]; intros Hc Hs Hnd seen f written Hseen.
  - simpl. rewrite app_nil_r. reflexivity.
  - cbn [forallb] in Hc. apply andb_true_iff in Hc. destruct Hc as [Hc Hrest].
    assert (Hs' : english ||
                  forallb (fun e => negb (aggressive_skip U (fst e) (snd e))) rest = true).
    { destruct english; [reflexivity|]. cbn [orb forallb] in Hs |- *.
      apply andb_true_iff in Hs. apply Hs. }
    assert (Hskip : english = false -> aggressive_skip U front back = false).
    { intros ->. cbn [orb forallb fst snd] in Hs. apply andb_true_iff in Hs.
      destruct Hs as [Hs _]. apply negb_true_iff in Hs. exact Hs. }
    apply clean_entry_parts in Hc.
    destruct Hc as (Sf & Sb & Lf & Lb & _).
    cbn [map] in Hnd. apply NoDup_cons_iff in Hnd. destruct Hnd as [Hnew Hnd].
    cbn [write_rows]. rewrite (strip_stripped U front Sf), (strip_stripped U back Sb).
    assert (Hhere : existsb (pair_eqb (lower U front, lower U back)) seen = false)
      by (apply (Hseen (front, back)); left; reflexivity).
    rewrite Hhere.
    destruct front as [|c front]; [discriminate|].
    destruct back as [|d back]; [discriminate|].
    rewrite (leb_ltb_false _ Lf), (leb_ltb_false _ Lb). cbn [truthy negb orb].
    assert (Hnext : forall e, In e rest ->
              existsb (pair_eqb (row_key U e))
                      ((lower U (c :: front), lower U (d :: back)) :: seen)
              = false).
    { intros e He. cbn [existsb]. rewrite (Hseen e) by (right; exact He).
      rewrite orb_false_r. destruct (pair_eqb _ _) eqn:E; [|reflexivity].
      apply pair_eqb_eq in E. exfalso. apply Hnew.
      change (row_key U (c :: front, d :: back))
        with (lower U (c :: front), lower U (d :: back)).
      rewrite <- E. apply in_map. exact He. }
    cbn [map List.concat fst snd].
    destruct english.
    + rewrite (IH Hrest Hs' Hnd _ _ _ Hnext). rewrite <- app_assoc. reflexivity.
    + rewrite (Hskip eq_refl).
      rewrite (IH Hrest Hs' Hnd _ _ _ Hnext). rewrite <- app_assoc. reflexivity.
Qed.

Lemma forallb_weaken (A : Type) (p q : A -> bool) (l : list A) :
  (forall x, p x = true -> q x = true) -> forallb p l = true -> forallb q l = true.
Proof.
  intros H Hp. apply forallb_forall. intros x Hx.
  apply H. exact (proj1 (forallb_forall p l) Hp x Hx).
Qed.

Lemma one_line_parts (s : str) :
  one_line s = true -> mem_chr LF s = false /\ mem_chr CR s = false.
Proof. unfold one_line. rewrite andb_true_iff, !negb_true_iff. tauto. Qed.




(** ** Matching fails where the pattern needs a character the text lacks *)

Section NoMatch.

Variable U : unicode_db.
Variable icase : bool.

Lemma fails_after_here (k : cont) (rest : str) :
  fails_after k rest -> forall pos prev caps, k rest pos prev caps = None.
Proof. intros H. apply (H [] rest). reflexivity. Qed.

Lemma fails_after_tail (k : cont) (c : N) (rest : str) :
  fails_after k (c :: rest) -> fails_after k rest.
Proof.
  intros H pre rest' E. apply (H (c :: pre) rest'). rewrite E. reflexivity.
Qed.

Lemma fails_after_suffix (k : cont) (pre rest : str) :
  fails_after k (pre ++ rest) -> fails_after k rest.
Proof.
  intros H pre' rest' E. apply (H (pre ++ pre') rest').
  rewrite E, app_assoc. reflexivity.
Qed.

(** If the continuation fails wherever it is called, repetition fails. *)
Lemma rep_fails (greedy : bool) (p : chr_pat) (k : cont) (rest : str) :
  fails_after k rest ->
  forall lo pos prev caps, rep U icase greedy p k lo rest pos prev caps = None.
Proof.
  induction rest as [|c rest IH]; intros Hk lo pos prev caps.
  - destruct lo; simpl; [|reflexivity].
    rewrite (fails_after_here Hk). destruct greedy; reflexivity.
  - pose proof (IH (fails_after_tail Hk)) as IH'.
    destruct lo; cbn [rep].
    + rewrite (fails_after_here Hk). rewrite IH'.
      destruct greedy; destruct (pat_match U icase p c); reflexivity.
    + rewrite IH'. destruct (pat_match U icase p c); reflexivity.
Qed.

(** If the continuation fails wherever it is called, the match fails. *)
Lemma rmatch_fails (r : regex) :
  forall (k : cont) (rest : str),
  fails_after k rest ->
  forall pos prev caps, rmatch U icase r k rest pos prev caps = None.
Proof.
  induction r as [|p|a IHa b IHb|a IHa b IHb|greedy lo p|n a IHa| | |];
    intros k rest Hk pos prev caps; cbn [rmatch].
  - apply (fails_after_here Hk).
  - destruct rest as [|c rest]; [reflexivity|].
    destruct (pat_match U icase p c); [|reflexivity].
    apply (fails_after_here (fails_after_tail Hk)).
  - apply IHa. intros pre rest' E pos' prev' caps'.
    apply IHb. apply (fails_after_suffix pre). rewrite <- E. exact Hk.
  - rewrite (IHa k rest Hk). apply (IHb k rest Hk).
  - apply rep_fails. exact Hk.
  - apply IHa. intros pre rest' E pos' prev' caps'. apply (Hk pre rest' E).
  - destruct (Nat.eqb pos 0); [apply (fails_after_here Hk) | reflexivity].
  - destruct rest as [|c [|d rest]]; try reflexivity.
    + apply (fails_after_here Hk).
    + destruct (c =? LF); [apply (fails_after_here Hk) | reflexivity].
  - destruct (xorb _ _); [apply (fails_after_here Hk) | reflexivity].
Qed.

Lemma spaceless_tail (c : N) (s : str) : spaceless U (c :: s) -> spaceless U s.
Proof. intros H x Hx. apply H. right. exact Hx. Qed.

Lemma spaceless_suffix (pre s : str) : spaceless U (pre ++ s) -> spaceless U s.
Proof. intros H x Hx. apply H. apply in_or_app. right. exact Hx. Qed.

Lemma space_pat_match (p : chr_pat) (c : N) :
  is_space_pat p = true -> pat_match U icase p c = isspace U c.
Proof.
  destruct p as [x|[|[] [|? ?]]|items]; try discriminate.
  intros _. simpl. apply orb_false_r.
Qed.

(** A pattern that needs white space matches nowhere in a text without. *)
Lemma needs_space_fails (r : regex) :
  needs_space r = true ->
  forall (k : cont) (rest : str),
  spaceless U rest ->
  forall pos prev caps, rmatch U icase r k rest pos prev caps = None.
Proof.
  induction r as [|p|a IHa b IHb|a IHa b IHb|greedy lo p|n a IHa| | |];
    intros Hr k rest Hs pos prev caps; cbn [needs_space] in Hr; try discriminate;
    cbn [rmatch].
  - destruct rest as [|c rest]; [reflexivity|].
    rewrite (space_pat_match _ c Hr), (Hs c (or_introl eq_refl)). reflexivity.
  - apply orb_true_iff in Hr. destruct Hr as [Hr|Hr].
    + apply IHa; assumption.
    + apply rmatch_fails. intros pre rest' E pos' prev' caps'.
      apply IHb; [exact Hr|]. apply (spaceless_suffix pre). rewrite <- E. exact Hs.
  - apply andb_true_iff in Hr. destruct Hr as [Ha Hb].
    rewrite (IHa Ha k rest Hs). apply (IHb Hb k rest Hs).
  - destruct lo as [|lo]; [discriminate|].
    destruct rest as [|c rest]; [reflexivity|]. cbn [rep].
    rewrite (space_pat_match _ c Hr), (Hs c (or_introl eq_refl)). reflexivity.
  - apply IHa; assumption.
Qed.

Lemma search_spaceless (r : regex) (rest : str) :
  needs_space r = true -> spaceless U rest ->
  forall pos prev, search_from U icase r rest pos prev = None.
Proof.
  intros Hr. induction rest as [|c rest IH]; intros Hs pos prev; cbn [search_from].
  - rewrite (needs_space_fails _ Hr); [reflexivity | exact Hs].
  - rewrite (needs_space_fails _ Hr); [|exact Hs].
    apply IH. apply (spaceless_tail Hs).
Qed.

Lemma re_search_spaceless (r : regex) (text : str) :
  needs_space r = true -> spaceless U text -> re_search U icase r text = None.
Proof.
  intros Hr Hs. unfold re_search. rewrite search_spaceless by assumption. reflexivity.
Qed.

End NoMatch.

(** ** The loanword allow-list *)

Section Loanwords.

Variable U : unicode_db.

Lemma loanwords_plain : forallb (plain_loanword U) loanwords = true.
Proof. vm_compute. reflexivity. Qed.

Lemma plain_loanword_parts (w : str) :
  In w loanwords ->
  all_ascii w = true /\ mem_chr 107 w = false /\ forallb ascii_islower w = true /\
  w <> [] /\
  existsb (fun g => mem_str g (split U w)) german_words = false /\
  existsb (fun p => contains p w) german_compounds = false /\
  str_eqb w (py "so") = false.
Proof.
  intros H. pose proof (proj1 (forallb_forall _ _) loanwords_plain w H) as P.
  unfold plain_loanword in P. rewrite !andb_true_iff, !negb_true_iff in P.
  destruct P as ((((((P1 & P2) & P3) & P4) & P5) & P6) & P7).
  repeat split; try assumption. intros ->. discriminate.
Qed.

Lemma no_marks (w : str) :
  all_ascii w = true -> mem_chr 107 w = false ->
  existsb (fun c => negb (is_ascii c) || (c =? 107)) w = false.
Proof.
  induction w as [|c w IH]; [reflexivity|]. intros Ha Hk.
  cbn [all_ascii forallb] in Ha. apply andb_true_iff in Ha. destruct Ha as [Hc Ha].
  rewrite mem_chr_cons in Hk. apply orb_false_iff in Hk. destruct Hk as [Hk1 Hk2].
  cbn [existsb]. rewrite Hc, (IH Ha Hk2). rewrite N.eqb_sym, Hk1. reflexivity.
Qed.

(** Only an ASCII string lowers to a plain word without [k]. *)
Lemma lowered_from_ascii (s : str) :
  all_ascii (lower U s) = true -> mem_chr 107 (lower U s) = false ->
  all_ascii s = true.
Proof.
  unfold lower. destruct (all_ascii s) eqn:E; [reflexivity|]. intros Ha Hk.
  pose proof (ext_lower_visible U s E) as V.
  rewrite (no_marks _ Ha Hk) in V. discriminate.
Qed.

Lemma lower_ascii (s : str) : all_ascii s = true -> lower U s = map ascii_lower s.
Proof. unfold lower. intros ->. reflexivity. Qed.

Lemma lowered_letter (c : N) :
  ascii_islower (ascii_lower c) = true -> ascii_isalpha c = true.
Proof.
  unfold ascii_lower, ascii_isalpha. destruct (ascii_isupper c); [reflexivity|].
  intros ->. reflexivity.
Qed.

Lemma lowered_letters (s : str) :
  forallb ascii_islower (map ascii_lower s) = true -> forallb ascii_isalpha s = true.
Proof.
  induction s as [|c s IH]; [reflexivity|]. cbn [map forallb]. intros H.
  apply andb_true_iff in H. destruct H as [Hc Hs].
  rewrite (lowered_letter _ Hc), (IH Hs). reflexivity.
Qed.

Lemma letters_lack (c : N) (s : str) :
  ascii_isalpha c = false -> forallb ascii_isalpha s = true -> mem_chr c s = false.
Proof.
  intros Hc. induction s as [|x s IH]; [reflexivity|]. cbn [forallb]. intros H.
  apply andb_true_iff in H. destruct H as [Hx Hs].
  rewrite mem_chr_cons, (IH Hs). destruct (c =? x) eqn:E; [|reflexivity].
  apply N.eqb_eq in E. congruence.
Qed.

Lemma letters_lack_all (cs : list N) (s : str) :
  forallb (fun c => negb (ascii_isalpha c)) cs = true ->
  forallb ascii_isalpha s = true ->
  existsb (fun c => mem_chr c s) cs = false.
Proof.
  intros Hcs Hs. induction cs as [|c cs IH]; [reflexivity|].
  cbn [forallb] in Hcs. apply andb_true_iff in Hcs. destruct Hcs as [Hc Hcs].
  apply negb_true_iff in Hc. cbn [existsb].
  rewrite (letters_lack _ _ Hc Hs), (IH Hcs). reflexivity.
Qed.

Lemma letter_not_space (c : N) : ascii_isalpha c = true -> isspace U c = false.
Proof.
  unfold isspace, is_ascii, ascii_isspace, ascii_isalpha, ascii_isupper, ascii_islower.
  intros H.
  destruct (N.leb_spec 65 c), (N.leb_spec c 90), (N.leb_spec 97 c), (N.leb_spec c 122),
    (N.ltb_spec c 128), (N.leb_spec 9 c), (N.leb_spec c 13), (N.leb_spec 28 c),
    (N.leb_spec c 32); simpl in *; try reflexivity; try discriminate; lia.
Qed.

Lemma letters_spaceless (s : str) : forallb ascii_isalpha s = true -> spaceless U s.
Proof.
  intros H c Hc. apply letter_not_space.
  exact (proj1 (forallb_forall _ _) H c Hc).
Qed.

Lemma startswith_mem (pre s : str) (c : N) :
  startswith s pre = true -> In c pre -> mem_chr c s = true.
Proof.
  revert s. induction pre as [|p pre IH]; intros s H Hc; [destruct Hc|].
  destruct s as [|x s]; [discriminate|]. cbn [startswith] in H.
  apply andb_true_iff in H. destruct H as [Hp Hs]. apply N.eqb_eq in Hp. subst x.
  rewrite mem_chr_cons. destruct Hc as [->|Hc].
  - rewrite N.eqb_refl. reflexivity.
  - rewrite (IH s Hs Hc). apply orb_true_r.
Qed.

(** A string that lowers to a word of the allow-list is a non-empty run of
    ASCII letters. *)
Lemma loanword_source (s : str) :
  In (lower U s) loanwords ->
  forallb ascii_isalpha s = true /\ s <> [].
Proof.
  intros H. destruct (plain_loanword_parts H) as (Ha & Hk & Hl & Hn & _).
  pose proof (lowered_from_ascii s Ha Hk) as As.
  pose proof (lower_ascii _ As) as E.
  split.
  - apply lowered_letters. rewrite <- E. exact Hl.
  - intros ->. apply Hn. rewrite E. reflexivity.
Qed.

Lemma letters_not_to (s : str) :
  forallb ascii_isalpha s = true -> startswith s (py "to ") = false.
Proof.
  intros L. destruct (startswith s (py "to ")) eqn:S; [|reflexivity].
  assert (I : In 32 (py "to ")) by (right; right; left; reflexivity).
  pose proof (startswith_mem _ _ _ S I) as M.
  rewrite (letters_lack 32 s) in M by (reflexivity || assumption). discriminate.
Qed.

Lemma loanword_kept (eng ger : str) :
  In (lower U eng) loanwords -> lower U eng = lower U ger ->
  is_bad_entry U eng ger = Ok false.
Proof.
  intros Hin Heq.
  destruct (plain_loanword_parts Hin) as (_ & _ & _ & _ & Hw & Hc & Hso).
  destruct (loanword_source eng Hin) as (Le & Ne).
  assert (Hin' : In (lower U ger) loanwords) by (rewrite <- Heq; exact Hin).
  destruct (loanword_source ger Hin') as (Lg & _).
  assert (Hitem : exists c0, item eng 0 = Ok c0).
  { destruct eng as [|c0 eng']; [contradiction|]. exists c0. reflexivity. }
  destruct Hitem as [c0 Hitem].
  assert (Hlook : looks_like_german U eng = false).
  { unfold looks_like_german. cbv zeta.
    rewrite letters_lack_all by (reflexivity || assumption).
    rewrite Hw. reflexivity. }
  unfold is_bad_entry.
  rewrite Hlook, Hitem, Hc, Hso, (proj2 (mem_str_In _ _) Hin).
  rewrite (letters_lack (chr ".") eng) by (reflexivity || assumption).
  rewrite (letters_lack (chr "/") eng) by (reflexivity || assumption).
  rewrite (letters_not_to ger Lg).
  rewrite !(@re_search_spaceless U false _ ger) by
    (reflexivity || apply letters_spaceless; assumption).
  unfold andm, bind.
  destruct (8 <? len eng), (isupper U c0),
    (str_isalpha U eng && negb (mem_chr (chr " ") eng));
    cbn [andb negb is_some]; rewrite ?andb_false_r; reflexivity.
Qed.

Lemma identical_dropped (eng ger : str) :
  ~ In (lower U eng) loanwords -> lower U eng = lower U ger ->
  is_bad_entry U eng ger = Ok true.
Proof.
  intros Hn Heq.
  assert (Hm : mem_str (lower U eng) loanwords = false).
  { destruct (mem_str (lower U eng) loanwords) eqn:E; [|reflexivity].
    apply mem_str_In in E. contradiction. }
  unfold is_bad_entry.
  destruct (looks_like_german U eng); [reflexivity|].
  rewrite <- Heq, str_eqb_refl, Hm.
  destruct eng as [|c0 eng'].
  - reflexivity.
  - replace (item (c0 :: eng') 0) with (Ok c0) by reflexivity.
    unfold andm, bind.
    destruct (8 <? len (c0 :: eng')), (isupper U c0),
      (str_isalpha U (c0 :: eng') && negb (mem_chr (chr " ") (c0 :: eng')));
      cbn [andb negb];
      destruct (existsb (fun p => contains p (lower U (c0 :: eng'))) german_compounds);
      reflexivity.
Qed.

End Loanwords.

(** X1. In the filtering pass of [parse_english_vocabulary], an entry whose
    headword and translation are the same after [lower()] is kept (that is,
    [is_bad_entry] answers [False]) exactly when the lowered headword is on
    the loanword list, and is dropped otherwise; so (digital, digital) and
    (cover, cover) are kept and (happy, happy) is dropped. *)
Theorem loanword_rule (U : unicode_db) (eng ger : str) :
  lower U eng = lower U ger ->
  (is_bad_entry U eng ger = Ok false <-> In (lower U eng) loanwords) /\
  (~ In (lower U eng) loanwords -> is_bad_entry U eng ger = Ok true) /\
  is_bad_entry U (py "digital") (py "digital") = Ok false /\
  is_bad_entry U (py "cover") (py "cover") = Ok false /\
  is_bad_entry U (py "happy") (py "happy") = Ok true.
Proof.
  intros Heq. split; [|split; [|repeat split; vm_compute; reflexivity]].
  - split.
    + intros K. destruct (mem_str (lower U eng) loanwords) eqn:E.
      * apply mem_str_In. exact E.
      * assert (Hn : ~ In (lower U eng) loanwords).
        { intros I. apply mem_str_In in I. congruence. }
        rewrite (@identical_dropped U eng ger Hn Heq) in K. discriminate.
    + intros I. exact (@loanword_kept U eng ger I Heq).
  - intros Hn. exact (@identical_dropped U eng ger Hn Heq).
Qed.

Lemma loanword_rule_witness :
  lower plain_db (py "Digital") = lower plain_db (py "digital") /\
  (is_bad_entry plain_db (py "Digital") (py "digital") = Ok false <->
   In (lower plain_db (py "Digital")) loanwords).
Proof.
  split; [reflexivity|].
  exact (proj1 (loanword_rule plain_db (py "Digital") (py "digital") eq_refl)).
Defined.

(** ** When [is_bad_entry] raises *)

Lemma blank_headword (U : unicode_db) (ger : str) :
  is_bad_entry U [] ger =
  if truthy (strip U (lower U ger)) then Raise IndexError else Ok true.
Proof.
  unfold is_bad_entry.
  replace (looks_like_german U []) with false by reflexivity.
  replace (strip U (lower U [])) with (@nil N) by reflexivity.
  replace (lower U []) with (@nil N) by reflexivity.
  replace (mem_str [] loanwords) with false by reflexivity.
  destruct (strip U (lower U ger)) as [|c s]; reflexivity.
Qed.

(** X2. [is_bad_entry] reads [eng[0]] without a length check in its sentence
    rule.  For an empty headword it raises [IndexError] unless the translation
    is blank (then the identity rule answers [True] first); for a non-empty
    headword it always returns a boolean. *)
Theorem bad_entry_index_error (U : unicode_db) (ger : str) :
  is_bad_entry U [] ger =
    (if truthy (strip U (lower U ger)) then Raise IndexError else Ok true) /\
  forall (c : N) (eng : str), exists b, is_bad_entry U (c :: eng) ger = Ok b.
Proof.
  split; [apply blank_headword|]. intros c eng.
  unfold is_bad_entry.
  replace (item (c :: eng) 0) with (Ok c) by reflexivity.
  unfold andm, bind.
  repeat match goal with
  | |- exists _, (if ?b then _ else _) = _ => destruct b; [eexists; reflexivity|]
  | |- exists _, match (if ?b then _ else _) with _ => _ end = _ => destruct b
  | |- exists _, Ok _ = _ => eexists; reflexivity
  end.
Qed.

(** ** The rows written by [create_anki_file] *)

Lemma len_cons (A : Type) (x : A) (l : list A) : len (x :: l) = len l + 1.
Proof. unfold len. cbn [List.length]. rewrite Nat2N.inj_succ. lia. Qed.

Lemma not_seen_weaken (U : unicode_db) (k : str * str) (seen : list (str * str))
    (rows : list entry) :
  Forall (fun e => existsb (pair_eqb (row_key U e)) (k :: seen) = false) rows ->
  Forall (fun e => existsb (pair_eqb (row_key U e)) seen = false) rows /\
  ~ In k (map (row_key U) rows).
Proof.
  induction 1 as [|e rows He _ IH]; [split; [constructor | intros []]|].
  cbn [existsb] in He. apply orb_false_iff in He. destruct He as [Hk He].
  destruct IH as [IH1 IH2]. split; [constructor; assumption|].
  cbn [map]. intros [E|I]; [|exact (IH2 I)].
  rewrite E in Hk. rewrite (proj2 (pair_eqb_eq k k) eq_refl) in Hk. discriminate.
Qed.

(** The loop of [create_anki_file], from any state: what it appends to the
    file and adds to the count. *)
Lemma write_rows_shape (U : unicode_db) (english : bool) (vocabulary : list entry) :
  forall seen f written,
  exists rows : list entry,
    write_rows U english vocabulary seen f written
      = (f ++ rows_text rows, written + len rows) /\
    subsequence rows (map (stripped_entry U) vocabulary) /\
    Forall (fun e => 2 <= len (fst e) /\ 2 <= len (snd e)) rows /\
    Forall (fun e => existsb (pair_eqb (row_key U e)) seen = false) rows /\
    NoDup (map (row_key U) rows) /\
    (english = false ->
     Forall (fun e => aggressive_skip U (fst e) (snd e) = false) rows).
Proof.
  induction vocabulary as [|[front back] rest IH]; intros seen f written.
  - exists []. cbn [write_rows]. unfold rows_text. cbn [map List.concat].
    rewrite app_nil_r. replace (len (@nil entry)) with 0 by reflexivity.
    rewrite N.add_0_r. repeat split; constructor.
  - cbn [write_rows map].
    change (stripped_entry U (front, back)) with (strip U front, strip U back).
    set (front' := strip U front). set (back' := strip U back).
    destruct (existsb (pair_eqb (lower U front', lower U back')) seen) eqn:Hseen.
    { destruct (IH seen f written) as (rows & E & Hsub & L & K & D & G).
      exists rows. repeat split; try assumption. constructor. exact Hsub. }
    destruct (negb (truthy front') || negb (truthy back') || (len front' <? 2)
              || (len back' <? 2)) eqn:Hshort.
    { destruct (IH ((lower U front', lower U back') :: seen) f written)
        as (rows & E & Hsub & L & K & D & G).
      apply not_seen_weaken in K. destruct K as [K _].
      exists rows. repeat split; try assumption. constructor. exact Hsub. }
    assert (Hlong : 2 <= len front' /\ 2 <= len back').
    { rewrite !orb_false_iff in Hshort. destruct Hshort as [[_ H1] H2].
      apply N.ltb_ge in H1, H2. split; assumption. }
    assert (Hwrite : forall (skip : bool), skip = false \/ english = true ->
      exists rows : list entry,
        write_rows U english rest ((lower U front', lower U back') :: seen)
          (f ++ anki_row front' back') (written + 1)
          = (f ++ rows_text rows, written + len rows) /\
        subsequence rows ((front', back') :: map (stripped_entry U) rest) /\
        Forall (fun e => 2 <= len (fst e) /\ 2 <= len (snd e)) rows /\
        Forall (fun e => existsb (pair_eqb (row_key U e)) seen = false) rows /\
        NoDup (map (row_key U) rows) /\
        (english = false ->
         aggressive_skip U front' back' = skip ->
         Forall (fun e => aggressive_skip U (fst e) (snd e) = false) rows)).
    { intros skip Hskip.
      destruct (IH ((lower U front', lower U back') :: seen)
                   (f ++ anki_row front' back') (written + 1))
        as (rows & E & Hsub & L & K & D & G).
      apply not_seen_weaken in K. destruct K as [K Hnew].
      exists ((front', back') :: rows). rewrite E. unfold rows_text.
      cbn [map List.concat fst snd]. rewrite len_cons, <- app_assoc.
      split; [f_equal; rewrite <- N.add_assoc; f_equal; apply N.add_comm|].
      split; [constructor; exact Hsub|].
      split; [constructor; [exact Hlong | exact L]|].
      split; [constructor; [exact Hseen | exact K]|].
      split; [constructor; [exact Hnew | exact D]|].
      intros He Hs. constructor; [|exact (G He)].
      destruct Hskip as [->|Ht]; [exact Hs | congruence]. }
    destruct english.
    + destruct (Hwrite true (or_intror eq_refl)) as (rows & E & Hsub & L & K & D & G).
      exists rows. repeat split; try assumption. discriminate.
    + destruct (aggressive_skip U front' back') eqn:Hskip.
      * destruct (IH ((lower U front', lower U back') :: seen) f written)
          as (rows & E & Hsub & L & K & D & G).
        apply not_seen_weaken in K. destruct K as [K _].
        exists rows. repeat split; try assumption. constructor. exact Hsub.
      * destruct (Hwrite false (or_introl eq_refl)) as (rows & E & Hsub & L & K & D & G).
        exists rows. repeat split; try assumption. intros _. apply G; reflexivity.
Qed.

(** X3. The file left by [create_anki_file] is the four header lines
    followed by one row per kept entry, and the returned count is the number
    of rows.  The kept entries are input entries with both fields stripped,
    in input order; both fields of each have at least two characters; and no
    two of them agree on both fields when case is ignored. *)
Theorem anki_file_shape
    (U : unicode_db) (vocabulary : list entry) (deck_name notetype language : str) :
  exists rows : list entry,
    create_anki_file U vocabulary deck_name notetype language
      = (anki_header (py "false") deck_name notetype ++ rows_text rows, len rows) /\
    subsequence rows (map (stripped_entry U) vocabulary) /\
    Forall (fun e => 2 <= len (fst e) /\ 2 <= len (snd e)) rows /\
    NoDup (map (row_key U) rows).
Proof.
  unfold create_anki_file.
  destruct (write_rows_shape U (str_eqb language (py "english")) vocabulary []
              (anki_header (py "false") deck_name notetype) 0)
    as (rows & E & Hsub & L & _ & D & _).
  exists rows. rewrite E, N.add_0_l. repeat split; assumption.
Qed.

Lemma aggressive_skip_false (U : unicode_db) (front back : str) :
  aggressive_skip U front back = false ->
  (endswith back (py "-") || endswith back (py " eine") || endswith back (py " ein")
     || endswith back (py " im") = false) /\
  (contains (py "(inv.)") back || contains (py "invariable") back
     || contains (py "bedeutet") back = false) /\
  existsb (fun s => startswith front s)
    [py "ein "; py "eine "; py "der "; py "die "; py "das "] = false /\
  len back <= 50 /\
  mem_chr (chr "?") back = false /\
  existsb (fun s => startswith back s) sentence_starters = false /\
  existsb (fun ind => contains (lower U ind) (lower U back)) sentence_indicators = false /\
  mem_str back [py "ang"; py "der"; py "die"; py "das"; py "ein"; py "eine"] = false.
Proof.
  unfold aggressive_skip.
  destruct (endswith back (py "-") || endswith back (py " eine")
            || endswith back (py " ein") || endswith back (py " im")); [discriminate|].
  destruct (contains (py "(inv.)") back || contains (py "invariable") back
            || contains (py "bedeutet") back); [discriminate|].
  destruct (existsb (fun s => startswith front s) _); [discriminate|].
  destruct (50 <? len back) eqn:Hlen; [discriminate|].
  destruct (mem_chr (chr "?") back); [discriminate|].
  destruct (existsb (fun s => startswith back s) sentence_starters); [discriminate|].
  destruct (existsb _ sentence_indicators); [discriminate|].
  destruct (mem_str back _); [discriminate|].
  intros _. apply N.ltb_ge in Hlen. repeat split; assumption.
Qed.

(** X4. For a language other than English, [create_anki_file] writes only
    rows that pass its filter for OCR vocabulary: the translation does not
    end with a hyphen or a dangling article, holds no metadata marker, no
    question mark, no sentence starter or sentence indicator, is at most 50
    characters long and is not a bare article; the headword does not start
    with a German article. *)
Theorem foreign_rows_filtered
    (U : unicode_db) (vocabulary : list entry) (deck_name notetype language : str) :
  str_eqb language (py "english") = false ->
  exists rows : list entry,
    create_anki_file U vocabulary deck_name notetype language
      = (anki_header (py "false") deck_name notetype ++ rows_text rows, len rows) /\
    Forall (fun e =>
      let front := fst e in
      let back := snd e in
      (endswith back (py "-") || endswith back (py " eine") || endswith back (py " ein")
         || endswith back (py " im") = false) /\
      (contains (py "(inv.)") back || contains (py "invariable") back
         || contains (py "bedeutet") back = false) /\
      existsb (fun s => startswith front s)
        [py "ein "; py "eine "; py "der "; py "die "; py "das "] = false /\
      len back <= 50 /\
      mem_chr (chr "?") back = false /\
      existsb (fun s => startswith back s) sentence_starters = false /\
      existsb (fun ind => contains (lower U ind) (lower U back)) sentence_indicators
        = false /\
      mem_str back [py "ang"; py "der"; py "die"; py "das"; py "ein"; py "eine"] = false)
    rows.
Proof.
  intros Hl. unfold create_anki_file. rewrite Hl.
  destruct (write_rows_shape U false vocabulary []
              (anki_header (py "false") deck_name notetype) 0)
    as (rows & E & _ & _ & _ & _ & G).
  exists rows. rewrite E, N.add_0_l. split; [reflexivity|].
  specialize (G eq_refl). revert G. apply Forall_impl.
  intros [front back] H. cbn [fst snd] in *. cbv zeta.
  exact (aggressive_skip_false U front back H).
Qed.

Lemma foreign_rows_filtered_witness :
  str_eqb (py "french") (py "english") = false /\
  exists rows : list entry,
    create_anki_file plain_db sample_french (py "France Unit-2")
                     (py "Einfach (beide Richtungen)") (py "french")
      = (anki_header (py "false") (py "France Unit-2") (py "Einfach (beide Richtungen)")
           ++ rows_text rows, len rows) /\
    Forall (fun e => len (snd e) <= 50 /\ mem_chr (chr "?") (snd e) = false) rows.
Proof.
  split; [reflexivity|].
  destruct (foreign_rows_filtered plain_db sample_french (py "France Unit-2")
              (py "Einfach (beide Richtungen)") (py "french") eq_refl)
    as (rows & E & F).
  exists rows. split; [exact E|].
  revert F. apply Forall_impl. intros e H. cbv zeta in H. tauto.
Defined.

(** ** Entries seen before are not written again *)

Lemma seen_In (k : str * str) (seen : list (str * str)) :
  existsb (pair_eqb k) seen = true <-> In k seen.
Proof.
  rewrite existsb_exists. split.
  - intros (x & Hx & E). apply pair_eqb_eq in E. subst. exact Hx.
  - intros H. exists k. split; [exact H | apply pair_eqb_eq; reflexivity].
Qed.

(** Entries whose keys are all in [seen] leave the file and the count as
    they are. *)
Lemma write_rows_seen (U : unicode_db) (english : bool) (vocabulary : list entry) :
  forall seen f written,
  (forall e, In e vocabulary -> In (written_key U e) seen) ->
  write_rows U english vocabulary seen f written = (f, written).
Proof.
  induction vocabulary as [|[front back] rest IH]; intros seen f written H;
    [reflexivity|].
  cbn [write_rows].
  assert (Hk : existsb (pair_eqb (lower U (strip U front), lower U (strip U back))) seen
               = true).
  { apply seen_In. apply (H (front, back)). left. reflexivity. }
  rewrite Hk. apply IH. intros e He. apply H. right. exact He.
Qed.

(** The loop over [v1 ++ v2] is the loop over [v1] followed by the loop over
    [v2], started with a set [seen] that holds the keys of [v1]. *)
Lemma write_rows_app (U : unicode_db) (english : bool) (v1 v2 : list entry) :
  forall seen f written,
  exists seen',
    write_rows U english (v1 ++ v2) seen f written
      = write_rows U english v2 seen'
          (fst (write_rows U english v1 seen f written))
          (snd (write_rows U english v1 seen f written)) /\
    (forall k, In k seen -> In k seen') /\
    (forall e, In e v1 -> In (written_key U e) seen').
Proof.
  induction v1 as [|[front back] rest IH]; intros seen f written.
  - exists seen. cbn [app write_rows fst snd]. split; [reflexivity|].
    split; [auto | intros e []].
  - cbn [app write_rows].
    set (key := (lower U (strip U front), lower U (strip U back))).
    assert (Hstep : forall seen1 f1 w1,
      (forall k, In k seen -> In k seen1) -> In key seen1 ->
      exists seen',
        write_rows U english (rest ++ v2) seen1 f1 w1
          = write_rows U english v2 seen'
              (fst (write_rows U english rest seen1 f1 w1))
              (snd (write_rows U english rest seen1 f1 w1)) /\
        (forall k, In k seen -> In k seen') /\
        (forall e, In e ((front, back) :: rest) -> In (written_key U e) seen')).
    { intros seen1 f1 w1 Hsub Hkey.
      destruct (IH seen1 f1 w1) as (seen' & E & Hs & Hv).
      exists seen'. split; [exact E|]. split; [auto|].
      intros e [<-|He]; [apply Hs; exact Hkey | apply Hv; exact He]. }
    destruct (existsb (pair_eqb key) seen) eqn:Hseen.
    { apply Hstep; [auto | apply seen_In; exact Hseen]. }
    assert (Hsub : forall k, In k seen -> In k (key :: seen)) by (intros; right; assumption).
    assert (Hkey : In key (key :: seen)) by (left; reflexivity).
    destruct (negb (truthy (strip U front)) || negb (truthy (strip U back))
              || (len (strip U front) <? 2) || (len (strip U back) <? 2)).
    { apply Hstep; assumption. }
    destruct english; [apply Hstep; assumption|].
    destruct (aggressive_skip U (strip U front) (strip U back)); apply Hstep; assumption.
Qed.

(** X5. Entries whose stripped, case-folded pair already occurs earlier in
    the list have no effect on the result of [create_anki_file]: the file and
    the count are those of the list without them.  In particular writing a
    list followed by itself gives the file of the list. *)
Theorem repeated_entries_ignored
    (U : unicode_db) (vocabulary again : list entry) (deck_name notetype language : str) :
  (forall e, In e again -> In (written_key U e) (map (written_key U) vocabulary)) ->
  create_anki_file U (vocabulary ++ again) deck_name notetype language
  = create_anki_file U vocabulary deck_name notetype language.
Proof.
  intros H. unfold create_anki_file.
  destruct (write_rows_app U (str_eqb language (py "english")) vocabulary again []
              (anki_header (py "false") deck_name notetype) 0)
    as (seen' & E & _ & Hv).
  rewrite E. rewrite write_rows_seen.
  - destruct (write_rows U _ vocabulary [] _ 0). reflexivity.
  - intros e He. apply H in He. apply in_map_iff in He.
    destruct He as (e0 & Hk & He0). rewrite <- Hk. apply Hv. exact He0.
Qed.

Lemma repeated_entries_ignored_witness :
  (forall e, In e sample_vocabulary ->
     In (written_key plain_db e) (map (written_key plain_db) sample_vocabulary)) /\
  create_anki_file plain_db (sample_vocabulary ++ sample_vocabulary) (py "English Unit-1")
                   (py "Einfach (beide Richtungen)") (py "english")
  = create_anki_file plain_db sample_vocabulary (py "English Unit-1")
                     (py "Einfach (beide Richtungen)") (py "english").
Proof.
  assert (H : forall e, In e sample_vocabulary ->
     In (written_key plain_db e) (map (written_key plain_db) sample_vocabulary))
    by (intros e He; apply in_map; exact He).
  split; [exact H|].
  exact (repeated_entries_ignored plain_db sample_vocabulary sample_vocabulary
           (py "English Unit-1") (py "Einfach (beide Richtungen)") (py "english") H).
Defined.

(** ** What [load_anki_file] returns *)

Lemma dropwhile_In (p : N -> bool) (s : str) (c : N) : In c (dropwhile p s) -> In c s.
Proof.
  induction s as [|x s IH]; [intros []|]. cbn [dropwhile].
  destruct (p x); [intros H; right; exact (IH H) | intros H; exact H].
Qed.

Lemma dropwhile_head (p : N -> bool) (s : str) (c : N) (t : str) :
  dropwhile p s = c :: t -> p c = false.
Proof.
  induction s as [|x s IH]; [discriminate|]. cbn [dropwhile].
  destruct (p x) eqn:E; [exact IH | intros H; injection H as -> _; exact E].
Qed.

Lemma strip_In (U : unicode_db) (s : str) (c : N) : In c (strip U s) -> In c s.
Proof.
  unfold strip, strip_by, rstrip_by, lstrip_by. intros H.
  apply in_rev, dropwhile_In, in_rev, dropwhile_In in H. exact H.
Qed.

(** A stripped string does not start with white space. *)
Lemma strip_first (U : unicode_db) (s : str) (c : N) (t : str) :
  strip U s = c :: t -> isspace U c = false.
Proof.
  unfold strip, strip_by, rstrip_by, lstrip_by.
  destruct (dropwhile (isspace U) s) as [|d a] eqn:E; [discriminate|].
  pose proof (dropwhile_head _ _ E) as Hd.
  cbn [rev]. rewrite dropwhile_app_stop by exact Hd.
  rewrite rev_app_distr. cbn [rev app]. intros H. injection H as -> _. exact Hd.
Qed.

(** The final line feed of a line is stripped: what [strip] leaves comes
    from before it. *)
Lemma strip_line_In (U : unicode_db) (body : str) (c : N) :
  In c (strip U (body ++ [LF])) -> In c body.
Proof.
  unfold strip, strip_by, rstrip_by, lstrip_by. intros H.
  apply (proj2 (in_rev _ _)) in H. revert H.
  induction body as [|x l IH].
  - cbn. intros [].
  - cbn [app dropwhile]. destruct (isspace U x).
    + intros H. right. exact (IH H).
    + change (x :: l ++ [LF]) with ((x :: l) ++ [LF]). rewrite rev_app_distr.
      cbn [rev app dropwhile]. rewrite isspace_LF.
      intros H. apply dropwhile_In in H.
      change (rev l ++ [x]) with (rev (x :: l)) in H.
      apply (proj2 (in_rev _ _)) in H. exact H.
Qed.

Lemma universal_newlines_no_CR (s : str) : mem_chr CR (universal_newlines s) = false.
Proof.
  assert (G : forall n s, (List.length s <= n)%nat ->
                          mem_chr CR (universal_newlines s) = false).
  { clear s. induction n as [|n IH]; intros s Hn.
    - destruct s; [reflexivity | cbn in Hn; lia].
    - destruct s as [|c s]; [reflexivity|]. cbn [List.length] in Hn.
      cbn [universal_newlines]. destruct (c =? CR) eqn:Ec.
      + destruct s as [|d s]; [reflexivity|]. cbn [List.length] in Hn.
        destruct (d =? LF).
        * rewrite mem_chr_cons. rewrite (IH s) by lia. reflexivity.
        * rewrite mem_chr_cons. rewrite (IH (d :: s)) by (cbn [List.length]; lia).
          reflexivity.
      + rewrite mem_chr_cons, N.eqb_sym, Ec. rewrite (IH s) by lia. reflexivity. }
  exact (G (List.length s) s (le_n _)).
Qed.

(** Every line is a run of characters of the text without a line feed,
    possibly followed by one line feed. *)
Lemma lines_acc_bodies (s : str) :
  forall cur, mem_chr LF cur = false ->
  Forall (fun line => exists body,
            (line = body ++ [LF] \/ line = body) /\
            forall c, In c body -> c <> LF /\ (In c s \/ In c cur))
         (lines_acc s cur).
Proof.
  induction s as [|x s IH]; intros cur Hcur.
  - cbn [lines_acc]. destruct cur as [|y cur]; constructor; [|constructor].
    exists (rev (y :: cur)). split; [right; reflexivity|].
    intros c Hc. apply (proj2 (in_rev _ _)) in Hc. split; [|right; exact Hc].
    intros ->. assert (mem_chr LF (y :: cur) = true); [|congruence].
    apply existsb_exists. exists LF. split; [exact Hc | apply N.eqb_refl].
  - cbn [lines_acc]. destruct (x =? LF) eqn:Ex.
    + apply N.eqb_eq in Ex. subst x. constructor.
      * exists (rev cur). split; [left; reflexivity|].
        intros c Hc. apply (proj2 (in_rev _ _)) in Hc. split; [|right; exact Hc].
        intros ->. assert (mem_chr LF cur = true); [|congruence].
        apply existsb_exists. exists LF. split; [exact Hc | apply N.eqb_refl].
      * specialize (IH [] eq_refl). revert IH. apply Forall_impl.
        intros line (body & Hl & Hb). exists body. split; [exact Hl|].
        intros c Hc. destruct (Hb c Hc) as [Hn [H|[]]]. split; [exact Hn|].
        left. right. exact H.
    + assert (Hcur' : mem_chr LF (x :: cur) = false).
      { rewrite mem_chr_cons, N.eqb_sym, Ex, Hcur. reflexivity. }
      specialize (IH (x :: cur) Hcur'). revert IH. apply Forall_impl.
      intros line (body & Hl & Hb). exists body. split; [exact Hl|].
      intros c Hc. destruct (Hb c Hc) as [Hn [H|[H|H]]]; split; try exact Hn.
      * left. right. exact H.
      * left. left. exact H.
      * right. exact H.
Qed.

(** The fields of [s.split(sep)] taken together hold the characters of [s]
    other than [sep]; the first field starts with what was read before. *)
Lemma split_on_fields (sep : N) (s : str) :
  forall cur, mem_chr sep cur = false ->
  Forall (fun field => forall c, In c field -> c <> sep /\ (In c s \/ In c cur))
         (split_on_acc sep s cur).
Proof.
  induction s as [|x s IH]; intros cur Hcur.
  - cbn [split_on_acc]. constructor; [|constructor].
    intros c Hc. apply (proj2 (in_rev _ _)) in Hc. split; [|right; exact Hc].
    intros ->. assert (mem_chr sep cur = true); [|congruence].
    apply existsb_exists. exists sep. split; [exact Hc | apply N.eqb_refl].
  - cbn [split_on_acc]. destruct (x =? sep) eqn:Ex.
    + constructor.
      * intros c Hc. apply (proj2 (in_rev _ _)) in Hc. split; [|right; exact Hc].
        intros ->. assert (mem_chr sep cur = true); [|congruence].
        apply existsb_exists. exists sep. split; [exact Hc | apply N.eqb_refl].
      * specialize (IH [] eq_refl). revert IH. apply Forall_impl.
        intros field Hf c Hc. destruct (Hf c Hc) as [Hn [H|[]]]. split; [exact Hn|].
        left. right. exact H.
    + assert (Hcur' : mem_chr sep (x :: cur) = false).
      { rewrite mem_chr_cons, N.eqb_sym, Ex, Hcur. reflexivity. }
      specialize (IH (x :: cur) Hcur'). revert IH. apply Forall_impl.
      intros field Hf c Hc. destruct (Hf c Hc) as [Hn [H|[H|H]]]; split; try exact Hn.
      * left. right. exact H.
      * left. left. exact H.
      * right. exact H.
Qed.

Lemma split_on_first (sep : N) (s : str) :
  forall cur p0 rest, split_on_acc sep s cur = p0 :: rest ->
  exists tail, p0 = rev cur ++ tail.
Proof.
  induction s as [|x s IH]; intros cur p0 rest.
  - cbn [split_on_acc]. intros H. injection H as <- _. exists []. rewrite app_nil_r.
    reflexivity.
  - cbn [split_on_acc]. destruct (x =? sep).
    + intros H. injection H as <- _. exists []. rewrite app_nil_r. reflexivity.
    + intros H. destruct (IH _ _ _ H) as [tail ->]. exists (x :: tail).
      cbn [rev]. rewrite <- app_assoc. reflexivity.
Qed.

Lemma not_mem_chr (c : N) (s : str) : (forall x, In x s -> x <> c) -> mem_chr c s = false.
Proof.
  intros H. destruct (mem_chr c s) eqn:E; [|reflexivity].
  apply existsb_exists in E. destruct E as (x & Hx & Ex).
  apply N.eqb_eq in Ex. subst x. exfalso. exact (H c Hx eq_refl).
Qed.
Lemma plain_field_chars (f : str) :
  (forall c, In c f -> c <> TAB /\ c <> LF /\ c <> CR) -> plain_field f = true.
Proof.
  intros H. unfold plain_field, one_line.
  rewrite !not_mem_chr; [reflexivity| | |]; intros x Hx; apply (H x Hx).
Qed.

(** What the loop of [load_anki_file] appends: the first two fields of a
    stripped line, the first starting with the first character of the line,
    which is neither white space nor the comment marker. *)
Lemma load_rows_fields (U : unicode_db) (P : entry -> Prop) (file : list str) :
  (forall line p0 p1,
     In line file ->
     first_is (fun c => negb (isspace U c) && negb (c =? chr "#")) p0 = true ->
     (forall c, In c p0 -> c <> TAB /\ In c (strip U line)) ->
     (forall c, In c p1 -> c <> TAB /\ In c (strip U line)) ->
     P (p0, p1)) ->
  forall entries, Forall P entries -> Forall P (load_rows U file entries).
Proof.
  induction file as [|line file IH]; intros HP entries He; [exact He|].
  assert (Hrest : forall entries', Forall P entries' ->
                                   Forall P (load_rows U file entries')).
  { apply IH. intros l p0 p1 Hl. apply HP. right. exact Hl. }
  cbn [load_rows].
  destruct (strip U line) as [|c0 t] eqn:Hs; [exact (Hrest _ He)|].
  cbn [truthy negb orb].
  replace (startswith (c0 :: t) (py "#")) with (chr "#" =? c0)
    by (cbn [startswith py]; symmetry; apply andb_true_r).
  destruct (chr "#" =? c0) eqn:Hm; [exact (Hrest _ He)|].
  pose proof (strip_first U line Hs) as Hsp.
  assert (Htab : (c0 =? TAB) = false).
  { destruct (c0 =? TAB) eqn:E; [|reflexivity]. apply N.eqb_eq in E. subst c0.
    discriminate Hsp. }
  unfold split_on. cbn [split_on_acc]. rewrite Htab.
  destruct (split_on_acc TAB t [c0]) as [|p0 [|p1 more]] eqn:Hsplit;
    try exact (Hrest _ He).
  apply Hrest. apply Forall_app. split; [exact He|]. constructor; [|constructor].
  assert (Hc : mem_chr TAB [c0] = false).
  { rewrite mem_chr_cons, N.eqb_sym, Htab. reflexivity. }
  pose proof (split_on_fields TAB t [c0] Hc) as F. rewrite Hsplit in F.
  destruct (split_on_first _ _ _ Hsplit) as [tail ->].
  inversion F as [|? ? F0 F1]; subst. inversion F1 as [|? ? F2 _]; subst.
  apply (HP line); [left; reflexivity | | |].
  - cbn [rev app first_is]. rewrite Hsp, N.eqb_sym, Hm. reflexivity.
  - rewrite Hs. intros c Hc0. destruct (F0 c Hc0) as [Hn [H|[H|[]]]]; split; try exact Hn.
    + right. exact H.
    + left. exact H.
  - rewrite Hs. intros c Hc1. destruct (F2 c Hc1) as [Hn [H|[H|[]]]]; split; try exact Hn.
    + right. exact H.
    + left. exact H.
Qed.

(** X6. Every entry returned by [load_anki_file] has a non-empty headword
    that starts neither with white space nor with the comment marker, and
    neither field holds a tab or a line break.  (The translation may be
    empty.) *)
Theorem loaded_entries_wellformed (U : unicode_db) (content : str) :
  Forall (fun e =>
            first_is (fun c => negb (isspace U c) && negb (c =? chr "#")) (fst e) = true /\
            plain_field (fst e) = true /\ plain_field (snd e) = true)
         (load_anki_file U content) /\
  load_anki_file U (py "a" ++ [TAB; TAB] ++ py "b") = [(py "a", [])].
Proof.
  split; [|reflexivity].
  unfold load_anki_file, file_lines. apply load_rows_fields; [|constructor].
  intros line p0 p1 Hl H0 C0 C1. cbn [fst snd].
  pose proof (lines_acc_bodies (universal_newlines content) [] eq_refl) as B.
  pose proof (proj1 (Forall_forall _ _) B line Hl) as (body & Hline & Hbody).
  assert (Hstrip : forall c, In c (strip U line) -> c <> LF /\ c <> CR).
  { intros c Hc.
    assert (Hb : In c body).
    { destruct Hline as [-> | ->]; [exact (strip_line_In U _ _ Hc) | exact (strip_In U _ _ Hc)]. }
    destruct (Hbody c Hb) as [Hn [Hin|[]]]. split; [exact Hn|].
    intros ->. pose proof (universal_newlines_no_CR content) as K.
    assert (mem_chr CR (universal_newlines content) = true); [|congruence].
    apply existsb_exists. exists CR. split; [exact Hin | apply N.eqb_refl]. }
  split; [exact H0|].
  split; apply plain_field_chars; intros c Hc.
  - destruct (C0 c Hc) as [Ht Hi]. destruct (Hstrip c Hi). auto.
  - destruct (C1 c Hc) as [Ht Hi]. destruct (Hstrip c Hi). auto.
Qed.

(** ** Every entry is reported once *)

Section Accounting.

Variable U : unicode_db.
Variable world : Type.
Variable translate_text : str -> str -> str -> str -> world -> option str * world.
Variable ratio : str -> str -> float.
Variable format_2f : float -> str.
Variables from_lang to_lang access_token : str.
Variable threshold : float.
Variable raw_text : str.

Let turn := validate_entry U translate_text ratio format_2f from_lang to_lang access_token
                           threshold raw_text.

Lemma perm_insert (A : Type) (a b : list A) (x : A) :
  Permutation (a ++ x :: b) (a ++ b ++ [x]).
Proof. apply Permutation_app_head. apply Permutation_cons_append. Qed.

Lemma validate_entry_accounts (e : entry) (st : vstate world) :
  Permutation (map report_key (all_reports (v_results (turn e st))))
              (map report_key (all_reports (v_results st)) ++ [e]) /\
  v_calls (turn e st) = v_calls st ++ (if long_enough e then [fst e] else []).
Proof.
  destruct e as [fw tr]. unfold turn, validate_entry, long_enough.
  cbn [fst snd].
  destruct ((len fw <? 2) || (len tr <? 2)).
  - cbn [negb v_results v_calls]. rewrite app_nil_r. split; [|reflexivity].
    unfold all_reports, add_suspicious. cbn [valid suspicious errors].
    rewrite !map_app. cbn [map report_key too_short foreign ocr].
    rewrite <- !app_assoc. apply Permutation_app_head. cbn [app].
    apply (perm_insert (map report_key (suspicious (v_results st)))).
  - cbn [negb].
    destruct (translate_text fw from_lang to_lang access_token (v_world st))
      as [[translator_result|] w].
    + destruct (threshold <=? _)%float; cbn [v_results v_calls]; (split; [|reflexivity]).
      * unfold all_reports, add_valid. cbn [valid suspicious errors].
        rewrite !map_app. cbn [map]. rewrite <- !app_assoc. cbn [app].
        change (report_key (scored U ratio fw tr translator_result
                                   raw_text None))
          with (fw, tr).
        rewrite (app_assoc (map report_key (suspicious (v_results st)))).
        apply (perm_insert (map report_key (valid (v_results st)))).
      * unfold all_reports, add_suspicious. cbn [valid suspicious errors].
        rewrite !map_app. cbn [map]. rewrite <- !app_assoc. cbn [app].
        apply Permutation_app_head.
        apply (perm_insert (map report_key (suspicious (v_results st)))).
    + cbn [v_results v_calls]. split; [|reflexivity].
      unfold all_reports, add_error. cbn [valid suspicious errors].
      rewrite !map_app. cbn [map]. rewrite <- !app_assoc. reflexivity.
Qed.

Lemma validate_loop_accounts (entries : list entry) :
  forall st : vstate world,
  let st' := validate_loop U translate_text ratio format_2f from_lang to_lang access_token
                           threshold raw_text entries st in
  Permutation (map report_key (all_reports (v_results st')))
              (map report_key (all_reports (v_results st)) ++ entries) /\
  v_calls st' = v_calls st ++ map fst (filter long_enough entries).
Proof.
  induction entries as [|e rest IH]; intros st; cbn zeta.
  - cbn [validate_loop fold_left filter map]. rewrite !app_nil_r.
    split; reflexivity.
  - assert (Hstep :
      validate_loop U translate_text ratio format_2f from_lang to_lang access_token
                    threshold raw_text (e :: rest) st
      = validate_loop U translate_text ratio format_2f from_lang to_lang access_token
                      threshold raw_text rest (turn e st)) by reflexivity.
    rewrite Hstep. pose proof (IH (turn e st)) as H. cbn zeta in H.
    destruct H as [P C]. destruct (validate_entry_accounts e st) as [P1 C1]. split.
    + rewrite P. rewrite P1. rewrite <- app_assoc. reflexivity.
    + rewrite C, C1. cbn [filter]. destruct (long_enough e); cbn [map app];
        rewrite <- app_assoc; reflexivity.
Qed.

End Accounting.

(** X7. [validate_vocabulary] reports every entry exactly once: the
    (foreign, ocr) pairs of the valid, suspicious and error reports taken
    together are the input entries up to order, so the three counts add up to
    the number of entries.  The translator is called once for each entry
    whose two fields have at least two characters, in input order, and for no
    other entry. *)
Theorem validation_accounting
    (U : unicode_db) (world : Type)
    (translate_text : str -> str -> str -> str -> world -> option str * world)
    (ratio : str -> str -> float) (format_2f : float -> str)
    (entries : list entry) (from_lang to_lang access_token : str)
    (threshold : float) (raw_text : str) (w : world) :
  let st := validate_vocabulary U translate_text ratio format_2f entries
              from_lang to_lang access_token threshold raw_text w in
  Permutation (map report_key (all_reports (v_results st))) entries /\
  (List.length (valid (v_results st)) + List.length (suspicious (v_results st))
   + List.length (errors (v_results st)) = List.length entries)%nat /\
  v_calls st = map fst (filter long_enough entries).
Proof.
  cbn zeta. unfold validate_vocabulary.
  destruct (validate_loop_accounts U translate_text ratio format_2f from_lang to_lang
              access_token threshold raw_text entries
              {| v_results := {| valid := []; suspicious := []; errors := [] |};
                 v_world := w; v_calls := [] |}) as [P C].
  cbn [v_results v_calls all_reports valid suspicious errors map app] in P, C.
  split; [exact P|]. split; [|exact C].
  apply Permutation_length in P. rewrite length_map in P.
  unfold all_reports in P. rewrite !length_app in P.
  refine (eq_trans _ P). lia.
Qed.

(** ** Word overlap *)

Lemma to_set_In (words : list str) (w : str) : In w (to_set words) <-> In w words.
Proof.
  induction words as [|x words IH]; [reflexivity|]. cbn [to_set].
  destruct (mem_str x words) eqn:E.
  - rewrite IH. split; [intros H; right; exact H|].
    intros [<-|H]; [apply mem_str_In; exact E | exact H].
  - cbn [In]. rewrite IH. reflexivity.
Qed.

Lemma to_set_NoDup (words : list str) : NoDup (to_set words).
Proof.
  induction words as [|x words IH]; [constructor|]. cbn [to_set].
  destruct (mem_str x words) eqn:E; [exact IH|]. constructor; [|exact IH].
  rewrite to_set_In. intros H. apply mem_str_In in H. congruence.
Qed.

Lemma set_inter_length (a b : list str) :
  NoDup a -> NoDup b -> List.length (set_inter a b) = List.length (set_inter b a).
Proof.
  intros Ha Hb. apply Permutation_length. apply NoDup_Permutation.
  - apply NoDup_filter. exact Ha.
  - apply NoDup_filter. exact Hb.
  - intros x. unfold set_inter. rewrite !filter_In, !mem_str_In. tauto.
Qed.

Lemma set_union_NoDup (a b : list str) : NoDup a -> NoDup b -> NoDup (set_union a b).
Proof.
  intros Ha Hb. unfold set_union, set_diff. apply NoDup_app.
  - exact Ha.
  - apply NoDup_filter. exact Hb.
  - intros x Hx H. apply filter_In in H. destruct H as [_ H].
    apply negb_true_iff in H. apply mem_str_In in Hx. congruence.
Qed.

Lemma set_union_In (a b : list str) (x : str) :
  In x (set_union a b) <-> In x a \/ In x b.
Proof.
  unfold set_union, set_diff. rewrite in_app_iff, filter_In, negb_true_iff.
  destruct (mem_str x a) eqn:E.
  - apply mem_str_In in E. split; [intros [H|[_ H]]; [left; exact H | discriminate]|].
    intros _. left. exact E.
  - split; [intros [H|[H _]]; [left|right]; exact H|].
    intros [H|H]; [left; exact H | right; split; [exact H | reflexivity]].
Qed.

Lemma set_union_length (a b : list str) :
  NoDup a -> NoDup b -> List.length (set_union a b) = List.length (set_union b a).
Proof.
  intros Ha Hb. apply Permutation_length. apply NoDup_Permutation.
  - apply set_union_NoDup; assumption.
  - apply set_union_NoDup; assumption.
  - intros x. rewrite !set_union_In. tauto.
Qed.

Lemma float_of_len_length (A : Type) (a b : list A) :
  List.length a = List.length b -> float_of_len a = float_of_len b.
Proof. unfold float_of_len. intros ->. reflexivity. Qed.

Lemma truthy_length (A : Type) (a b : list A) :
  List.length a = List.length b -> truthy a = truthy b.
Proof. destruct a, b; (reflexivity || discriminate). Qed.

(** X8. [word_overlap_score] is symmetric: the score of two texts does not
    depend on which of them comes first. *)
Theorem word_overlap_symmetric (U : unicode_db) (text1 text2 : str) :
  word_overlap_score U text1 text2 = word_overlap_score U text2 text1.
Proof.
  unfold word_overlap_score.
  rewrite (orb_comm (negb (truthy text1))).
  destruct (negb (truthy text2) || negb (truthy text1)); [reflexivity|].
  set (w1 := set_diff (to_set (split U (lower U text1))) stop_words).
  set (w2 := set_diff (to_set (split U (lower U text2))) stop_words).
  assert (N1 : NoDup w1) by (apply NoDup_filter, to_set_NoDup).
  assert (N2 : NoDup w2) by (apply NoDup_filter, to_set_NoDup).
  cbv zeta. rewrite (orb_comm (negb (truthy w1))).
  destruct (negb (truthy w2) || negb (truthy w1)); [reflexivity|].
  rewrite (truthy_length _ _ (set_union_length N1 N2)).
  rewrite (float_of_len_length _ _ (set_inter_length N1 N2)).
  rewrite (float_of_len_length _ _ (set_union_length N1 N2)).
  reflexivity.
Qed.

(** ** Reading back a file of clean rows *)

(** A header followed by the rows of clean entries loads as those entries. *)
Lemma header_rows_load (U : unicode_db) (html deck_name notetype : str) (rows : list entry) :
  one_line html = true -> one_line deck_name = true -> one_line notetype = true ->
  forallb (clean_entry U) rows = true ->
  load_anki_file U (anki_header html deck_name notetype ++ rows_text rows) = rows.
Proof.
  intros Hh Hd Hn Hc.
  apply one_line_parts in Hh, Hd, Hn.
  destruct Hh as [Hh1 Hh2], Hd as [Hd1 Hd2], Hn as [Hn1 Hn2].
  unfold load_anki_file, file_lines, rows_text.
  rewrite universal_newlines_id.
  - rewrite lines_of_header by assumption.
    rewrite lines_of_rows.
    + cbn [app].
      rewrite !load_rows_marked by reflexivity.
      apply load_rows_rows. exact Hc.
    + revert Hc. apply forallb_weaken. intros [front back] H.
      apply clean_entry_parts in H. destruct H as (_ & _ & _ & _ & Pf & Pb & _).
      cbn [fst snd]. rewrite Pf, Pb. reflexivity.
  - rewrite mem_chr_app. rewrite rows_one_line.
    + unfold anki_header. rewrite !mem_chr_app, Hh2, Hd2, Hn2. reflexivity.
    + discriminate.
    + discriminate.
    + revert Hc. apply forallb_weaken. intros [front back] H.
      apply clean_entry_parts in H. destruct H as (_ & _ & _ & _ & Pf & Pb & _).
      apply plain_field_parts in Pf, Pb.
      destruct Pf as (_ & _ & Cf), Pb as (_ & _ & Cb).
      cbn [fst snd]. rewrite Cf, Cb. reflexivity.
Qed.

Lemma plain_field_app (a b : str) :
  plain_field a = true -> plain_field b = true -> plain_field (a ++ b) = true.
Proof.
  intros Ha Hb. apply plain_field_parts in Ha, Hb.
  destruct Ha as (A1 & A2 & A3), Hb as (B1 & B2 & B3).
  unfold plain_field, one_line. rewrite !mem_chr_app, A1, A2, A3, B1, B2, B3. reflexivity.
Qed.

(** The translation with the translator's alternative appended is again a
    clean field. *)
Lemma alternative_clean (U : unicode_db) (front back azure : str) :
  clean_entry U (front, back) = true -> plain_field azure = true ->
  clean_entry U (front, back ++ py " [Azure: " ++ azure ++ py "]") = true.
Proof.
  intros Hc Ha. apply clean_entry_parts in Hc.
  destruct Hc as (Sf & Sb & Lf & Lb & Pf & Pb & Hm).
  unfold clean_entry. cbn [fst snd]. rewrite Sf, Lf, Pf, Hm. cbn [andb negb].
  rewrite !andb_true_r.
  assert (Hs : stripped U (back ++ py " [Azure: " ++ azure ++ py "]") = true).
  { unfold stripped in *. destruct back as [|c back]; [discriminate|].
    apply andb_true_iff in Sb. destruct Sb as [Sb _].
    cbn [app first_is] in Sb |- *. rewrite Sb.
    change (c :: back ++ py " [Azure: " ++ azure ++ py "]")
      with ((c :: back) ++ py " [Azure: " ++ azure ++ py "]").
    rewrite !rev_app_distr. reflexivity. }
  assert (Hl : (2 <=? len (back ++ py " [Azure: " ++ azure ++ py "]")) = true).
  { apply N.leb_le. apply N.leb_le in Lb. unfold len in *. rewrite length_app. lia. }
  assert (Hp : plain_field (back ++ py " [Azure: " ++ azure ++ py "]") = true).
  { repeat apply plain_field_app; (assumption || reflexivity). }
  rewrite Hs, Hl, Hp. reflexivity.
Qed.

Lemma enriched_clean (U : unicode_db) (rs : results) (front back : str) :
  forallb plain_answer (suspicious rs) = true ->
  clean_entry U (front, back) = true ->
  clean_entry U (front, enriched_translation U rs front back) = true.
Proof.
  intros Hp Hc. unfold enriched_translation.
  destruct (is_some (pairs_get (valid rs) (front, back))); [exact Hc|].
  destruct (pairs_get (suspicious rs) (front, back)) as [r|] eqn:Hr; [|exact Hc].
  destruct (translator r) as [azure|] eqn:Ht; [|exact Hc].
  destruct (truthy azure && _); [|exact Hc].
  apply alternative_clean; [exact Hc|].
  apply pairs_get_some in Hr. destruct Hr as [Hin _].
  pose proof (proj1 (forallb_forall _ _) Hp r Hin) as H.
  unfold plain_answer in H. rewrite Ht in H. exact H.
Qed.


(** ** The counts returned by [create_enriched_anki_file] *)

Lemma longer_differs (t x : str) : x <> [] -> str_eqb (t ++ x) t = false.
Proof.
  intros Hx. apply str_eqb_neq. intros E.
  apply (f_equal (@List.length N)) in E. rewrite length_app in E.
  destruct x; [congruence | cbn [List.length] in E; lia].
Qed.

Lemma enrich_rows_counts (U : unicode_db) (rs : results) (original_entries : list entry) :
  forall f count enriched_count,
  snd (enrich_rows U rs original_entries f count enriched_count)
  = (count + len original_entries,
     enriched_count + len (filter (alternative_added U rs) original_entries)).
Proof.
  induction original_entries as [|[fw tr] rest IH]; intros f count enriched_count.
  - cbn [enrich_rows snd filter]. replace (len (@nil entry)) with 0 by reflexivity.
    rewrite !N.add_0_r. reflexivity.
  - assert (Hkeep : forall f',
      enriched_translation U rs fw tr = tr ->
      snd (enrich_rows U rs rest f' (count + 1) enriched_count)
      = (count + len ((fw, tr) :: rest),
         enriched_count + len (filter (alternative_added U rs) ((fw, tr) :: rest)))).
    { intros f' E. rewrite IH. cbn [filter]. unfold alternative_added at 2.
      cbn [fst snd]. rewrite E, str_eqb_refl. cbn [negb].
      rewrite len_cons. f_equal. rewrite <- N.add_assoc. f_equal. apply N.add_comm. }
    assert (Hadd : forall f' x, x <> [] ->
      enriched_translation U rs fw tr = tr ++ x ->
      snd (enrich_rows U rs rest f' (count + 1) (enriched_count + 1))
      = (count + len ((fw, tr) :: rest),
         enriched_count + len (filter (alternative_added U rs) ((fw, tr) :: rest)))).
    { intros f' x Hx E. rewrite IH. cbn [filter]. unfold alternative_added at 2.
      cbn [fst snd]. rewrite E, (longer_differs tr Hx). cbn [negb].
      rewrite !len_cons. f_equal.
      - rewrite <- N.add_assoc. f_equal. apply N.add_comm.
      - rewrite <- N.add_assoc. f_equal. apply N.add_comm. }
    cbn [enrich_rows]. unfold enriched_translation in Hkeep, Hadd.
    destruct (is_some (pairs_get (valid rs) (fw, tr))); [apply Hkeep; reflexivity|].
    destruct (pairs_get (suspicious rs) (fw, tr)) as [r|]; [|apply Hkeep; reflexivity].
    destruct (translator r) as [azure|]; [|apply Hkeep; reflexivity].
    destruct (truthy azure && _); [|apply Hkeep; reflexivity].
    apply (Hadd _ (py " [Azure: " ++ azure ++ py "]")); [discriminate | reflexivity].
Qed.

(** X10. [create_enriched_anki_file] returns the number of entries as its
    first count, and as its second count the number of entries that were
    written with an [Azure: ...] alternative, that is, whose written
    translation differs from the original one. *)
Theorem enriched_file_counts
    (U : unicode_db) (original_entries : list entry) (rs : results) (deck_name : str) :
  snd (create_enriched_anki_file U original_entries rs deck_name)
  = (len original_entries, len (filter (alternative_added U rs) original_entries)) /\
  len (filter (alternative_added U rs) original_entries) <= len original_entries.
Proof.
  unfold create_enriched_anki_file. rewrite enrich_rows_counts, !N.add_0_l.
  split; [reflexivity|]. unfold len.
  pose proof (filter_length_le (alternative_added U rs) original_entries). lia.
Qed.

(** ** What [--reset] deletes *)

Lemma path_eqb_eq (a b : path) : path_eqb a b = true <-> a = b.
Proof.
  revert b. induction a as [|x a IH]; intros [|y b]; cbn [path_eqb];
    try (split; [discriminate | discriminate]); [split; reflexivity|].
  rewrite andb_true_iff, str_eqb_eq, IH. split.
  - intros [-> ->]. reflexivity.
  - intros H. injection H as -> ->. split; reflexivity.
Qed.

Lemma path_eqb_refl (a : path) : path_eqb a a = true.
Proof. apply path_eqb_eq. reflexivity. Qed.

Lemma path_eqb_sym (a b : path) : path_eqb a b = path_eqb b a.
Proof.
  destruct (path_eqb a b) eqn:E1, (path_eqb b a) eqn:E2; try reflexivity.
  - apply path_eqb_eq in E1. subst. rewrite path_eqb_refl in E2. discriminate.
  - apply path_eqb_eq in E2. subst. rewrite path_eqb_refl in E1. discriminate.
Qed.

Lemma lookup_unlink (t : file_system) (q p : path) :
  lookup (unlink t q) p = if path_eqb q p then None else lookup t p.
Proof.
  induction t as [|[r n] t IH]; [cbn; destruct (path_eqb q p); reflexivity|].
  unfold unlink in *. cbn [filter fst lookup].
  destruct (path_eqb r q) eqn:Erq; cbn [negb].
  - apply path_eqb_eq in Erq. subst r. rewrite IH.
    destruct (path_eqb q p); reflexivity.
  - cbn [lookup]. destruct (path_eqb r p) eqn:Erp.
    + apply path_eqb_eq in Erp. subst r. rewrite path_eqb_sym, Erq. reflexivity.
    + exact IH.
Qed.

Lemma is_file_unlink (t : file_system) (q p : path) :
  is_file (unlink t q) p = if path_eqb q p then false else is_file t p.
Proof.
  unfold is_file, stat. destruct p as [|x p].
  - destruct (path_eqb q []); reflexivity.
  - rewrite lookup_unlink. destruct (path_eqb q (x :: p)); reflexivity.
Qed.

(** The file system after the deletion loop of [--reset]. *)
Lemma reset_folder_lookup (found : list path) :
  forall out t p,
  lookup (snd (reset_folder found out t)) p
  = if existsb (path_eqb p) found && is_file t p then None else lookup t p.
Proof.
  induction found as [|file rest IH]; intros out t p; [reflexivity|].
  cbn [reset_folder existsb]. destruct (is_file t file) eqn:Hf.
  - rewrite IH, lookup_unlink, is_file_unlink, (path_eqb_sym p file).
    destruct (path_eqb file p) eqn:E.
    + apply path_eqb_eq in E. subst p. rewrite Hf.
      destruct (existsb (path_eqb file) rest); reflexivity.
    + reflexivity.
  - rewrite IH. destruct (path_eqb p file) eqn:E; [|reflexivity].
    apply path_eqb_eq in E. subst p. rewrite Hf, !andb_false_r. reflexivity.
Qed.

Lemma lookup_In (t : file_system) (p : path) (n : node) :
  lookup t p = Some n -> In (p, n) t.
Proof.
  induction t as [|[r m] t IH]; [discriminate|]. cbn [lookup].
  destruct (path_eqb r p) eqn:E.
  - apply path_eqb_eq in E. subst r. intros H. injection H as ->. left. reflexivity.
  - intros H. right. exact (IH H).
Qed.

Lemma iterdir_lists (t : file_system) (d p : path) (n : node) :
  lookup t p = Some n ->
  existsb (path_eqb p) (iterdir t d) = directly_in d p.
Proof.
  intros H. apply lookup_In in H. unfold iterdir, directly_in.
  destruct (truthy p && path_eqb (parent p) d) eqn:E.
  - apply existsb_exists. exists p. split; [|apply path_eqb_refl].
    apply in_map_iff. exists (p, n). split; [reflexivity|].
    apply filter_In. split; [exact H | exact E].
  - destruct (existsb (path_eqb p) _) eqn:X; [|reflexivity].
    apply existsb_exists in X. destruct X as (q & Hq & Epq).
    apply path_eqb_eq in Epq. subst q. apply in_map_iff in Hq.
    destruct Hq as ([r m] & Hr & Hin). cbn [fst] in Hr. subst r.
    apply filter_In in Hin. destruct Hin as [_ Hc]. cbn [fst] in Hc. congruence.
Qed.



(** ** The scanning loop moves forward *)

Ltac by_cases :=
  repeat match goal with
  | |- Ok _ = Ok _ -> _ =>
      let H := fresh in intros H; inversion H; subst; clear H
  | |- Raise _ = Ok _ -> _ => discriminate
  | |- match ?x with _ => _ end = _ -> _ => destruct x
  end.

Section Forward.

Variable U : unicode_db.
Variable lines : list str.

Lemma multi_word_forward (i : nat) (line : str) (i' : nat) (o : option entry) :
  multi_word U lines i line = Ok (Some (i', o)) -> i' = (i + 1)%nat.
Proof.
  unfold multi_word, andm, notm, bind. by_cases; reflexivity.
Qed.

Lemma inline_translation_forward (i : nat) (line : str) (i' : nat) (o : option entry) :
  inline_translation U i line = Ok (Some (i', o)) -> i' = (i + 1)%nat.
Proof.
  unfold inline_translation. by_cases; reflexivity.
Qed.

Lemma split_lines_forward (i : nat) (line : str) (i' : nat) (o : option entry) :
  split_lines U lines i line = Ok (Some (i', o)) -> i' = (i + 2)%nat.
Proof.
  unfold split_lines, bind. by_cases; reflexivity.
Qed.

Lemma reflexive_forward (i : nat) (line : str) (i' : nat) (o : option entry) :
  reflexive U lines i line = Ok (Some (i', o)) -> i' = (i + 1)%nat.
Proof.
  unfold reflexive, bind. by_cases; reflexivity.
Qed.

Lemma simple_word_forward (i : nat) (line : str) (i' : nat) (o : option entry) :
  simple_word U lines i line = Ok (Some (i', o)) -> i' = (i + 1)%nat.
Proof.
  unfold simple_word, andm, notm, bind. by_cases; reflexivity.
Qed.

Lemma fallback_forward (i : nat) (m : match_obj) (i' : nat) (o : option entry) :
  fallback U lines i m = Ok (i', o) -> i' = S i.
Proof.
  unfold fallback, bind. by_cases; reflexivity.
Qed.

Lemma otherwise_forward (a : result (option outcome)) (b : result outcome)
    (i i' : nat) (o : option entry) :
  (forall j oo, a = Ok (Some (j, oo)) -> (i < j <= i + 2)%nat) ->
  (b = Ok (i', o) -> (i < i' <= i + 2)%nat) ->
  otherwise a b = Ok (i', o) -> (i < i' <= i + 2)%nat.
Proof.
  intros Ha Hb. unfold otherwise, bind.
  destruct a as [[[j oo]|]|]; [|exact Hb|discriminate].
  intros H. injection H as -> ->. exact (Ha _ _ eq_refl).
Qed.

Lemma unless_matched_forward (m : option match_obj) (a : result (option outcome))
    (i j : nat) (oo : option entry) :
  (a = Ok (Some (j, oo)) -> (i < j <= i + 2)%nat) ->
  unless_matched m a = Ok (Some (j, oo)) -> (i < j <= i + 2)%nat.
Proof. destruct m; [discriminate | exact (fun H => H)]. Qed.

(** A turn of the loop moves the cursor forward by one or two lines. *)
Lemma step_forward (i i' : nat) (o : option entry) :
  step U lines i = Ok (i', o) -> (i < i' <= i + 2)%nat.
Proof.
  unfold step. unfold bind at 1. destruct (item lines i) as [l|]; [|discriminate].
  cbv zeta.
  destruct (negb (truthy (strip U l))); [intros H; injection H as <- _; lia|].
  destruct (existsb _ skip_patterns); [intros H; injection H as <- _; lia|].
  apply otherwise_forward.
  { intros j oo. apply unless_matched_forward. intros H.
    apply multi_word_forward in H. lia. }
  apply otherwise_forward.
  { intros j oo. apply unless_matched_forward. intros H.
    apply inline_translation_forward in H. lia. }
  apply otherwise_forward.
  { intros j oo. apply unless_matched_forward. intros H.
    apply split_lines_forward in H. lia. }
  apply otherwise_forward.
  { intros j oo. apply unless_matched_forward. intros H.
    apply reflexive_forward in H. lia. }
  apply otherwise_forward.
  { intros j oo. apply unless_matched_forward. intros H.
    apply simple_word_forward in H. lia. }
  destruct (match headword_match U (strip U l) with
            | Some m => Some m
            | None => re_match U false plural_pattern (strip U l)
            end) as [m|].
  - intros H. apply fallback_forward in H. lia.
  - intros H. injection H as <- _. lia.
Qed.

(** Fuel beyond the number of lines left makes no difference. *)
Lemma scan_fuel (fuel1 : nat) :
  forall fuel2 i vocabulary,
  (List.length lines - i <= fuel1)%nat -> (List.length lines - i <= fuel2)%nat ->
  scan U lines fuel1 i vocabulary = scan U lines fuel2 i vocabulary.
Proof.
  induction fuel1 as [|fuel1 IH]; intros fuel2 i vocabulary H1 H2.
  - destruct fuel2; cbn [scan]; destruct (i <? List.length lines)%nat eqn:E;
      try reflexivity. apply Nat.ltb_lt in E. lia.
  - destruct fuel2 as [|fuel2]; cbn [scan];
      destruct (i <? List.length lines)%nat eqn:E; try reflexivity.
    + apply Nat.ltb_lt in E. lia.
    + apply Nat.ltb_lt in E. unfold bind.
      destruct (step U lines i) as [[i' o]|e] eqn:Hs; [|reflexivity].
      apply step_forward in Hs. destruct o; apply IH; lia.
Qed.

End Forward.

(** X12. The scanning loop of [parse_english_vocabulary] terminates: every
    turn that does not raise moves the cursor forward by one or two lines, so
    the loop ends after at most [len(lines)] turns; running it with any
    larger bound on the number of turns gives the same result. *)
Theorem scan_terminates (U : unicode_db) (lines : list str) :
  (forall i i' o, step U lines i = Ok (i', o) -> (i < i' <= i + 2)%nat) /\
  (forall fuel, (List.length lines <= fuel)%nat ->
     scan U lines fuel 0 [] = scan U lines (List.length lines) 0 []).
Proof.
  split.
  - intros i i' o. apply step_forward.
  - intros fuel H. apply scan_fuel; lia.
Qed.

(** ** What the parser returns has passed the filter *)

Lemma subsequence_trans (A : Type) (l1 l2 l3 : list A) :
  subsequence l1 l2 -> subsequence l2 l3 -> subsequence l1 l3.
Proof.
  intros H12 H23. revert l1 H12.
  induction H23 as [|x l2 l3 _ IH|x l2 l3 _ IH]; intros l1 H12.
  - exact H12.
  - apply subsequence_skip. exact (IH _ H12).
  - inversion H12; subst.
    + apply subsequence_skip. apply IH. assumption.
    + apply subsequence_keep. apply IH. assumption.
Qed.

Lemma drop_bad_kept (U : unicode_db) (vocabulary : list entry) :
  forall kept, drop_bad U vocabulary = Ok kept ->
  subsequence kept vocabulary /\
  Forall (fun e => is_bad_entry U (fst e) (snd e) = Ok false) kept.
Proof.
  induction vocabulary as [|[e g] rest IH]; intros kept H.
  - injection H as <-. split; constructor.
  - cbn [drop_bad] in H. apply bind_ok in H. destruct H as (bad & Hbad & H).
    apply bind_ok in H. destruct H as (kept' & Hk & H). injection H as <-.
    destruct (IH _ Hk) as [Hs Hf]. destruct bad.
    + split; [apply subsequence_skip; exact Hs | exact Hf].
    + split; [apply subsequence_keep; exact Hs | constructor; [exact Hbad | exact Hf]].
Qed.

Lemma dedup_subsequence (U : unicode_db) (vocabulary : list entry) :
  forall seen, subsequence (dedup U vocabulary seen []) vocabulary.
Proof.
  induction vocabulary as [|[eng ger] rest IH]; intros seen; [constructor|].
  cbn [dedup]. destruct (negb (mem_str (seen_key U eng) seen)).
  - rewrite dedup_acc. cbn [app]. apply subsequence_keep. apply IH.
  - apply subsequence_skip. apply IH.
Qed.

Lemma subsequence_Forall (A : Type) (P : A -> Prop) (l1 l2 : list A) :
  subsequence l1 l2 -> Forall P l2 -> Forall P l1.
Proof.
  induction 1 as [|x l1 l2 _ IH|x l1 l2 _ IH]; intros H.
  - constructor.
  - inversion H; subst. apply IH. assumption.
  - inversion H; subst. constructor; [assumption | apply IH; assumption].
Qed.

(** X13. Whatever [parse_english_vocabulary] returns is a selection, in
    scan order, of the entries found by the scanning loop, none altered; each
    returned entry has passed the filter ([is_bad_entry] answered [False]
    for it), and so has a non-empty headword. *)
Theorem parsed_entries_pass_filter (U : unicode_db) (lines : list str) (v : list entry) :
  parse_english_vocabulary U lines = Ok v ->
  exists raw,
    scan U lines (List.length lines) 0 [] = Ok raw /\
    subsequence v raw /\
    Forall (fun e => is_bad_entry U (fst e) (snd e) = Ok false /\ fst e <> []) v.
Proof.
  unfold parse_english_vocabulary. intros H.
  apply bind_ok in H. destruct H as (raw & Hraw & H).
  apply bind_ok in H. destruct H as (kept & Hkept & H).
  injection H as <-. exists raw. split; [exact Hraw|].
  destruct (drop_bad_kept U raw Hkept) as [Hs Hf].
  pose proof (dedup_subsequence U kept []) as Hd.
  split; [exact (subsequence_trans Hd Hs)|].
  apply (subsequence_Forall Hd). revert Hf. apply Forall_impl.
  intros [eng ger] Hb. cbn [fst snd] in *. split; [exact Hb|].
  intros ->. rewrite blank_headword in Hb.
  destruct (truthy (strip U (lower U ger))); discriminate.
Qed.

Lemma parsed_entries_pass_filter_witness :
  parse_english_vocabulary plain_db sample_lines = Ok [(py "knife", py "Messer")] /\
  exists raw,
    scan plain_db sample_lines (List.length sample_lines) 0 [] = Ok raw /\
    subsequence [(py "knife", py "Messer")] raw.
Proof.
  assert (H : parse_english_vocabulary plain_db sample_lines
              = Ok [(py "knife", py "Messer")]) by (vm_compute; reflexivity).
  split; [exact H|].
  destruct (parsed_entries_pass_filter plain_db sample_lines H) as (raw & E & Hs & _).
  exists raw. split; assumption.
Defined.

(** ** The parser for French and German textbooks *)

Lemma item_ok (A : Type) (l : list A) (i : nat) :
  (i < List.length l)%nat -> exists x, item l i = Ok x /\ In x l.
Proof.
  intros H. unfold item. destruct (nth_error l i) as [x|] eqn:E.
  - exists x. split; [reflexivity | exact (nth_error_In _ _ E)].
  - apply nth_error_None in E. lia.
Qed.

Lemma item_In (A : Type) (l : list A) (i : nat) (x : A) : item l i = Ok x -> In x l.
Proof.
  unfold item. destruct (nth_error l i) as [y|] eqn:E; [|discriminate].
  intros H. injection H as <-. exact (nth_error_In _ _ E).
Qed.

Lemma range_below (a b n : nat) :
  (b <= n)%nat -> Forall (fun j => (j < n)%nat) (range a b).
Proof.
  intros H. apply Forall_forall. intros j Hj. unfold range in Hj.
  apply in_seq in Hj. lia.
Qed.

Section LinesFacts.

Variable U : unicode_db.
Variable re_match_ignorecase : regex -> str -> option match_obj.
Variable lines : list str.
Variable source_language : str.

(** A translation taken from the input: a stripped line, or a stripped line
    without the semicolons at its end, and not empty. *)
Let from_lines (e : entry) : Prop :=
  snd e <> [] /\
  exists l, In l lines /\
    (snd e = strip U l \/ snd e = strip U (rstrip_chars (py ";") (strip U l))).

Lemma find_translation_ok (foreign_word : str) (js : list nat) :
  Forall (fun j => (j < List.length lines)%nat) js ->
  exists r, find_translation U lines foreign_word js = Ok r.
Proof.
  induction js as [|j js IH]; intros H; [exists None; reflexivity|].
  inversion H as [|? ? Hj Hjs]; subst. specialize (IH Hjs).
  cbn [find_translation]. destruct (item_ok lines Hj) as (l & -> & _).
  cbn [bind]. destruct (strip U l) as [|c0 t] eqn:Hs; [exact IH|].
  cbn [truthy negb].
  destruct (startswith_any (c0 :: t) _); [exact IH|].
  destruct (startswith_any (c0 :: t) _); [exact IH|].
  destruct (mem_chr (chr "[") (c0 :: t)); [eexists; reflexivity|].
  replace (item (c0 :: t) 0) with (Ok c0) by reflexivity.
  unfold orm, andm, bind.
  repeat match goal with
  | |- exists _, (if ?b then _ else _) = _ => destruct b
  | |- exists _, match (if ?b then _ else _) with _ => _ end = _ => destruct b
  | |- exists _, Ok _ = Ok _ => eexists; reflexivity
  end; exact IH.
Qed.

Lemma find_translation_from (foreign_word : str) (js : list nat) (e : entry) :
  find_translation U lines foreign_word js = Ok (Some e) -> from_lines e.
Proof.
  induction js as [|j js IH]; [discriminate|].
  cbn [find_translation]. unfold bind at 1.
  destruct (item lines j) as [l|] eqn:Hl; [|discriminate].
  apply item_In in Hl. cbv zeta.
  destruct (negb (truthy (strip U l))); [exact IH|].
  destruct (startswith_any (strip U l) _); [exact IH|].
  destruct (startswith_any (strip U l) _); [exact IH|].
  destruct (mem_chr (chr "[") (strip U l)); [discriminate|].
  unfold bind at 1. destruct (orm _ _) as [[|]|]; [|exact IH|discriminate].
  destruct (strip U (rstrip_chars (py ";") (strip U l))) as [|c t] eqn:Ht.
  - rewrite andb_false_r. discriminate.
  - destruct (truthy foreign_word && truthy (c :: t) && (1 <? len (c :: t)));
      [|discriminate].
    intros H. injection H as <-. split; [discriminate|].
    exists l. split; [exact Hl|]. right. cbn [snd]. symmetry. exact Ht.
Qed.

Lemma next_line_entry_ok (i : nat) (headword : str) (accept : str -> bool) :
  exists i' o, next_line_entry U lines i headword accept = Ok (i', o) /\
               (i < i' <= i + 2)%nat.
Proof.
  unfold next_line_entry. destruct (i + 1 <? List.length lines)%nat eqn:E.
  - apply Nat.ltb_lt in E. destruct (item_ok lines E) as (l & -> & _). cbn [bind].
    destruct (accept (strip U l)); eexists; eexists; (split; [reflexivity | lia]).
  - eexists; eexists; (split; [reflexivity | lia]).
Qed.

Lemma next_line_entry_from (i : nat) (headword : str) (accept : str -> bool)
    (i' : nat) (e : entry) :
  accept [] = false ->
  next_line_entry U lines i headword accept = Ok (i', Some e) -> from_lines e.
Proof.
  intros Ha. unfold next_line_entry.
  destruct (i + 1 <? List.length lines)%nat; [|discriminate].
  unfold bind. destruct (item lines (i + 1)) as [l|] eqn:Hl; [|discriminate].
  apply item_In in Hl. destruct (accept (strip U l)) eqn:E; [|discriminate].
  intros H. injection H as _ <-. split.
  - cbn [snd]. intros Hn. rewrite Hn in E. congruence.
  - exists l. split; [exact Hl|]. left. reflexivity.
Qed.

(** A turn of the loop never raises and moves the cursor forward by one or
    two lines. *)
Lemma lines_step_ok (i : nat) :
  (i < List.length lines)%nat ->
  exists i' o, lines_step U re_match_ignorecase lines source_language i = Ok (i', o) /\
               (i < i' <= i + 2)%nat.
Proof.
  intros Hi. unfold lines_step. destruct (item_ok lines Hi) as (l & -> & _).
  cbn [bind]. cbv zeta.
  destruct (negb (truthy (strip U l)));
    [eexists; eexists; (split; [reflexivity | lia])|].
  destruct (existsb _ line_skip_patterns);
    [eexists; eexists; (split; [reflexivity | lia])|].
  destruct (re_match U false foreign_pron_pattern (strip U l)) as [m|].
  { destruct (find_translation_ok
                (lstrip_chars (py "*0123456789 ") (strip U (group m 1)))
                (range_below (i + 1) (Nat.le_min_r (i + 4) (List.length lines))))
      as [r ->].
    cbn [bind]. eexists; eexists; (split; [reflexivity | lia]). }
  destruct (if str_eqb source_language (py "french")
            then re_match_ignorecase french_noun_pattern (strip U l) else None);
    [apply next_line_entry_ok|].
  destruct (re_match U false verb_object_pattern (strip U l));
    [apply next_line_entry_ok|].
  destruct (re_match_ignorecase phrase_pattern (strip U l));
    [apply next_line_entry_ok|].
  destruct (matches U plain_word_pattern (strip U l)).
  { destruct (_ || _); [apply next_line_entry_ok|].
    eexists; eexists; (split; [reflexivity | lia]). }
  destruct (re_match U false adjective_pattern (strip U l));
    [apply next_line_entry_ok|].
  eexists; eexists; (split; [reflexivity | lia]).
Qed.

Lemma lines_step_from (i i' : nat) (e : entry) :
  lines_step U re_match_ignorecase lines source_language i = Ok (i', Some e) ->
  from_lines e.
Proof.
  unfold lines_step. unfold bind at 1. destruct (item lines i) as [l|]; [|discriminate].
  cbv zeta.
  destruct (negb (truthy (strip U l))); [discriminate|].
  destruct (existsb _ line_skip_patterns); [discriminate|].
  destruct (re_match U false foreign_pron_pattern (strip U l)) as [m|].
  { unfold bind. destruct (find_translation U lines _ _) as [[found|]|] eqn:F;
      try discriminate.
    intros H. injection H as _ <-. exact (find_translation_from _ _ F). }
  destruct (if str_eqb source_language (py "french")
            then re_match_ignorecase french_noun_pattern (strip U l) else None);
    [apply next_line_entry_from; reflexivity|].
  destruct (re_match U false verb_object_pattern (strip U l));
    [apply next_line_entry_from; reflexivity|].
  destruct (re_match_ignorecase phrase_pattern (strip U l));
    [apply next_line_entry_from; reflexivity|].
  destruct (matches U plain_word_pattern (strip U l)).
  { destruct (_ || _); [apply next_line_entry_from; reflexivity | discriminate]. }
  destruct (re_match U false adjective_pattern (strip U l));
    [apply next_line_entry_from; reflexivity | discriminate].
Qed.

Lemma scan_lines_ok (fuel : nat) :
  forall i vocabulary,
  (List.length lines - i <= fuel)%nat ->
  exists v, scan_lines U re_match_ignorecase lines source_language fuel i vocabulary = Ok v /\
            (List.length v <= List.length vocabulary + (List.length lines - i))%nat /\
            (Forall from_lines vocabulary -> Forall from_lines v).
Proof.
  induction fuel as [|fuel IH]; intros i vocabulary Hf.
  - exists vocabulary. cbn [scan_lines].
    destruct (i <? List.length lines)%nat eqn:E; [apply Nat.ltb_lt in E; lia|].
    split; [reflexivity|]. split; [lia | exact (fun H => H)].
  - cbn [scan_lines]. destruct (i <? List.length lines)%nat eqn:E.
    + apply Nat.ltb_lt in E.
      destruct (lines_step_ok E) as (i' & o & Hs & Hi). rewrite Hs. cbn [bind].
      destruct o as [e|].
      * destruct (IH i' (vocabulary ++ [e])) as (v & Hv & Hl & HF); [lia|].
        exists v. split; [exact Hv|]. rewrite length_app in Hl. cbn [List.length] in Hl.
        split; [lia|]. intros H. apply HF. apply Forall_app. split; [exact H|].
        constructor; [|constructor]. exact (lines_step_from _ Hs).
      * destruct (IH i' vocabulary) as (v & Hv & Hl & HF); [lia|].
        exists v. split; [exact Hv|]. split; [lia | exact HF].
    + exists vocabulary. split; [reflexivity|]. split; [lia | exact (fun H => H)].
Qed.

Lemma scan_lines_fuel (fuel1 : nat) :
  forall fuel2 i vocabulary,
  (List.length lines - i <= fuel1)%nat -> (List.length lines - i <= fuel2)%nat ->
  scan_lines U re_match_ignorecase lines source_language fuel1 i vocabulary
  = scan_lines U re_match_ignorecase lines source_language fuel2 i vocabulary.
Proof.
  induction fuel1 as [|fuel1 IH]; intros fuel2 i vocabulary H1 H2.
  - destruct fuel2; cbn [scan_lines]; destruct (i <? List.length lines)%nat eqn:E;
      try reflexivity. apply Nat.ltb_lt in E. lia.
  - destruct fuel2 as [|fuel2]; cbn [scan_lines];
      destruct (i <? List.length lines)%nat eqn:E; try reflexivity.
    + apply Nat.ltb_lt in E. lia.
    + apply Nat.ltb_lt in E.
      destruct (lines_step_ok E) as (i' & o & Hs & Hi). rewrite Hs. cbn [bind].
      destruct o; apply IH; lia.
Qed.

End LinesFacts.

(** X14. For a language other than English, [parse_vocabulary_lines] is
    total: on every list of lines it returns a list, without raising, of at
    most as many entries as there are lines.  Every turn of its loop moves
    the cursor forward by one or two lines, so the loop ends after at most
    [len(lines)] turns, and a larger bound on the number of turns gives the
    same result. *)
Theorem lines_parser_total
    (U : unicode_db) (re_match_ignorecase : regex -> str -> option match_obj)
    (lines : list str) (source_language : str) :
  str_eqb source_language (py "english") = false ->
  (exists v,
     parse_vocabulary_lines U re_match_ignorecase lines source_language = Ok v /\
     (List.length v <= List.length lines)%nat) /\
  (forall i, (i < List.length lines)%nat ->
     exists i' o,
       lines_step U re_match_ignorecase lines source_language i = Ok (i', o) /\
       (i < i' <= i + 2)%nat) /\
  (forall fuel, (List.length lines <= fuel)%nat ->
     scan_lines U re_match_ignorecase lines source_language fuel 0 []
     = scan_lines U re_match_ignorecase lines source_language (List.length lines) 0 []).
Proof.
  intros Hl. split; [|split].
  - unfold parse_vocabulary_lines. rewrite Hl.
    destruct (@scan_lines_ok U re_match_ignorecase lines source_language
                (List.length lines) 0%nat []) as (v & Hv & Hlen & _); [lia|].
    exists v. split; [exact Hv|]. cbn [List.length] in Hlen. lia.
  - intros i Hi. apply lines_step_ok. exact Hi.
  - intros fuel Hf. apply scan_lines_fuel; lia.
Qed.

Lemma lines_parser_total_witness :
  str_eqb (py "french") (py "english") = false /\
  exists v,
    parse_vocabulary_lines plain_db (re_match plain_db true) sample_french_lines
                           (py "french") = Ok v /\
    (List.length v <= List.length sample_french_lines)%nat.
Proof.
  split; [reflexivity|].
  exact (proj1 (lines_parser_total plain_db (re_match plain_db true) sample_french_lines
                  (py "french") eq_refl)).
Defined.

(** X15. For a language other than English, every translation returned by
    [parse_vocabulary_lines] is taken from the input: it is not empty, and it
    is one of the input lines stripped, or stripped, cut before the
    semicolons at its end and stripped again. *)
Theorem translations_from_lines
    (U : unicode_db) (re_match_ignorecase : regex -> str -> option match_obj)
    (lines : list str) (source_language : str) (v : list entry) :
  str_eqb source_language (py "english") = false ->
  parse_vocabulary_lines U re_match_ignorecase lines source_language = Ok v ->
  Forall (fun e =>
            snd e <> [] /\
            exists l, In l lines /\
              (snd e = strip U l \/
               snd e = strip U (rstrip_chars (py ";") (strip U l))))
         v.
Proof.
  intros Hl. unfold parse_vocabulary_lines. rewrite Hl. intros Hv.
  destruct (@scan_lines_ok U re_match_ignorecase lines source_language
              (List.length lines) 0%nat []) as (v' & Hv' & _ & HF); [lia|].
  rewrite Hv in Hv'. injection Hv' as <-. apply HF. constructor.
Qed.

Lemma translations_from_lines_witness :
  str_eqb (py "french") (py "english") = false /\
  parse_vocabulary_lines plain_db (re_match plain_db true) sample_french_lines
                         (py "french") = Ok [(py "porter qc", py "etw. tragen")] /\
  Forall (fun e => snd e <> [] /\ exists l, In l sample_french_lines /\
            (snd e = strip plain_db l \/
             snd e = strip plain_db (rstrip_chars (py ";") (strip plain_db l))))
         [(py "porter qc", py "etw. tragen")].
Proof.
  split; [reflexivity|].
  assert (H : parse_vocabulary_lines plain_db (re_match plain_db true) sample_french_lines
                (py "french") = Ok [(py "porter qc", py "etw. tragen")])
    by (vm_compute; reflexivity).
  split; [exact H|].
  exact (translations_from_lines plain_db (re_match plain_db true) sample_french_lines
           (py "french") eq_refl H).
Defined.

(** ** The final file of the validation run *)

Lemma replace_absent (old new s : str) :
  contains old s = false -> replace old new s = s.
Proof.
  unfold replace. induction s as [|c s IH]; [reflexivity|].
  cbn [contains replace_from]. intros H. apply orb_false_iff in H.
  destruct H as [H1 H2]. rewrite H1, (IH H2). reflexivity.
Qed.

Lemma replace_present (s : str) :
  contains (py "anki_") s = true -> replace (py "anki_") (py "final_") s <> s.
Proof.
  unfold replace. induction s as [|c s IH]; [discriminate|].
  cbn [contains replace_from].
  destruct (startswith (c :: s) (py "anki_")) eqn:E.
  - intros _ H. cbn [startswith py] in E.
    change (py "anki_") with (97 :: py "nki_") in E.
    cbn [startswith] in E. apply andb_true_iff in E. destruct E as [E _].
    apply N.eqb_eq in E. subst c. discriminate H.
  - cbn [orb]. intros H K. injection K as K. exact (IH H K).
Qed.

Lemma parent_name (p : path) : p <> [] -> parent p ++ [name p] = p.
Proof. intros H. unfold parent, name. symmetry. apply app_removelast_last. exact H. Qed.

(** X16. Without [--output], the path of the final enriched file is that of
    the input file with [anki_] in its name replaced by [final_]: it is the
    path of the input file itself exactly when the name of the input file
    does not contain [anki_], and a different path otherwise. *)
Theorem final_file_is_input (Path : str -> path) (anki_file : path) :
  anki_file <> [] ->
  (final_file_of Path anki_file None = anki_file
   <-> contains (py "anki_") (name anki_file) = false).
Proof.
  intros Hp. unfold final_file_of, report_folder_of. split.
  - intros H. destruct (contains (py "anki_") (name anki_file)) eqn:E; [|reflexivity].
    exfalso. apply (replace_present E).
    rewrite <- (parent_name Hp) in H at 3. apply app_inv_head in H.
    injection H as H. exact H.
  - intros H. rewrite (@replace_absent (py "anki_") (py "final_") _ H). apply parent_name. exact Hp.
Qed.

Lemma final_file_is_input_witness :
  [py "output"; py "vocabulary.txt"] <> [] /\
  final_file_of sample_Path [py "output"; py "vocabulary.txt"] None
  = [py "output"; py "vocabulary.txt"] /\
  final_file_of sample_Path [py "output"; py "anki_english_unit-1.txt"] None
  = [py "output"; py "final_english_unit-1.txt"].
Proof.
  split; [discriminate|].
  split; [|reflexivity].
  apply (@final_file_is_input sample_Path [py "output"; py "vocabulary.txt"]);
    [discriminate | reflexivity].
Defined.

(** ** Raising the threshold *)

Lemma SFleb_trans (a b c : SpecFloat.spec_float) :
  SpecFloat.SFleb a b = true -> SpecFloat.SFleb b c = true -> SpecFloat.SFleb a c = true.
Proof.
  unfold SpecFloat.SFleb, SpecFloat.SFcompare.
  destruct a as [sa|sa| |sa ma ea], b as [sb|sb| |sb mb eb], c as [sc|sc| |sc mc ec];
    try discriminate; try reflexivity;
    repeat match goal with s : bool |- _ => destruct s end;
    try discriminate; try reflexivity;
    change (PosDef.Pos.compare_cont Eq ma mb) with (Pos.compare ma mb);
    change (PosDef.Pos.compare_cont Eq mb mc) with (Pos.compare mb mc);
    change (PosDef.Pos.compare_cont Eq ma mc) with (Pos.compare ma mc);
    destruct (Z.compare_spec ea eb), (Z.compare_spec eb ec), (Z.compare_spec ea ec);
    try discriminate; try reflexivity; try lia;
    destruct (Pos.compare_spec ma mb), (Pos.compare_spec mb mc), (Pos.compare_spec ma mc);
    cbn; try discriminate; try reflexivity; try lia.
Qed.

Lemma float_leb_trans (a b c : float) :
  (a <=? b)%float = true -> (b <=? c)%float = true -> (a <=? c)%float = true.
Proof. rewrite !FloatAxioms.leb_spec. apply SFleb_trans. Qed.

Section Threshold.

Variable U : unicode_db.
Variable world : Type.
Variable translate_text : str -> str -> str -> str -> world -> option str * world.
Variable ratio : str -> str -> float.
Variable format_2f : float -> str.
Variables from_lang to_lang access_token : str.
Variable raw_text : str.
Variables low high : float.
Hypothesis low_high : (low <=? high)%float = true.

Let run_with (threshold : float) :=
  validate_loop U translate_text ratio format_2f from_lang to_lang access_token
                threshold raw_text.

(** The two runs are in step: same world, same calls, same errors, and
    what the higher threshold accepted the lower one accepted too. *)
Let in_step (st1 st2 : vstate world) : Prop :=
  v_world st1 = v_world st2 /\ v_calls st1 = v_calls st2 /\
  errors (v_results st1) = errors (v_results st2) /\
  incl (valid (v_results st2)) (valid (v_results st1)).

Lemma validate_entry_in_step (e : entry) (st1 st2 : vstate world) :
  in_step st1 st2 ->
  in_step (validate_entry U translate_text ratio format_2f from_lang to_lang access_token
                          low raw_text e st1)
          (validate_entry U translate_text ratio format_2f from_lang to_lang access_token
                          high raw_text e st2).
Proof.
  unfold in_step. intros (Hw & Hc & He & Hv). destruct e as [fw tr]. unfold validate_entry.
  destruct ((len fw <? 2) || (len tr <? 2)).
  - repeat split; assumption.
  - rewrite Hw, Hc.
    destruct (translate_text fw from_lang to_lang access_token (v_world st2))
      as [[translator_result|] w].
    + set (score := combined (similarity_score U ratio tr translator_result)
                             (word_overlap_score U tr translator_result)).
      destruct (low <=? score)%float eqn:E1; destruct (high <=? score)%float eqn:E2;
        cbn [v_world v_calls v_results valid errors add_valid add_suspicious];
        repeat split; try assumption; try reflexivity.
      * intros r Hr. apply in_app_or in Hr. apply in_or_app.
        destruct Hr as [Hr|Hr]; [left; exact (Hv r Hr) | right; exact Hr].
      * intros r Hr. apply in_or_app. left. exact (Hv r Hr).
      * rewrite (float_leb_trans low_high E2) in E1. discriminate.
    + cbn [v_world v_calls v_results valid errors add_error].
      repeat split; try assumption; try reflexivity. rewrite He. reflexivity.
Qed.

Lemma validate_loop_in_step (entries : list entry) :
  forall st1 st2, in_step st1 st2 -> in_step (run_with low entries st1) (run_with high entries st2).
Proof.
  unfold run_with, validate_loop.
  induction entries as [|e rest IH]; intros st1 st2 H; [exact H|].
  cbn [fold_left]. apply IH. apply validate_entry_in_step. exact H.
Qed.

End Threshold.

(** X17. Raising the threshold never makes an entry valid: if [low <= high]
    then every report that [validate_vocabulary] lists as valid under the
    threshold [high] it also lists as valid under [low]; the translator is
    called for the same texts, and the error reports are the same. *)
Theorem threshold_monotone
    (U : unicode_db) (world : Type)
    (translate_text : str -> str -> str -> str -> world -> option str * world)
    (ratio : str -> str -> float) (format_2f : float -> str)
    (entries : list entry) (from_lang to_lang access_token : str)
    (low high : float) (raw_text : str) (w : world) :
  (low <=? high)%float = true ->
  let st1 := validate_vocabulary U translate_text ratio format_2f entries
               from_lang to_lang access_token low raw_text w in
  let st2 := validate_vocabulary U translate_text ratio format_2f entries
               from_lang to_lang access_token high raw_text w in
  (forall r, In r (valid (v_results st2)) -> In r (valid (v_results st1))) /\
  errors (v_results st1) = errors (v_results st2) /\
  v_calls st1 = v_calls st2.
Proof.
  intros H. cbv zeta. unfold validate_vocabulary.
  destruct (@validate_loop_in_step U world translate_text ratio format_2f
              from_lang to_lang access_token raw_text low high H entries
              {| v_results := {| valid := []; suspicious := []; errors := [] |};
                 v_world := w; v_calls := [] |}
              {| v_results := {| valid := []; suspicious := []; errors := [] |};
                 v_world := w; v_calls := [] |})
    as (_ & Hc & He & Hv).
  - repeat split; try reflexivity. intros r Hr. exact Hr.
  - split; [exact Hv|]. split; assumption.
Qed.

Lemma threshold_monotone_witness :
  (0.25 <=? 0.5)%float = true /\
  forall r,
    In r (valid (v_results (validate_vocabulary plain_db sample_translate sample_ratio
                              sample_format sample_vocabulary (py "en") (py "de") []
                              0.5%float [] 0%nat))) ->
    In r (valid (v_results (validate_vocabulary plain_db sample_translate sample_ratio
                              sample_format sample_vocabulary (py "en") (py "de") []
                              0.25%float [] 0%nat))).
Proof.
  split; [reflexivity|].
  exact (proj1 (@threshold_monotone plain_db nat sample_translate sample_ratio
                  sample_format sample_vocabulary (py "en") (py "de") []
                  0.25%float 0.5%float [] 0%nat eq_refl)).
Defined.

(** ** The order in which the folder is listed *)

Lemma str_leb_total (a b : str) : str_leb a b = true \/ str_leb b a = true.
Proof.
  revert b. induction a as [|x a IH]; intros [|y b]; cbn [str_leb]; auto.
  destruct (N.ltb_spec x y), (N.ltb_spec y x); auto; lia.
Qed.

Lemma str_leb_antisym (a b : str) : str_leb a b = true -> str_leb b a = true -> a = b.
Proof.
  revert b. induction a as [|x a IH]; intros [|y b]; cbn [str_leb];
    try discriminate; [reflexivity|].
  destruct (N.ltb_spec x y), (N.ltb_spec y x); try discriminate; try lia.
  intros H1 H2. assert (x = y) by lia. subst. f_equal. exact (IH _ H1 H2).
Qed.

Lemma str_leb_trans (a b c : str) :
  str_leb a b = true -> str_leb b c = true -> str_leb a c = true.
Proof.
  revert b c. induction a as [|x a IH]; intros [|y b] [|z c]; cbn [str_leb];
    try discriminate; try reflexivity.
  destruct (N.ltb_spec x y), (N.ltb_spec y z), (N.ltb_spec y x), (N.ltb_spec z y),
    (N.ltb_spec x z), (N.ltb_spec z x); try discriminate; try reflexivity; try lia.
  apply IH.
Qed.

Lemma insert_sorted_perm (x : str) (l : list str) : Permutation (insert_sorted x l) (x :: l).
Proof.
  induction l as [|y l IH]; [reflexivity|]. cbn [insert_sorted].
  destruct (str_leb x y); [reflexivity|].
  rewrite IH. apply perm_swap.
Qed.

Lemma sort_perm (l : list str) : Permutation (sort l) l.
Proof.
  induction l as [|x l IH]; [reflexivity|]. cbn [sort].
  rewrite insert_sorted_perm. apply perm_skip. exact IH.
Qed.

Lemma insert_sorted_ascending (x : str) (l : list str) :
  ascending l -> ascending (insert_sorted x l).
Proof.
  induction 1 as [|y l Hy Hl IH]; cbn [insert_sorted].
  - constructor; [intros y [] | constructor].
  - destruct (str_leb x y) eqn:E.
    + constructor; [|constructor; assumption].
      intros z [<-|Hz]; [exact E|]. exact (str_leb_trans _ _ _ E (Hy z Hz)).
    + constructor; [|exact IH].
      intros z Hz. apply (Permutation_in _ (insert_sorted_perm x l)) in Hz.
      destruct Hz as [<-|Hz]; [|exact (Hy z Hz)].
      destruct (str_leb_total x y) as [H|H]; [congruence | exact H].
Qed.

Lemma sort_ascending (l : list str) : ascending (sort l).
Proof.
  induction l as [|x l IH]; [constructor|]. cbn [sort].
  apply insert_sorted_ascending. exact IH.
Qed.

Lemma ascending_unique (l1 l2 : list str) :
  ascending l1 -> ascending l2 -> Permutation l1 l2 -> l1 = l2.
Proof.
  intros H1. revert l2. induction H1 as [|x l1 Hx Hl1 IH]; intros l2 H2 P.
  - apply Permutation_nil in P. subst. reflexivity.
  - destruct H2 as [|y l2 Hy Hl2].
    + apply Permutation_sym, Permutation_nil in P. discriminate.
    + assert (Exy : x = y).
      { apply str_leb_antisym.
        - assert (I : In y (x :: l1)) by (apply (Permutation_in _ (Permutation_sym P)); left; reflexivity).
          destruct I as [<-|I]; [|exact (Hx y I)].
          destruct (str_leb_total x x); assumption.
        - assert (I : In x (y :: l2)) by (apply (Permutation_in _ P); left; reflexivity).
          destruct I as [<-|I]; [|exact (Hy x I)].
          destruct (str_leb_total y y); assumption. }
      subst y. f_equal. apply IH; [exact Hl2|].
      exact (Permutation_cons_inv P).
Qed.

Lemma filter_perm (A : Type) (f : A -> bool) (l1 l2 : list A) :
  Permutation l1 l2 -> Permutation (filter f l1) (filter f l2).
Proof.
  induction 1 as [|x l1 l2 _ IH|x y l|l1 l2 l3 _ IH1 _ IH2]; cbn [filter].
  - reflexivity.
  - destruct (f x); [apply perm_skip|]; exact IH.
  - destruct (f x), (f y); try reflexivity. apply perm_swap.
  - rewrite IH1. exact IH2.
Qed.

(** X18. [extract_all_images] does not depend on the order in which the
    system lists the folder: the image names are sorted before they are
    read, so two listings of the same names give the same text (or the same
    exit), read the images in the same ascending order and leave the same
    world behind. *)
Theorem listing_order_irrelevant
    (U : unicode_db) (world : Type)
    (read_image : str -> str -> world -> option (list str) * world)
    (folder_path : str) (listdir1 listdir2 : list str) (w : world) :
  Permutation listdir1 listdir2 ->
  extract_all_images U read_image folder_path listdir1 w
  = extract_all_images U read_image folder_path listdir2 w.
Proof.
  intros P. unfold extract_all_images.
  assert (E : sort (filter (is_image U) listdir1) = sort (filter (is_image U) listdir2)).
  { apply ascending_unique; try apply sort_ascending.
    rewrite !sort_perm. apply filter_perm. exact P. }
  rewrite E. reflexivity.
Qed.

Lemma listing_order_irrelevant_witness :
  Permutation [py "b.PNG"; py "notes.txt"; py "a.jpg"] [py "a.jpg"; py "b.PNG"; py "notes.txt"] /\
  extract_all_images plain_db sample_read_image (py "input") [py "b.PNG"; py "notes.txt"; py "a.jpg"] 0%nat
  = extract_all_images plain_db sample_read_image (py "input") [py "a.jpg"; py "b.PNG"; py "notes.txt"] 0%nat /\
  extract_all_images plain_db sample_read_image (py "input") [py "b.PNG"; py "notes.txt"; py "a.jpg"] 0%nat
  = (Some [py "a.jpg"; py "b.PNG"], 2%nat).
Proof.
  assert (P : Permutation [py "b.PNG"; py "notes.txt"; py "a.jpg"]
                          [py "a.jpg"; py "b.PNG"; py "notes.txt"]).
  { apply Permutation_sym. apply (Permutation_cons_app [py "b.PNG"; py "notes.txt"] []).
    rewrite app_nil_r. reflexivity. }
  split; [exact P|]. split; [|reflexivity].
  exact (@listing_order_irrelevant plain_db nat sample_read_image (py "input") _ _ 0%nat P).
Defined.

(** ** Loanwords in the filtering pass *)

(** What the filtering pass keeps: the entries for which [is_bad_entry]
    answers [False]. *)
Lemma drop_bad_In (U : unicode_db) (vocabulary : list entry) :
  forall kept, drop_bad U vocabulary = Ok kept ->
  forall e, In e kept <-> In e vocabulary /\ is_bad_entry U (fst e) (snd e) = Ok false.
Proof.
  induction vocabulary as [|[eng ger] rest IH]; intros kept H e.
  - injection H as <-. split; [intros [] | intros [[] _]].
  - cbn [drop_bad] in H. apply bind_ok in H. destruct H as (bad & Hbad & H).
    apply bind_ok in H. destruct H as (kept' & Hk & H). injection H as <-.
    specialize (IH _ Hk e). destruct bad.
    + rewrite IH. split.
      * intros [Hin Hg]. split; [right; exact Hin | exact Hg].
      * intros [[<-|Hin] Hg]; [cbn [fst snd] in Hg; congruence|].
        split; assumption.
    + cbn [In]. rewrite IH. split.
      * intros [<-|[Hin Hg]]; [split; [left; reflexivity | exact Hbad]|].
        split; [right; exact Hin | exact Hg].
      * intros [[<-|Hin] Hg]; [left; reflexivity | right; split; assumption].
Qed.

(** C7. In the filtering pass of [parse_english_vocabulary] (the list is
    rebuilt from the entries for which [is_bad_entry] is false), an entry of
    the list whose headword and translation are the same after [lower()] is
    kept exactly when the lowered headword is on the loanword list; so of
    (digital, digital), (cover, cover) and (happy, happy) the first two are
    kept and the third is dropped. *)
Theorem loanword_filter
    (U : unicode_db) (vocabulary kept : list entry) (eng ger : str) :
  drop_bad U vocabulary = Ok kept ->
  In (eng, ger) vocabulary ->
  lower U eng = lower U ger ->
  (In (eng, ger) kept <-> In (lower U eng) loanwords) /\
  drop_bad U [(py "digital", py "digital"); (py "cover", py "cover");
              (py "happy", py "happy")]
  = Ok [(py "digital", py "digital"); (py "cover", py "cover")].
Proof.
  intros Hk Hin Heq. split; [|vm_compute; reflexivity].
  rewrite (drop_bad_In U vocabulary Hk (eng, ger)). cbn [fst snd]. split.
  - intros [_ Hg]. destruct (mem_str (lower U eng) loanwords) eqn:E.
    + apply mem_str_In. exact E.
    + assert (Hn : ~ In (lower U eng) loanwords).
      { intros I. apply mem_str_In in I. congruence. }
      rewrite (@identical_dropped U eng ger Hn Heq) in Hg. discriminate.
  - intros I. split; [exact Hin | exact (@loanword_kept U eng ger I Heq)].
Qed.

Lemma loanword_filter_witness :
  drop_bad plain_db identical_vocabulary = Ok [(py "Digital", py "digital")] /\
  In (py "Digital", py "digital") identical_vocabulary /\
  lower plain_db (py "Digital") = lower plain_db (py "digital") /\
  (In (py "Digital", py "digital") [(py "Digital", py "digital")]
   <-> In (lower plain_db (py "Digital")) loanwords).
Proof.
  assert (Hk : drop_bad plain_db identical_vocabulary = Ok [(py "Digital", py "digital")])
    by (vm_compute; reflexivity).
  assert (Hin : In (py "Digital", py "digital") identical_vocabulary)
    by (left; reflexivity).
  split; [exact Hk|]. split; [exact Hin|]. split; [reflexivity|].
  exact (proj1 (@loanword_filter plain_db identical_vocabulary _ (py "Digital")
                  (py "digital") Hk Hin eq_refl)).
Defined.
